(** * Canonical collection of LR(0) items: a shallow embedding

    The development embeds the LR(0) part of the repository (the classes
    [GrammarSymbol], [Production], [Grammar], [LRItem], [Closure] and the
    global [LRItemsRegistry]) and states the properties of the specification
    over that embedding.

    Modelling conventions.
    - A JavaScript string is a [string] holding its UTF-8 bytes.  The two
      non-ASCII literals of the source ([ε] and [•]) only occur as whole
      constants; white space is the ASCII part of what [trim] and [\s]
      recognise (space, tab, line feed, vertical tab, form feed, carriage
      return).
    - [undefined] is [None] at the places where the source can hold it
      (the text of a symbol, an array element out of range).
    - Objects with identity ([LRItem], [Closure]) live in a [Heap] and are
      named by their index; the global registry is part of that heap.
    - A call either returns ([Done]), throws ([Throw]) or, for the two
      recursive methods, needs more recursion depth than the supplied
      bound ([OutOfFuel]). *)

From Stdlib Require Import Ascii.
From Stdlib Require String.
From stdpp Require Import gmap strings list.

(** ** Outcomes of a call *)

Inductive JsError : Type :=
| TypeError                 (* property access on [undefined] *)
| Error (message : string). (* [throw new Error(message)] *)

Inductive outcome (A : Type) : Type :=
| Done (a : A)
| Throw (e : JsError)
| OutOfFuel.

Arguments Done {A} a.
Arguments Throw {A} e.
Arguments OutOfFuel {A}.

Definition obind {A B} (m : outcome A) (k : A -> outcome B) : outcome B :=
  match m with
  | Done a => k a
  | Throw e => Throw e
  | OutOfFuel => OutOfFuel
  end.

Notation "'let*' x ':=' m 'in' k" := (obind m (fun x => k))
  (at level 10, x pattern, m at level 100, k at level 200).

(** ** String primitives used by the parser *)

Definition dquote : ascii := ascii_of_nat 34.
Definition squote : ascii := ascii_of_nat 39.

(** The text of the terminal for a blank, [" "] with its quotes. *)
Definition quoted_space : string :=
  String dquote (String " "%char (String dquote EmptyString)).
(** A lone double quote, as a token. *)
Definition dquote_token : string := String dquote EmptyString.

Definition is_ws (c : ascii) : bool :=
  let n := nat_of_ascii c in
  (n =? 32)%nat || ((9 <=? n)%nat && (n <=? 13)%nat).

Fixpoint has_prefix (p s : string) : bool :=
  match p, s with
  | EmptyString, _ => true
  | String a p', String b s' => if Ascii.eqb a b then has_prefix p' s' else false
  | String _ _, EmptyString => false
  end.

(** [s.indexOf(sub)], with [None] for [-1]. *)
Fixpoint indexOf (s sub : string) : option nat :=
  if has_prefix sub s then Some 0
  else match s with
       | EmptyString => None
       | String _ s' => S <$> indexOf s' sub
       end.

(** [s.split(sep)] for a non-empty separator: [cur] is the piece being
    read, [skip] the number of separator characters still to be passed. *)
Fixpoint split_go (sep : string) (skip : nat) (cur : string) (s : string)
  : list string :=
  match s with
  | EmptyString => [cur]
  | String c s' =>
      match skip with
      | S k => split_go sep k cur s'
      | O =>
          if has_prefix sep s
          then cur :: split_go sep (String.length sep - 1) EmptyString s'
          else split_go sep 0 (cur +:+ String c EmptyString) s'
      end
  end.

Definition js_split (s sep : string) : list string :=
  split_go sep 0 EmptyString s.

(** [s.split(/\s+/)]. *)
Fixpoint split_ws_go (cur : string) (inws : bool) (s : string) : list string :=
  match s with
  | EmptyString => [cur]
  | String c s' =>
      if is_ws c
      then if inws then split_ws_go cur true s'
           else cur :: split_ws_go EmptyString true s'
      else split_ws_go (cur +:+ String c EmptyString) false s'
  end.

Definition split_ws (s : string) : list string := split_ws_go EmptyString false s.

Fixpoint trimStart (s : string) : string :=
  match s with
  | EmptyString => EmptyString
  | String c s' => if is_ws c then trimStart s' else s
  end.

Fixpoint trimEnd (s : string) : string :=
  match s with
  | EmptyString => EmptyString
  | String c s' =>
      match trimEnd s' with
      | EmptyString => if is_ws c then EmptyString else String c EmptyString
      | t => String c t
      end
  end.

Definition trim (s : string) : string := trimEnd (trimStart s).

(** [a.join(sep)]. *)
Fixpoint join (sep : string) (l : list string) : string :=
  match l with
  | [] => EmptyString
  | [x] => x
  | x :: l' => x +:+ sep +:+ join sep l'
  end.

(** String conversion of a value that is a string or [undefined], as a
    template literal performs it. *)
Definition to_string (v : option string) : string :=
  match v with
  | Some s => s
  | None => "undefined"
  end.

(** Truthiness of a string or [undefined]. *)
Definition truthy (v : option string) : bool :=
  match v with
  | Some (String _ _) => true
  | _ => false
  end.

(** ** 1. GrammarSymbol *)

Definition EPSILON : string := "ε".

Record GrammarSymbol : Type := mkSymbol { _symbol : option string }.

Definition is_quote (c : ascii) : bool :=
  Ascii.eqb c squote || Ascii.eqb c dquote.

Fixpoint last_char (s : string) : option ascii :=
  match s with
  | EmptyString => None
  | String c EmptyString => Some c
  | String _ s' => last_char s'
  end.

(** [quoteRe.test(x)] where [x] is a character of the symbol or
    [undefined] (which the test converts to a text without quotes). *)
Definition quoteRe_test (c : option ascii) : bool :=
  match c with
  | Some c => is_quote c
  | None => false
  end.

Definition first_char (s : string) : option ascii :=
  match s with
  | EmptyString => None
  | String c _ => Some c
  end.

Definition isTerminal (x : GrammarSymbol) : outcome bool :=
  match _symbol x with
  | None => Throw TypeError
  | Some s => Done (quoteRe_test (first_char s) && quoteRe_test (last_char s))
  end.

Definition isNonTerminal (x : GrammarSymbol) : outcome bool :=
  let* t := isTerminal x in Done (negb t).

Definition isEpsilon (x : GrammarSymbol) : bool :=
  bool_decide (_symbol x = Some EPSILON).

Definition getSymbol (x : GrammarSymbol) : option string := _symbol x.

Definition isSymbol (x : GrammarSymbol) (symbol : option string) : bool :=
  bool_decide (getSymbol x = symbol).

(** ** 2. Production *)

Record Production : Type := mkProduction {
  _raw : string;
  _LHS : GrammarSymbol;
  _RHS : list GrammarSymbol;
}.

Definition getRaw (p : Production) : string := _raw p.
Definition getLHS (p : Production) : GrammarSymbol := _LHS p.
Definition getRHS (p : Production) : list GrammarSymbol := _RHS p.

Definition setLHS (p : Production) (LHS : option string) : Production :=
  {| _raw := _raw p; _LHS := mkSymbol LHS; _RHS := _RHS p |}.

(** The loop of [_normalize] over the tokens of the right-hand side: two
    adjacent lone double quotes stand for the quoted blank. *)
Fixpoint rhs_symbols (rhsProd : list string) : list GrammarSymbol :=
  match rhsProd with
  | [] => []
  | t :: rest =>
      match rest with
      | t' :: rest' =>
          if bool_decide (t = dquote_token) && bool_decide (t' = dquote_token)
          then mkSymbol (Some quoted_space) :: rhs_symbols rest'
          else mkSymbol (Some t) :: rhs_symbols rest
      | [] => [mkSymbol (Some t)]
      end
  end.

(** [new Production(raw)]: the constructor stores the text and calls
    [_normalize]. *)
Definition Production_new (raw : string) : outcome Production :=
  let splitter := if indexOf raw "->" is Some _ then "->" else "|" in
  let splitted := js_split raw splitter in
  match splitted !! 0%nat with
  | None => Throw TypeError
  | Some s0 =>
      let LHS := mkSymbol (Some (trim s0)) in
      match splitted !! 1%nat with
      | None => Throw TypeError
      | Some s1 =>
          let rhsStr := trim s1 in
          let RHS :=
            if truthy (Some rhsStr) then rhs_symbols (split_ws rhsStr)
            else [mkSymbol (Some EPSILON)] in
          Done {| _raw := raw; _LHS := LHS; _RHS := RHS |}
      end
  end.

(** ** 3. Grammar *)

(** The constructor accepts an array of raw productions or one text with
    a production per line. *)
Inductive GrammarInput : Type :=
| Lines (productions : list string)
| Text (grammar : string).

(** The table [_bnf] is a JavaScript object whose keys are the numbers
    [0], [1], [2], ... assigned in that order, each once: the list below
    keeps the entries in the order of assignment, which for such keys is
    also the order in which [for ... in] enumerates them. *)
Record Grammar : Type := mkGrammar {
  _originalBnf : GrammarInput;
  _isAugmentedProduction : option Production;
  _startSymbol : option string;
  _bnf : list (nat * Production);
}.

Definition newline : string := String (ascii_of_nat 10) EmptyString.

Definition _toArray (grammar : GrammarInput) : list string :=
  match grammar with
  | Lines l => l
  | Text s => filter (fun production => truthy (Some (trim production)) = true)
                (js_split s newline)
  end.

(** What the callback of [_normalizeBnf] reads and writes: its two local
    variables and the two fields of the grammar under construction. *)
Record NormState : Type := mkNorm {
  normalizedBnf : list (nat * Production);
  currentNonTerminal : option string;
  norm_startSymbol : option string;
  norm_augmented : option Production;
}.

Definition augmented_raw (startSymbol : option string) : string :=
  to_string startSymbol +:+ "' -> " +:+ to_string startSymbol.

(** One call of the callback, for the raw production at index [k]. *)
Definition normalize_step (st : NormState) (k : nat) (rawProduction : string)
  : outcome NormState :=
  let productionNumber := k + 1 in
  let* production := Production_new rawProduction in
  let production :=
    if negb (truthy (getSymbol (getLHS production)))
    then setLHS production (currentNonTerminal st)
    else production in
  let cnt := getSymbol (getLHS production) in
  let* st1 :=
    (if (k =? 0)%nat
     then
       let start := getSymbol (getLHS production) in
       let* augmented := Production_new (augmented_raw start) in
       Done {| normalizedBnf := normalizedBnf st ++ [(k, augmented)];
               currentNonTerminal := cnt;
               norm_startSymbol := start;
               norm_augmented := Some augmented |}
     else
       Done {| normalizedBnf := normalizedBnf st;
               currentNonTerminal := cnt;
               norm_startSymbol := norm_startSymbol st;
               norm_augmented := norm_augmented st |}) in
  Done {| normalizedBnf := normalizedBnf st1 ++ [(productionNumber, production)];
          currentNonTerminal := currentNonTerminal st1;
          norm_startSymbol := norm_startSymbol st1;
          norm_augmented := norm_augmented st1 |}.

(** [array.forEach(callback)] from index [k] on. *)
Fixpoint normalize_from (k : nat) (lines : list string) (st : NormState)
  : outcome NormState :=
  match lines with
  | [] => Done st
  | rawProduction :: rest =>
      let* st' := normalize_step st k rawProduction in
      normalize_from (S k) rest st'
  end.

Definition norm_init : NormState :=
  {| normalizedBnf := []; currentNonTerminal := None;
     norm_startSymbol := None; norm_augmented := None |}.

(** [new Grammar(grammar)], with [_normalizeBnf] inlined. *)
Definition Grammar_new (grammar : GrammarInput) : outcome Grammar :=
  let* st := normalize_from 0 (_toArray grammar) norm_init in
  Done {| _originalBnf := grammar;
          _isAugmentedProduction := norm_augmented st;
          _startSymbol := norm_startSymbol st;
          _bnf := normalizedBnf st |}.

(** The object returned by [getProductionsForSymbol], as the list of its
    entries in enumeration order.  The argument is the text of the symbol
    (a [GrammarSymbol] argument is unwrapped by the caller, see
    [getProductionsForGrammarSymbol]). *)
Definition getProductionsForSymbol (g : Grammar) (symbol : option string)
  : list (nat * Production) :=
  filter (fun kp => isSymbol (getLHS kp.2) symbol = true) (_bnf g).

Definition getProductionsForGrammarSymbol (g : Grammar) (x : GrammarSymbol)
  : list (nat * Production) :=
  getProductionsForSymbol g (getSymbol x).

Definition getProduction (g : Grammar) (number : nat) : option Production :=
  (fun r => r.2.2) <$> list_find (fun kp => kp.1 = number) (_bnf g).

Definition getAugmentedProduction (g : Grammar) : option Production :=
  _isAugmentedProduction g.

(** ** 4. LRItem, 5. Closure, and the heap they live in *)

(** References to items and to closures are indices into the heap. *)
Record LRItem : Type := mkLRItem {
  _production : Production;
  _dotPosition : nat;
  _grammar : Grammar;
  _closure : option nat;
  _gotoPointer : option nat;
}.

Record Closure : Type := mkClosure {
  _kernelItem : nat;
  _currentItem : nat;
  _items : list nat;
  _grammar_c : Grammar;
}.

Record Heap : Type := mkHeap {
  heap_items : list LRItem;
  heap_closures : list Closure;
  LRItemsRegistry : gmap string nat;
}.

Definition empty_heap : Heap :=
  {| heap_items := []; heap_closures := []; LRItemsRegistry := ∅ |}.

(** *** Methods of an item that only read it *)

Definition getCurrentSymbol (it : LRItem) : option GrammarSymbol :=
  getRHS (_production it) !! _dotPosition it.

Definition isFinal (it : LRItem) : bool :=
  (_dotPosition it =? length (getRHS (_production it)))%nat.

Definition shouldClosure (it : LRItem) : outcome bool :=
  if isFinal it then Done false
  else match getCurrentSymbol it with
       | None => Throw TypeError
       | Some x => isNonTerminal x
       end.

Definition isConnected (it : LRItem) : bool :=
  if _gotoPointer it is Some _ then true else false.

Definition getClosure (it : LRItem) : option nat := _closure it.

Definition DOT : string := "•".

(** [Array.prototype.join] prints [undefined] elements as empty texts. *)
Definition join_text (v : option string) : string :=
  match v with
  | Some s => s
  | None => EmptyString
  end.

(** [RHS.splice(dotPosition, 0, '•')] inserts at the position, or at the
    end when the position is past it. *)
Definition keyForItem (production : Production) (dotPosition : nat) : string :=
  let RHS := map getSymbol (getRHS production) in
  let RHS := take dotPosition RHS ++ Some DOT :: drop dotPosition RHS in
  to_string (getSymbol (getLHS production)) +:+ " -> "
    +:+ join " " (map join_text RHS).

Definition serialize (it : LRItem) : string :=
  keyForItem (_production it) (_dotPosition it).

(** *** Allocation and field updates *)

(** [new LRItem({production, dotPosition, grammar})]. *)
Definition LRItem_new (production : Production) (dotPosition : nat)
    (grammar : Grammar) (h : Heap) : nat * Heap :=
  (length (heap_items h),
   {| heap_items := heap_items h ++
        [{| _production := production; _dotPosition := dotPosition;
            _grammar := grammar; _closure := None; _gotoPointer := None |}];
      heap_closures := heap_closures h;
      LRItemsRegistry := LRItemsRegistry h |}).

Definition set_closure (i : nat) (c : option nat) (h : Heap) : Heap :=
  {| heap_items :=
       alter (fun it => {| _production := _production it;
                           _dotPosition := _dotPosition it;
                           _grammar := _grammar it;
                           _closure := c;
                           _gotoPointer := _gotoPointer it |}) i (heap_items h);
     heap_closures := heap_closures h;
     LRItemsRegistry := LRItemsRegistry h |}.

Definition set_gotoPointer (i : nat) (c : option nat) (h : Heap) : Heap :=
  {| heap_items :=
       alter (fun it => {| _production := _production it;
                           _dotPosition := _dotPosition it;
                           _grammar := _grammar it;
                           _closure := _closure it;
                           _gotoPointer := c |}) i (heap_items h);
     heap_closures := heap_closures h;
     LRItemsRegistry := LRItemsRegistry h |}.

(** [LRItemsRegistry[itemKey] = item]. *)
Definition registry_set (itemKey : string) (i : nat) (h : Heap) : Heap :=
  {| heap_items := heap_items h;
     heap_closures := heap_closures h;
     LRItemsRegistry := <[itemKey := i]> (LRItemsRegistry h) |}.

(** [this._items.push(addedItem); this._currentItem = addedItem] on the
    closure [c]. *)
Definition push_item (c : nat) (addedItem : nat) (h : Heap) : Heap :=
  {| heap_items := heap_items h;
     heap_closures :=
       alter (fun cl => {| _kernelItem := _kernelItem cl;
                           _currentItem := addedItem;
                           _items := _items cl ++ [addedItem];
                           _grammar_c := _grammar_c cl |}) c (heap_closures h);
     LRItemsRegistry := LRItemsRegistry h |}.

(** A reference always names a live object in the source; the embedding
    reports a reference outside the heap like a property access on
    [undefined]. *)
Definition get_item (i : nat) (h : Heap) : outcome LRItem :=
  match heap_items h !! i with
  | Some it => Done it
  | None => Throw TypeError
  end.

Definition get_closure (c : nat) (h : Heap) : outcome Closure :=
  match heap_closures h !! c with
  | Some cl => Done cl
  | None => Throw TypeError
  end.

(** *** advance *)

Definition final_message (it : LRItem) : string :=
  "Item for " +:+ getRaw (_production it) +:+ " is final.".

Definition advance (i : nat) (h : Heap) : outcome (nat * Heap) :=
  let* it := get_item i h in
  if isFinal it then Throw (Error (final_message it))
  else Done (LRItem_new (_production it) (_dotPosition it + 1) (_grammar it) h).

(** *** Closure._build *)

(** The body of the [if]/[else] in [_build]: the registered item for the
    production, created and registered on first use. *)
Definition added_item (production : Production) (grammar : Grammar) (h : Heap)
  : nat * Heap :=
  let itemKey := keyForItem production 0 in
  match LRItemsRegistry h !! itemKey with
  | None =>
      let '(i, h') := LRItem_new production 0 grammar h in
      (i, registry_set itemKey i h')
  | Some i => (i, h)
  end.

(** The [for ... in] loop of [_build]; [rec] is the recursive call. *)
Fixpoint build_loop (rec : nat -> Heap -> outcome Heap) (c : nat)
    (productionsForSymbol : list (nat * Production)) (h : Heap) : outcome Heap :=
  match productionsForSymbol with
  | [] => Done h
  | (k, production) :: rest =>
      let* cl := get_closure c h in
      let '(addedItem, h1) := added_item production (_grammar_c cl) h in
      let h2 := push_item c addedItem h1 in
      let* h3 := rec c h2 in
      build_loop rec c rest h3
  end.

Definition current_productions (g : Grammar) (it : LRItem)
  : list (nat * Production) :=
  match getCurrentSymbol it with
  | Some x => getProductionsForGrammarSymbol g x
  | None => getProductionsForSymbol g None
  end.

Fixpoint Closure_build (fuel : nat) (c : nat) (h : Heap) : outcome Heap :=
  match fuel with
  | O => OutOfFuel
  | S fuel' =>
      let* cl := get_closure c h in
      let* cur := get_item (_currentItem cl) h in
      let* sc := shouldClosure cur in
      if negb sc then Done h
      else build_loop (Closure_build fuel') c
             (current_productions (_grammar_c cl) cur) h
  end.

(** The heap once [new Closure({kernelItem, grammar})] has stored the
    fields of the new object, before it calls [_build]. *)
Definition closure_allocated (kernelItem : nat) (grammar : Grammar) (h : Heap)
  : Heap :=
  {| heap_items := heap_items h;
     heap_closures := heap_closures h ++
       [{| _kernelItem := kernelItem; _currentItem := kernelItem;
           _items := [kernelItem]; _grammar_c := grammar |}];
     LRItemsRegistry := LRItemsRegistry h |}.

(** [new Closure({kernelItem, grammar})]. *)
Definition Closure_new (fuel : nat) (kernelItem : nat) (grammar : Grammar)
    (h : Heap) : outcome (nat * Heap) :=
  let c := length (heap_closures h) in
  let* h2 := Closure_build fuel c (closure_allocated kernelItem grammar h) in
  Done (c, h2).

Definition getKernel (cl : Closure) : nat := _kernelItem cl.
Definition getItems (cl : Closure) : list nat := _items cl.

(** *** closure and goto *)

(** [item.closure()]; [None] is the [undefined] of the early return. *)
Definition LRItem_closure (fuel : nat) (i : nat) (h : Heap)
  : outcome (option nat * Heap) :=
  let* it := get_item i h in
  let* sc := shouldClosure it in
  if negb sc then Done (None, h)
  else
    let* (c, h1) := Closure_new fuel i (_grammar it) h in
    Done (Some c, set_closure i (Some c) h1).

(** [items.forEach(item => item.goto())]. *)
Fixpoint forEach_goto (go : nat -> Heap -> outcome (option nat * Heap))
    (items : list nat) (h : Heap) : outcome Heap :=
  match items with
  | [] => Done h
  | item :: rest =>
      let* (_, h1) := go item h in
      forEach_goto go rest h1
  end.

(** [closure.goto()], given the method [goto] of items. *)
Definition Closure_goto_with (go : nat -> Heap -> outcome (option nat * Heap))
    (c : nat) (h : Heap) : outcome Heap :=
  let* cl := get_closure c h in
  forEach_goto go (getItems cl) h.

(** [item.goto()]; the result is the value of [_gotoPointer], [None] for
    [null]. *)
Fixpoint LRItem_goto (fuel : nat) (i : nat) (h : Heap)
  : outcome (option nat * Heap) :=
  match fuel with
  | O => OutOfFuel
  | S fuel' =>
      let* it := get_item i h in
      if negb (isFinal it) && negb (isConnected it)
      then
        let* (adv, h1) := advance i h in
        let* (c, h2) := Closure_new fuel' adv (_grammar it) h1 in
        let h3 := set_gotoPointer i (Some c) h2 in
        let* h4 := Closure_goto_with (LRItem_goto fuel') c h3 in
        let* it' := get_item i h4 in
        Done (_gotoPointer it', h4)
      else Done (_gotoPointer it, h)
  end.

Definition Closure_goto (fuel : nat) (c : nat) (h : Heap) : outcome Heap :=
  Closure_goto_with (LRItem_goto fuel) c h.

(** *** The driver at the end of the source file

    [kernelItem = new LRItem({production: grammar.getAugmentedProduction(),
    grammar}); kernelItem.closure().goto()], from the registry as the
    module initialises it.  The result is the root item and the heap.
    Without an augmented production the item holds [null] for it, and
    the first method called on the item throws; [closure()] returning
    [undefined] makes the call of [goto] on it throw. *)
Definition root_item (g : Grammar) (h : Heap) : outcome (nat * Heap) :=
  match getAugmentedProduction g with
  | None => Throw TypeError
  | Some production => Done (LRItem_new production 0 g h)
  end.

Definition canonical_collection (fuel : nat) (g : Grammar)
  : outcome (nat * Heap) :=
  let* (kernelItem, h0) := root_item g empty_heap in
  let* (c, h1) := LRItem_closure fuel kernelItem h0 in
  match c with
  | None => Throw TypeError
  | Some c =>
      let* h2 := Closure_goto fuel c h1 in
      Done (kernelItem, h2)
  end.

(** * Specification-level notions *)

(** ** Small notions and examples used in the statements *)

Definition empty_grammar (input : GrammarInput) : Grammar :=
  {| _originalBnf := input; _isAugmentedProduction := None;
     _startSymbol := None; _bnf := [] |}.

(** Every registered reference names a live item. *)
Definition registry_live (h : Heap) : Prop :=
  ∀ (key : string) (r : nat),
    LRItemsRegistry h !! key = Some r → r < length (heap_items h).

Definition example_production : Production :=
  {| _raw := "S -> A A"; _LHS := mkSymbol (Some "S");
     _RHS := [mkSymbol (Some "A"); mkSymbol (Some "A")] |}.

Definition example_item (dot : nat) : LRItem :=
  {| _production := example_production; _dotPosition := dot;
     _grammar := empty_grammar (Lines []);
     _closure := None; _gotoPointer := None |}.

Definition example_heap (dot : nat) : Heap :=
  {| heap_items := [example_item dot]; heap_closures := [];
     LRItemsRegistry := ∅ |}.

Definition item_at (p : Production) (dot : nat) (g : Grammar) : LRItem :=
  {| _production := p; _dotPosition := dot; _grammar := g;
     _closure := None; _gotoPointer := None |}.

Definition heap_of (it : LRItem) : Heap :=
  {| heap_items := [it]; heap_closures := []; LRItemsRegistry := ∅ |}.

Definition epsilon_grammar : Grammar :=
  {| _originalBnf := Lines ["F -> ε"];
     _isAugmentedProduction :=
       Some {| _raw := "F' -> F"; _LHS := mkSymbol (Some "F'");
               _RHS := [mkSymbol (Some "F")] |};
     _startSymbol := Some "F";
     _bnf := [(0, {| _raw := "F' -> F"; _LHS := mkSymbol (Some "F'");
                     _RHS := [mkSymbol (Some "F")] |});
              (1, {| _raw := "F -> ε"; _LHS := mkSymbol (Some "F");
                     _RHS := [mkSymbol (Some EPSILON)] |})] |}.

Definition epsilon_item : LRItem :=
  item_at {| _raw := "F -> ε"; _LHS := mkSymbol (Some "F");
             _RHS := [mkSymbol (Some EPSILON)] |} 0 epsilon_grammar.

(** ** How the heap evolves during a session

    [session_step] lists the writes the source performs on the heap: the
    root item that the driver creates at dot 0, the item that [advance]
    creates, and the writes of [_build], [closure] and [goto]; a session
    is a sequence of such writes. *)

Inductive session_step : Heap → Heap → Prop :=
| step_root production grammar h :
    session_step h (LRItem_new production 0 grammar h).2
| step_advance i h adv h' :
    advance i h = Done (adv, h') → session_step h h'
| step_added_item production grammar h :
    session_step h (added_item production grammar h).2
| step_push_item c addedItem h :
    session_step h (push_item c addedItem h)
| step_closure_allocated kernelItem grammar h :
    session_step h (closure_allocated kernelItem grammar h)
| step_set_closure i c h :
    session_step h (set_closure i c h)
| step_connect i c h it :
    heap_items h !! i = Some it →
    isFinal it = false → isConnected it = false →
    session_step h (set_gotoPointer i (Some c) h).

Definition session : Heap → Heap → Prop := rtc session_step.

(** What a session keeps of an item: its production, dot position and
    grammar, and its goto target once it has one. *)
Definition item_evolves (it it' : LRItem) : Prop :=
  _production it' = _production it ∧
  _dotPosition it' = _dotPosition it ∧
  _grammar it' = _grammar it ∧
  (∀ c, _gotoPointer it = Some c → _gotoPointer it' = Some c).

Definition closure_evolves (cl cl' : Closure) : Prop :=
  _kernelItem cl' = _kernelItem cl ∧ _grammar_c cl' = _grammar_c cl.

Record heap_ext (h h' : Heap) : Prop := mk_heap_ext {
  ext_items : ∀ i it, heap_items h !! i = Some it →
    ∃ it', heap_items h' !! i = Some it' ∧ item_evolves it it';
  ext_closures : ∀ c cl, heap_closures h !! c = Some cl →
    ∃ cl', heap_closures h' !! c = Some cl' ∧ closure_evolves cl cl';
  ext_registry : LRItemsRegistry h ⊆ LRItemsRegistry h';
}.

(** Dots stay within the right-hand side. *)
Definition dots_in_range (h : Heap) : Prop :=
  ∀ i it, heap_items h !! i = Some it →
    _dotPosition it ≤ length (getRHS (_production it)).

(** Final items have no goto target. *)
Definition final_unconnected (h : Heap) : Prop :=
  ∀ i it, heap_items h !! i = Some it → isFinal it = true →
    _gotoPointer it = None.

(** The live items of [h] are unchanged in [h']. *)
Definition items_kept (h h' : Heap) : Prop :=
  ∀ i it, heap_items h !! i = Some it → heap_items h' !! i = Some it.

(** The call does not end in [throw new Error(...)], the exception of
    [advance] on a final item. *)
Definition no_Error {A} (o : outcome A) : Prop :=
  ∀ message, o ≠ Throw (Error message).

(** ** The production table *)

(** The entries [k ↦ p0], [k+1 ↦ p1], ... *)
Fixpoint numbered (k : nat) (ps : list Production) : list (nat * Production) :=
  match ps with
  | [] => []
  | p :: ps' => (k, p) :: numbered (S k) ps'
  end.

(** The entry of the augmented production. *)
Definition augmented_entry (g : Grammar) : list (nat * Production) :=
  match getAugmentedProduction g with
  | Some augmented => [(0, augmented)]
  | None => []
  end.

(** ** Symbol names *)

Fixpoint no_ws (s : string) : bool :=
  match s with
  | EmptyString => true
  | String c s' => negb (is_ws c) && no_ws s'
  end.

(** ** Grammars without left recursion *)

Definition arrow_free (s : string) : Prop := indexOf s "->" = None.

(** The text under which [keyForItem] prints the left-hand side. *)
Definition lhs_text (p : Production) : string :=
  to_string (getSymbol (getLHS p)).

(** No non-terminal derives, through the first symbols of right-hand
    sides, a form that starts with itself: the non-terminals are ranked
    so that the first symbol of every right-hand side, when it is a
    non-terminal, ranks below the left-hand side. *)
Definition ranked (g : Grammar) (rank : string → nat) : Prop :=
  ∀ k p y,
    (k, p) ∈ _bnf g →
    getRHS p !! 0 = Some (mkSymbol (Some y)) →
    isTerminal (mkSymbol (Some y)) = Done false →
    rank y < rank (lhs_text p).

Definition no_left_recursion (g : Grammar) : Prop := ∃ rank, ranked g rank.

(** The symbols of right-hand sides are texts. *)
Definition rhs_texts (g : Grammar) : Prop :=
  ∀ k p, (k, p) ∈ _bnf g →
    Forall (fun x => is_Some (getSymbol x)) (getRHS p).

Definition lhs_arrow_free (g : Grammar) : Prop :=
  ∀ k p, (k, p) ∈ _bnf g → arrow_free (lhs_text p).

(** ** Well-formed heaps of a session over one grammar *)

Record heap_wf (g : Grammar) (h : Heap) : Prop := mk_heap_wf {
  wf_items : ∀ i it, heap_items h !! i = Some it →
    _grammar it = g ∧ (∃ k, (k, _production it) ∈ _bnf g) ∧
    _dotPosition it ≤ length (getRHS (_production it));
  wf_registry : ∀ key r, LRItemsRegistry h !! key = Some r →
    ∃ it, heap_items h !! r = Some it ∧ _dotPosition it = 0 ∧
          keyForItem (_production it) 0 = key;
  wf_closures : ∀ c cl, heap_closures h !! c = Some cl →
    _grammar_c cl = g ∧ is_Some (heap_items h !! _currentItem cl);
}.

Definition registered (h : Heap) (r : nat) : Prop :=
  ∃ key, LRItemsRegistry h !! key = Some r.

(** The closure [c] keeps its kernel and gains registered items. *)
Definition closure_grows (c : nat) (h h' : Heap) : Prop :=
  ∃ cl cl' added,
    heap_closures h !! c = Some cl ∧ heap_closures h' !! c = Some cl' ∧
    _kernelItem cl' = _kernelItem cl ∧
    _items cl' = _items cl ++ added ∧
    Forall (registered h') added.

(** Recursion depth that [_build] needs from an item, given the ranks. *)
Definition sym_need (rank : string → nat) (it : LRItem) : nat :=
  match getCurrentSymbol it with
  | Some x =>
      match getSymbol x, isTerminal x with
      | Some y, Done false => rank y + 2
      | _, _ => 1
      end
  | None => 1
  end.

(** The registered item of the key has a goto target. *)
Definition key_connected (h : Heap) (key : string) : bool :=
  match LRItemsRegistry h !! key with
  | Some r =>
      match heap_items h !! r with
      | Some it => isConnected it
      | None => false
      end
  | None => false
  end.

(** The number of productions whose dot-0 item is not connected yet. *)
Definition unconnected (g : Grammar) (h : Heap) : nat :=
  length (filter (fun kp => key_connected h (keyForItem kp.2 0) = false)
            (_bnf g)).

Definition max_rhs (g : Grammar) : nat :=
  max_list (map (fun kp => length (getRHS kp.2)) (_bnf g)).

(** Recursion depth that [goto] needs from the item [i] of the heap [h],
    when [_build] needs at most [base]. *)
Definition goto_need (g : Grammar) (base : nat) (h : Heap) (i : nat)
    (it : LRItem) : nat :=
  base + unconnected g h * (max_rhs g + 2) +
  (if bool_decide (LRItemsRegistry h !! keyForItem (_production it) 0 = Some i)
   then 0
   else length (getRHS (_production it)) - _dotPosition it + 1).

(** Invariant of [_normalizeBnf]. *)
Definition production_ok (p : Production) : Prop :=
  arrow_free (lhs_text p) ∧ Forall (fun x => is_Some (getSymbol x)) (getRHS p).

Definition norm_ok (st : NormState) : Prop :=
  Forall (fun kp => production_ok kp.2) (normalizedBnf st) ∧
  arrow_free (to_string (currentNonTerminal st)).

(** What a terminating [_build] on the closure [c] establishes. *)
Definition build_post (g : Grammar) (c : nat) (h h' : Heap) : Prop :=
  heap_wf g h' ∧ session h h' ∧ closure_grows c h h'.

(** The item [j] can be given to [goto] with recursion depth [f] in any
    heap with at most [U] unconnected productions. *)
Definition item_ok (g : Grammar) (base U f : nat) (h : Heap) (j : nat) : Prop :=
  ∃ it, heap_items h !! j = Some it ∧
    ((LRItemsRegistry h !! keyForItem (_production it) 0 = Some j ∧
      base + U * (max_rhs g + 2) ≤ f) ∨
     base + U * (max_rhs g + 2) +
       (length (getRHS (_production it)) - _dotPosition it) + 1 ≤ f).

(** The start symbol is a non-terminal. *)
Definition root_closurable (g : Grammar) : Prop :=
  ∃ augmented x,
    getAugmentedProduction g = Some augmented ∧
    getRHS augmented !! 0 = Some x ∧ isTerminal x = Done false.

(** A rank that vanishes on the texts that are no left-hand side. *)
Definition bounded_rank (g : Grammar) (rank : string → nat) (y : string) : nat :=
  if decide (Exists (fun kp => lhs_text kp.2 = y) (_bnf g)) then rank y else 0.

Definition rank_bound (g : Grammar) (rank : string → nat) : nat :=
  max_list (map (fun kp => rank (lhs_text kp.2)) (_bnf g)).

(** A recursion depth that suffices for the whole construction. *)
Definition enough_fuel (g : Grammar) (rank : string → nat) : nat :=
  (rank_bound g rank + 2) + length (_bnf g) * (max_rhs g + 2) + max_rhs g + 1.

(** ** Example grammars *)

(** The grammar of the source file, with single quotes. *)
Definition example_input : GrammarInput :=
  Lines ["S -> A A"; "A -> 'a' A"; "| 'b'"].

Definition example_rank (y : string) : nat :=
  if String.eqb y "S'" then 2 else if String.eqb y "S" then 1 else 0.

(** A grammar with a left-recursive production. *)
Definition left_recursive_input : GrammarInput :=
  Lines ["E -> E '+' 'n'"; "| 'n'"].

Definition E_plus_n : Production :=
  {| _raw := "E -> E '+' 'n'"; _LHS := mkSymbol (Some "E");
     _RHS := [mkSymbol (Some "E"); mkSymbol (Some "'+'");
              mkSymbol (Some "'n'")] |}.

Definition E_n : Production :=
  {| _raw := "| 'n'"; _LHS := mkSymbol (Some "E");
     _RHS := [mkSymbol (Some "'n'")] |}.

Definition E_augmented : Production :=
  {| _raw := "E' -> E"; _LHS := mkSymbol (Some "E'");
     _RHS := [mkSymbol (Some "E")] |}.

Definition left_recursive_grammar : Grammar :=
  {| _originalBnf := left_recursive_input;
     _isAugmentedProduction := Some E_augmented;
     _startSymbol := Some "E";
     _bnf := [(0, E_augmented); (1, E_plus_n); (2, E_n)] |}.

Definition E_at_dot (it : LRItem) : Prop :=
  getCurrentSymbol it = Some (mkSymbol (Some "E")).

(** The state in which [_build] recurses for ever: the current item of
    the closure has [E] at the dot, and so has the registered item of
    [E -> E '+' 'n'] if there is one. *)
Definition diverging (c : nat) (h : Heap) : Prop :=
  ∃ cl cur,
    heap_closures h !! c = Some cl ∧
    _grammar_c cl = left_recursive_grammar ∧
    heap_items h !! _currentItem cl = Some cur ∧ E_at_dot cur ∧
    ∀ r, LRItemsRegistry h !! keyForItem E_plus_n 0 = Some r →
         ∃ it, heap_items h !! r = Some it ∧ E_at_dot it.

(** ** The test at the end of the source file *)

Definition quoted (s : string) : string := dquote_token +:+ s +:+ dquote_token.

(** The grammar text of the source, with its double-quoted terminals. *)
Definition source_text : string :=
  newline +:+ "  S -> A A" +:+ newline +:+
  "  A -> " +:+ quoted "a" +:+ " A" +:+ newline +:+
  "     | " +:+ quoted "b" +:+ newline.

(** [closure.goto()]'s callers in the test read the closure that
    [item.goto()] returns; [null] has no kernel. *)
Definition goto_kernel (fuel item : nat) (h : Heap) : outcome (nat * Heap) :=
  let* (r, h1) := LRItem_goto fuel item h in
  match r with
  | None => Throw TypeError
  | Some c => let* cl := get_closure c h1 in Done (getKernel cl, h1)
  end.

(** [kernelItem.getClosure().getKernel().goto().getKernel().serialize()] *)
Definition first_trace (fuel kernelItem : nat) (h : Heap) : outcome string :=
  let* it := get_item kernelItem h in
  match getClosure it with
  | None => Throw TypeError
  | Some c =>
      let* cl := get_closure c h in
      let* (k1, h1) := goto_kernel fuel (getKernel cl) h in
      let* it1 := get_item k1 h1 in
      Done (serialize it1)
  end.

(** [kernelItem.getClosure().getItems()[1].goto().getKernel().goto()
    .getKernel().serialize()] *)
Definition second_trace (fuel kernelItem : nat) (h : Heap) : outcome string :=
  let* it := get_item kernelItem h in
  match getClosure it with
  | None => Throw TypeError
  | Some c =>
      let* cl := get_closure c h in
      match getItems cl !! 1 with
      | None => Throw TypeError
      | Some second =>
          let* (k1, h1) := goto_kernel fuel second h in
          let* (k2, h2) := goto_kernel fuel k1 h1 in
          let* it2 := get_item k2 h2 in
          Done (serialize it2)
      end
  end.

(** The test of the source file: build the grammar, the collection, and
    read the two traces. *)
Definition source_test (fuel : nat) : outcome (string * string) :=
  let* g := Grammar_new (Text source_text) in
  let* (kernelItem, h) := canonical_collection fuel g in
  let* s1 := first_trace fuel kernelItem h in
  let* s2 := second_trace fuel kernelItem h in
  Done (s1, s2).

(** ** Further notions about the heap *)

(** The registry maps the serialization of an item at dot 0 to that
    item. *)
Definition registry_sound (h : Heap) : Prop :=
  ∀ key r, LRItemsRegistry h !! key = Some r →
    ∃ it, heap_items h !! r = Some it ∧ _dotPosition it = 0 ∧
          serialize it = key.

(** The item [j] of the closure [cl] is expanded: when it is to be
    closed, the registered dot-0 item of every production for the symbol
    at its dot is an item of the closure. *)
Definition expanded (h : Heap) (cl : Closure) (j : nat) : Prop :=
  ∃ it, heap_items h !! j = Some it ∧
    (shouldClosure it = Done true →
     ∀ n p, (n, p) ∈ current_productions (_grammar_c cl) it →
       ∃ r, LRItemsRegistry h !! keyForItem p 0 = Some r ∧ r ∈ getItems cl).

(** What [_build] on the closure [c] has done when it returns. *)
Definition build_expands (c : nat) (cl : Closure) (h h' : Heap) : Prop :=
  items_kept h h' ∧ LRItemsRegistry h ⊆ LRItemsRegistry h' ∧
  length (heap_closures h') = length (heap_closures h) ∧
  (∀ c', c' ≠ c → heap_closures h' !! c' = heap_closures h !! c') ∧
  ∃ cl' added,
    heap_closures h' !! c = Some cl' ∧
    _kernelItem cl' = _kernelItem cl ∧ _grammar_c cl' = _grammar_c cl ∧
    getItems cl' = getItems cl ++ added ∧
    Forall (registered h') added ∧
    Forall (expanded h' cl') added.

(** The item is a reduce item or has its goto edge. *)
Definition done_item (h : Heap) (j : nat) : Prop :=
  ∃ it, heap_items h !! j = Some it ∧
        (isFinal it = true ∨ isConnected it = true).

Definition closure_done (h : Heap) (c : nat) : Prop :=
  ∀ cl, heap_closures h !! c = Some cl → Forall (done_item h) (getItems cl).

Definition closures_kept (h h' : Heap) : Prop :=
  ∀ c cl, heap_closures h !! c = Some cl → heap_closures h' !! c = Some cl.

(** The [_closure] field of the items that exist is left as it is. *)
Definition closure_field_kept (h h' : Heap) : Prop :=
  ∀ i it, heap_items h !! i = Some it →
    ∃ it', heap_items h' !! i = Some it' ∧ _closure it' = _closure it.

(** The root item of [epsilon_grammar], alone in the heap. *)
Definition epsilon_root : LRItem :=
  item_at {| _raw := "F' -> F"; _LHS := mkSymbol (Some "F'");
             _RHS := [mkSymbol (Some "F")] |} 0 epsilon_grammar.

(** ** Left-hand sides of continuation lines *)

(** The production as [_normalizeBnf] stores it when the variable
    [currentNonTerminal] holds [cur]. *)
Definition inherit (cur : option string) (p : Production) : Production :=
  if negb (truthy (getSymbol (getLHS p))) then setLHS p cur else p.

(** [ps] are the stored productions of [lines], in order, when
    [currentNonTerminal] holds [cur] before the first of them. *)
Definition lhs_chain (cur : option string) (lines : list string)
    (ps : list Production) : Prop :=
  ∀ i p', ps !! i = Some p' →
    ∃ raw p, lines !! i = Some raw ∧ Production_new raw = Done p ∧
      p' = inherit (match i with
                    | 0 => cur
                    | S j => ps !! j ≫= (fun q => getSymbol (getLHS q))
                    end) p.

(** A symbol text as the tokens of a right-hand side are: not empty, and
    free of white space unless it is the quoted blank. *)
Definition symbol_text (x : GrammarSymbol) : Prop :=
  ∃ s, getSymbol x = Some s ∧ s ≠ EmptyString ∧
       (no_ws s = true ∨ s = quoted_space).

(** ** Goto targets *)

(** Every goto pointer of [h'] is one of [h], on the same item. *)
Definition pointers_same (h h' : Heap) : Prop :=
  ∀ i it', heap_items h' !! i = Some it' → is_Some (_gotoPointer it') →
    ∃ it, heap_items h !! i = Some it ∧ _gotoPointer it = _gotoPointer it'.

(** Goto pointers name closures of the heap, and no two items point to
    the same closure. *)
Definition goto_private (h : Heap) : Prop :=
  ∀ i it c, heap_items h !! i = Some it → _gotoPointer it = Some c →
    c < length (heap_closures h) ∧
    ∀ j jt, heap_items h !! j = Some jt → _gotoPointer jt = Some c → j = i.

(** The item [j] of the closure is there for a reason: it is the
    registered dot-0 item of a production for the symbol at the dot of
    an item of the closure that is to be closed. *)
Definition justified (h : Heap) (cl : Closure) (j : nat) : Prop :=
  ∃ i it n p,
    i ∈ getItems cl ∧ heap_items h !! i = Some it ∧
    shouldClosure it = Done true ∧
    (n, p) ∈ current_productions (_grammar_c cl) it ∧
    LRItemsRegistry h !! keyForItem p 0 = Some j.

(** * The other programs of the source file

    The source file opens with two smaller programs, embedded here under
    the same conventions: the traversals of a binary tree and the printer
    of arithmetic syntax trees. *)

(** ** Tree traversal *)

Module Traversal.

(** A tree as the source writes it: a node object with the fields
    [value], [left] and [right], or the empty text [''] where there is
    no node.  The tests [if (node)] and [while (node)] tell the two
    apart.  Values are integers. *)
Inductive tree : Type :=
| Empty
| Node (v : Z) (l r : tree).

(** A node object, as the stacks hold it: both loops push under the
    guard [while (node)], so a stack never holds an empty tree. *)
Definition node : Type := Z * tree * tree.

Definition value (n : node) : Z := n.1.1.
Definition left (n : node) : tree := n.1.2.
Definition right (n : node) : tree := n.2.

(** The values that the generator [inOrder] yields, in order. *)
Fixpoint inOrder (t : tree) : list Z :=
  match t with
  | Empty => []
  | Node v l r => inOrder l ++ v :: inOrder r
  end.

(** An element of the array [result]: a node value, or the array
    itself. *)
Inductive elem : Type :=
| Val (v : Z)
| Self.

(** [inorder_traverse(node, condition, result)].  The recursive calls
    pass the node alone, so inside them [condition] and [result] are
    [undefined] ([None]).  The first component is the array of the
    caller after the call, the second tells whether the call threw. *)
Fixpoint inorder_traverse (t : tree) (condition : option (Z → bool))
    (result : option (list elem)) : option (list elem) * option JsError :=
  match t with
  | Empty => (result, None)
  | Node v l r =>
      match inorder_traverse l None None with
      | (_, Some e) => (result, Some e)
      | (_, None) =>
          match condition with
          | None => (result, Some TypeError)
          | Some cond =>
              let pushed :=
                if cond v
                then match result with
                     | Some a => (Some (a ++ [Self]), None)
                     | None => (None, Some TypeError)
                     end
                else (result, None) in
              match pushed with
              | (result1, Some e) => (result1, Some e)
              | (result1, None) =>
                  match inorder_traverse r None None with
                  | (_, Some e) => (result1, Some e)
                  | (_, None) => (result1, None)
                  end
              end
          end
      end
  end.

(** [while (currNode) { controlStack.push(currNode); currNode =
    currNode.left }].  A stack is a list with its top at the head. *)
Fixpoint push_left (currNode : tree) (controlStack : list node) : list node :=
  match currNode with
  | Empty => controlStack
  | Node v l r => push_left l ((v, l, r) :: controlStack)
  end.

(** [makeTreeIterator(node)]: the state of the returned object is the
    captured [controlStack]. *)
Definition makeTreeIterator (t : tree) : list node := push_left t [].

(** [next()]: the value of the result ([None] for [{done: true}]) and
    the stack after the call. *)
Definition next (controlStack : list node) : option Z * list node :=
  match controlStack with
  | top :: rest =>
      (Some (value top),
       match right top with
       | Empty => rest
       | Node _ _ _ as currNode => push_left currNode rest
       end)
  | [] => (None, [])
  end.

(** The results of [n] calls of [next()] in a row. *)
Fixpoint next_n (n : nat) (controlStack : list node)
  : list (option Z) * list node :=
  match n with
  | O => ([], controlStack)
  | S n' =>
      let '(x, controlStack1) := next controlStack in
      let '(xs, controlStack2) := next_n n' controlStack1 in
      (x :: xs, controlStack2)
  end.

(** The inner [while (true)] of [inorder_tarverse_nonrecursive]: it
    recurs on the stack, which every round pops.  [condition] receives
    the popped node, [undefined] included; on [undefined] the next
    property access throws.  The result is the variable [node], the
    stack and the array at the [break]. *)
Fixpoint pop_loop (condition : option node → bool) (stack : list node)
    (t : tree) (result : list Z) : outcome (tree * list node * list Z) :=
  match stack with
  | [] => Throw TypeError
  | top :: stack' =>
      let result' :=
        if condition (Some top) then result ++ [value top] else result in
      match right top with
      | Node _ _ _ as r => Done (r, stack', result')
      | Empty =>
          match stack' with
          | [] => Done (t, stack', result')
          | _ :: _ => pop_loop condition stack' t result'
          end
      end
  end.

(** The outer [while (true)], one round per unit of fuel. *)
Fixpoint traverse_loop (fuel : nat) (condition : option node → bool)
    (t : tree) (stack : list node) (result : list Z) : outcome (list Z) :=
  match fuel with
  | O => OutOfFuel
  | S fuel' =>
      let stack1 := push_left t stack in
      let* (t', stack2, result') := pop_loop condition stack1 Empty result in
      match stack2 with
      | [] => Done result'
      | _ :: _ => traverse_loop fuel' condition t' stack2 result'
      end
  end.

(** [inorder_tarverse_nonrecursive(node, condition, result)]: the array
    [result] when the call returns. *)
Definition inorder_tarverse_nonrecursive (fuel : nat) (t : tree)
    (condition : option node → bool) (result : list Z) : outcome (list Z) :=
  traverse_loop fuel condition t [] result.

(** The nodes of a tree in order. *)
Fixpoint nodes (t : tree) : list node :=
  match t with
  | Empty => []
  | Node v l r => nodes l ++ (v, l, r) :: nodes r
  end.

Fixpoint size (t : tree) : nat :=
  match t with
  | Empty => 0
  | Node _ l r => S (size l + size r)
  end.

(** What a stack still has to yield: each node followed by its right
    subtree. *)
Fixpoint pending (stack : list node) : list node :=
  match stack with
  | [] => []
  | n :: stack' => n :: nodes (right n) ++ pending stack'
  end.

Fixpoint pending_size (stack : list node) : nat :=
  match stack with
  | [] => 0
  | n :: stack' => S (size (right n) + pending_size stack')
  end.

(** The values that a traversal with [condition] pushes for the nodes
    [ns]. *)
Definition pushed_values (condition : option node → bool) (ns : list node)
  : list Z :=
  map value (filter (fun n => condition (Some n) = true) ns).

(** The tree of the source. *)
Definition source_tree : tree :=
  Node 5 (Node 4 Empty Empty) (Node 8 (Node 6 Empty Empty) Empty).

End Traversal.

(** ** AST printer *)

Module Printer.

(** The type tags that [printer] handles. *)
Inductive binop : Type := Plus | Minus | Times | Divide.

Definition op_text (op : binop) : string :=
  match op with
  | Plus => "+"
  | Minus => "-"
  | Times => "*"
  | Divide => "/"
  end.

(** A syntax tree in the format of the source: a value that is not an
    array (here an integer) or the array [[op, lhs, rhs]] of a binary
    operation. *)
Inductive ast : Type :=
| Value (v : Z)
| Binary (op : binop) (lhs rhs : ast).

(** An element of the array [output]. *)
Inductive piece : Type :=
| Num (v : Z)
| Str (s : string).

(** The two globals: the buffer and the operator seen last. *)
Record state : Type := mkState {
  output : list piece;
  prevBinaryOp : option binop;
}.

Definition initial : state := {| output := []; prevBinaryOp := None |}.

Definition precedence (op : binop) : nat :=
  match op with
  | Plus | Minus => 0
  | Times | Divide => 1
  end.

Definition push (x : piece) (st : state) : state :=
  {| output := output st ++ [x]; prevBinaryOp := prevBinaryOp st |}.

(** [binary(op, lhs, rhs)], given [_compile]. *)
Definition binary (_compile : ast → state → state) (op : binop)
    (lhs rhs : ast) (st : state) : state :=
  let shouldPrintParens :=
    match prevBinaryOp st with
    | Some prev => (precedence op <? precedence prev)%nat
    | None => false
    end in
  let st := {| output := output st; prevBinaryOp := Some op |} in
  let st := if shouldPrintParens then push (Str "(") st else st in
  let st := _compile lhs st in
  let st := push (Str (" " +:+ op_text op +:+ " ")) st in
  let st := _compile rhs st in
  if shouldPrintParens then push (Str ")") st else st.

Fixpoint _compile (node : ast) (st : state) : state :=
  match node with
  | Value v => push (Num v) st
  | Binary op lhs rhs => binary _compile op lhs rhs st
  end.

(** [compile(ast)]: the state once the buffer has been filled; the call
    then prints the pieces of the buffer joined. *)
Definition compile (a : ast) (st : state) : state :=
  _compile a {| output := []; prevBinaryOp := prevBinaryOp st |}.

(** The pieces of a tree in order, without any parenthesis. *)
Fixpoint flat (a : ast) : list piece :=
  match a with
  | Value v => [Num v]
  | Binary op lhs rhs =>
      flat lhs ++ Str (" " +:+ op_text op +:+ " ") :: flat rhs
  end.

Definition is_open (x : piece) : bool :=
  match x with
  | Str s => String.eqb s "("
  | Num _ => false
  end.

Definition is_close (x : piece) : bool :=
  match x with
  | Str s => String.eqb s ")"
  | Num _ => false
  end.

Definition is_paren (x : piece) : bool := is_open x || is_close x.

(** The pieces with the parentheses left out. *)
Definition erase_parens (l : list piece) : list piece :=
  filter (fun x => is_paren x = false) l.

(** Reading from depth [d], no parenthesis closes one that was not
    opened, and the depth at the end is [Some] of it. *)
Fixpoint depth_after (d : nat) (l : list piece) : option nat :=
  match l with
  | [] => Some d
  | x :: l' =>
      if is_open x then depth_after (S d) l'
      else if is_close x
           then match d with
                | O => None
                | S d' => depth_after d' l'
                end
           else depth_after d l'
  end.

(** The operators of a tree in the order in which [binary] is called
    for them. *)
Fixpoint ops (a : ast) : list binop :=
  match a with
  | Value _ => []
  | Binary op lhs rhs => op :: ops lhs ++ ops rhs
  end.

(** The number of places in the sequence [prev, op1, op2, ...] where an
    operator follows one of higher precedence. *)
Fixpoint descents (prev : option binop) (l : list binop) : nat :=
  match l with
  | [] => 0
  | op :: l' =>
      (match prev with
       | Some p => if (precedence op <? precedence p)%nat then 1 else 0
       | None => 0
       end) + descents (Some op) l'
  end.

Definition last_op (prev : option binop) (l : list binop) : option binop :=
  match last l with
  | Some op => Some op
  | None => prev
  end.

Definition count_open (l : list piece) : nat :=
  length (filter (fun x => is_open x = true) l).

End Printer.

From stdpp Require Import pretty.

(** * The recursive-descent parsers

    The two versions of the class [compilerEngile] for the grammar
    [S -> sAd], [A -> ab | c].  An engine is its two fields; a method
    returns its result with the engine after the call. *)

Record compilerEngile : Type := mkEngine {
  input : string;
  cursor : nat;
}.

(** [new compilerEngile(input)]. *)
Definition compilerEngile_new (text : string) : compilerEngile :=
  {| input := text; cursor := 0 |}.

(** [this.input.slice(this.cursor)]. *)
Definition slice (s : string) (start : nat) : string :=
  String.substring start (String.length s - start) s.

(** [run()] returns [true] or [false]; with [false] comes the error that
    the [catch] received, whose message is printed. *)
Definition run_result : Type := bool * option JsError.

(** ** The parser that backtracks *)

Module Backtracking.

(** [eat] returns whether the character matched. *)
Definition eat (inputChar : ascii) (e : compilerEngile)
  : bool * compilerEngile :=
  match String.get (cursor e) (input e) with
  | Some c =>
      if Ascii.eqb inputChar c
      then (true, {| input := input e; cursor := cursor e + 1 |})
      else (false, e)
  | None => (false, e)
  end.

Definition compilerA1 (e : compilerEngile) : bool * compilerEngile :=
  let '(r, e1) := eat "a" e in
  if r then eat "b" e1 else (false, e1).

Definition compilerA2 (e : compilerEngile) : bool * compilerEngile :=
  eat "c" e.

(** [saveCursor] captures the cursor, [backtrack] stores it back. *)
Definition compilerA (e : compilerEngile) : bool * compilerEngile :=
  let save := cursor e in
  let '(r, e1) := compilerA1 e in
  if r then (true, e1)
  else compilerA2 {| input := input e1; cursor := save |}.

(** [compilerS] drops the results of the three calls. *)
Definition compilerS (e : compilerEngile) : compilerEngile :=
  let '(_, e1) := eat "s" e in
  let '(_, e2) := compilerA e1 in
  let '(_, e3) := eat "d" e2 in
  e3.

Definition extra_message (e : compilerEngile) : string :=
  "unexpected Extra unmatched characters with " +:+ slice (input e) (cursor e)
  +:+ "at position " +:+ pretty (cursor e)
  +:+ " in input string: " +:+ input e.

Definition run (e : compilerEngile) : run_result :=
  let e1 := compilerS e in
  if (String.length (input e1) =? cursor e1)%nat then (true, None)
  else (false, Some (Error (extra_message e1))).

(** The inputs for which [run()] returns [true]. *)
Definition accepted : list string :=
  ["sabd"; "sab"; "abd"; "ab"; "scd"; "sc"; "cd"; "c"; "sd"; "s"; "d"; ""].

End Backtracking.

(** ** The parser that looks at the next character *)

Module Predictive.

Definition eat_message (inputChar : ascii) (e : compilerEngile) : string :=
  "unexpected match " +:+ String inputChar EmptyString +:+ " with "
  +:+ input e +:+ " at position " +:+ pretty (cursor e).

(** [eat] throws when the character does not match. *)
Definition eat (inputChar : ascii) (e : compilerEngile)
  : outcome compilerEngile :=
  match String.get (cursor e) (input e) with
  | Some c =>
      if Ascii.eqb inputChar c
      then Done {| input := input e; cursor := cursor e + 1 |}
      else Throw (Error (eat_message inputChar e))
  | None => Throw (Error (eat_message inputChar e))
  end.

Definition compilerA (e : compilerEngile) : outcome compilerEngile :=
  match String.get (cursor e) (input e) with
  | Some c =>
      if Ascii.eqb c "a" then
        let* e1 := eat "a" e in
        eat "b" e1
      else if Ascii.eqb c "c" then eat "c" e
      else Done e
  | None => Done e
  end.

Definition compilerS (e : compilerEngile) : outcome compilerEngile :=
  let* e1 := eat "s" e in
  let* e2 := compilerA e1 in
  eat "d" e2.

Definition extra_message (e : compilerEngile) : string :=
  "unexpected Extra unmatched characters with " +:+ slice (input e) (cursor e)
  +:+ "at position " +:+ pretty (cursor e)
  +:+ " in inputstring: " +:+ input e.

Definition run (e : compilerEngile) : outcome run_result :=
  match compilerS e with
  | Done e1 =>
      if (String.length (input e1) =? cursor e1)%nat then Done (true, None)
      else Done (false, Some (Error (extra_message e1)))
  | Throw err => Done (false, Some err)
  | OutOfFuel => OutOfFuel
  end.

(** The inputs for which [run()] returns [true]. *)
Definition accepted : list string := ["sabd"; "scd"; "sd"].

End Predictive.

(** ** The engine at a position of its input *)

(** The engine reads [text] and its cursor stands before the suffix
    [suf]. *)
Definition engine_at (e : compilerEngile) (text suf : string) : Prop :=
  input e = text ∧
  ∃ pre, text = pre +:+ suf ∧ cursor e = String.length pre.

(** The text after a leading [c], if there is one. *)
Definition strip (c : ascii) (s : string) : string :=
  match s with
  | String c' s' => if Ascii.eqb c c' then s' else s
  | EmptyString => s
  end.

Definition starts (c : ascii) (s : string) : bool :=
  match s with
  | String c' _ => Ascii.eqb c c'
  | EmptyString => false
  end.

(** The text that the backtracking [compilerA] leaves after the cursor. *)
Definition strip_A (s : string) : string :=
  if starts "a" s && starts "b" (strip "a" s) then strip "b" (strip "a" s)
  else strip "c" s.

(** * Properties *)

(** ** Outcomes *)

Lemma obind_Done {A B} (m : outcome A) (k : A → outcome B) (b : B) :
  obind m k = Done b → ∃ a, m = Done a ∧ k a = Done b.
Proof. destruct m; [eauto | done | done]. Qed.

Lemma get_item_Done (i : nat) (h : Heap) (it : LRItem) :
  get_item i h = Done it ↔ heap_items h !! i = Some it.
Proof.
  unfold get_item. destruct (heap_items h !! i); split; congruence.
Qed.

Lemma get_closure_Done (c : nat) (h : Heap) (cl : Closure) :
  get_closure c h = Done cl ↔ heap_closures h !! c = Some cl.
Proof.
  unfold get_closure. destruct (heap_closures h !! c); split; congruence.
Qed.

(** Splits a hypothesis [let* x := m in k = Done b]. *)
Ltac obind_inv H :=
  let a := fresh "a" in
  let Ha := fresh "Ha" in
  apply obind_Done in H as (a & Ha & H).

Tactic Notation "obind_split" hyp(H) "as" simple_intropattern(a) ident(Ha) :=
  apply obind_Done in H as (a & Ha & H).

(** ** Strings *)

Lemma str_app_cons (c : ascii) (s t : string) : String c s +:+ t = String c (s +:+ t).
Proof. reflexivity. Qed.

Lemma str_app_nil_l (s : string) : "" +:+ s = s.
Proof. reflexivity. Qed.

Lemma str_app_nil_r (s : string) : s +:+ "" = s.
Proof. induction s as [|c s IH]; [done | by rewrite str_app_cons, IH]. Qed.

Lemma str_app_assoc (a b c : string) : (a +:+ b) +:+ c = a +:+ b +:+ c.
Proof. induction a as [|x a IH]; [done | by rewrite !str_app_cons, IH]. Qed.

Lemma str_app_snoc (cur : string) (c : ascii) (s : string) :
  (cur +:+ String c "") +:+ s = cur +:+ String c s.
Proof. by rewrite str_app_assoc. Qed.

Lemma has_prefix_app (p s : string) : has_prefix p (p +:+ s) = true.
Proof.
  induction p as [|c p IH]; [done |].
  rewrite str_app_cons. simpl. by rewrite Ascii.eqb_refl.
Qed.

Lemma indexOf_None_tail (c : ascii) (s sub : string) :
  indexOf (String c s) sub = None →
  has_prefix sub (String c s) = false ∧ indexOf s sub = None.
Proof.
  intros H. cbn [indexOf] in H.
  destruct (has_prefix sub (String c s)); [done |].
  by destruct (indexOf s sub).
Qed.

Lemma indexOf_prefix (s sub : string) :
  has_prefix sub s = true → indexOf s sub = Some 0.
Proof. intros H. destruct s; simpl in *; by rewrite H. Qed.

Lemma indexOf_app_sep (l sep r : string) :
  is_Some (indexOf (l +:+ sep +:+ r) sep).
Proof.
  induction l as [|c l IH].
  - rewrite str_app_nil_l, indexOf_prefix; [eauto | apply has_prefix_app].
  - rewrite str_app_cons.
    simpl. destruct (has_prefix sep (String c (l +:+ sep +:+ r))); [eauto |].
    destruct IH as [n ->]. simpl. eauto.
Qed.

(** Splitting a text that does not contain the separator returns it
    whole. *)
Lemma split_go_absent (sep cur s : string) :
  indexOf s sep = None → split_go sep 0 cur s = [cur +:+ s].
Proof.
  revert cur. induction s as [|c s IH]; intros cur H; simpl.
  - by rewrite str_app_nil_r.
  - apply indexOf_None_tail in H as [Hp Hs]. rewrite Hp.
    rewrite IH by done. by rewrite str_app_snoc.
Qed.

Lemma js_split_absent (s sep : string) :
  indexOf s sep = None → js_split s sep = [s].
Proof. intros H. unfold js_split. by rewrite split_go_absent. Qed.

Lemma split_arrow_first (l r cur : string) :
  indexOf l "->" = None →
  split_go "->" 0 cur (l +:+ "->" +:+ r) = (cur +:+ l) :: split_go "->" 0 "" r.
Proof.
  revert cur. induction l as [|c l IH]; intros cur H.
  - rewrite str_app_nil_l, str_app_nil_r. reflexivity.
  - apply indexOf_None_tail in H as [Hp Hl].
    rewrite str_app_cons. cbn [split_go].
    assert (has_prefix "->" (String c (l +:+ "->" +:+ r)) = false) as ->.
    { cbn [has_prefix] in *. destruct (Ascii.eqb "-" c); [| done].
      destruct l as [|c2 l]; [by rewrite str_app_nil_l |].
      rewrite str_app_cons. cbn [has_prefix] in *.
      by destruct (Ascii.eqb ">" c2). }
    rewrite IH by done. by rewrite str_app_snoc.
Qed.

(** ** Productions and grammars *)

Lemma Production_new_no_splitter (raw : string) :
  indexOf raw "->" = None → indexOf raw "|" = None →
  Production_new raw = Throw TypeError.
Proof.
  intros H1 H2. unfold Production_new. rewrite H1.
  by rewrite js_split_absent.
Qed.

(** Constructing a production returns or throws a [TypeError]. *)
Lemma Production_new_cases (raw : string) :
  (∃ p, Production_new raw = Done p) ∨ Production_new raw = Throw TypeError.
Proof.
  unfold Production_new.
  destruct (js_split raw _ !! 0); [| by right].
  destruct (js_split raw _ !! 1); [left; eauto | by right].
Qed.

Lemma normalize_step_cases (st : NormState) (k : nat) (raw : string) :
  (∃ st', normalize_step st k raw = Done st') ∨
  normalize_step st k raw = Throw TypeError.
Proof.
  unfold normalize_step.
  destruct (Production_new_cases raw) as [[p ->] | ->]; [| by right].
  cbn [obind]. destruct (k =? 0); [| left; eauto].
  match goal with |- context [Production_new ?r] =>
    destruct (Production_new_cases r) as [[a ->] | ->] end;
    [left; eauto | by right].
Qed.

Lemma normalize_from_cases (k : nat) (lines : list string) (st : NormState) :
  (∃ st', normalize_from k lines st = Done st') ∨
  normalize_from k lines st = Throw TypeError.
Proof.
  revert k st. induction lines as [|raw lines IH]; intros k st; simpl.
  - left; eauto.
  - destruct (normalize_step_cases st k raw) as [[st' ->] | ->]; [| by right].
    apply IH.
Qed.

Lemma normalize_from_no_splitter (k : nat) (lines : list string)
    (st : NormState) (raw : string) :
  raw ∈ lines → indexOf raw "->" = None → indexOf raw "|" = None →
  normalize_from k lines st = Throw TypeError.
Proof.
  intros Hin H1 H2. revert k st.
  induction Hin as [raw lines | raw x lines Hin IH]; intros k st; simpl.
  - unfold normalize_step. by rewrite Production_new_no_splitter.
  - destruct (normalize_step_cases st k x) as [[st' ->] | ->]; [| done].
    apply IH; done.
Qed.






(** ** Items *)

Lemma isFinal_spec (it : LRItem) :
  isFinal it = true ↔ _dotPosition it = length (getRHS (_production it)).
Proof. unfold isFinal. apply Nat.eqb_eq. Qed.

Lemma getCurrentSymbol_not_final (it : LRItem) (x : GrammarSymbol) :
  getCurrentSymbol it = Some x → isFinal it = false.
Proof.
  unfold getCurrentSymbol, isFinal. intros H%lookup_lt_Some.
  apply Nat.eqb_neq. lia.
Qed.

Lemma LRItem_new_lookup (production : Production) (dot : nat) (g : Grammar)
    (h : Heap) :
  heap_items (LRItem_new production dot g h).2 !! (LRItem_new production dot g h).1 =
    Some {| _production := production; _dotPosition := dot; _grammar := g;
            _closure := None; _gotoPointer := None |}.
Proof. simpl. by rewrite lookup_app_r, Nat.sub_diag. Qed.

Lemma LRItem_new_old (production : Production) (dot : nat) (g : Grammar)
    (h : Heap) (i : nat) (it : LRItem) :
  heap_items h !! i = Some it →
  heap_items (LRItem_new production dot g h).2 !! i = Some it.
Proof. intros H. simpl. by apply lookup_app_l_Some. Qed.


(** C5: [advance] throws exactly on a final item, i.e. when the dot
    position equals the length of the right-hand side; on any other item
    it returns a new item (a reference that was not live before) over the
    same production and grammar with the dot one further, leaves the
    registry and the existing items as they were, and so the new item is
    not in the registry. *)
Theorem advance_spec (i : nat) (h : Heap) (it : LRItem) :
  heap_items h !! i = Some it →
  ((∃ e, advance i h = Throw e) ↔
     _dotPosition it = length (getRHS (_production it))) ∧
  (isFinal it = true → advance i h = Throw (Error (final_message it))) ∧
  (isFinal it = false →
     ∃ (j : nat) (h' : Heap),
       advance i h = Done (j, h') ∧
       heap_items h !! j = None ∧
       heap_items h' !! j =
         Some {| _production := _production it;
                 _dotPosition := _dotPosition it + 1;
                 _grammar := _grammar it;
                 _closure := None; _gotoPointer := None |} ∧
       (∀ (k : nat) (x : LRItem),
           heap_items h !! k = Some x → heap_items h' !! k = Some x) ∧
       heap_closures h' = heap_closures h ∧
       LRItemsRegistry h' = LRItemsRegistry h ∧
       (registry_live h → ∀ key, LRItemsRegistry h' !! key ≠ Some j)).
Proof.
  intros Hi. unfold advance, get_item. rewrite Hi. cbn [obind].
  rewrite <- isFinal_spec.
  destruct (isFinal it) eqn:Hf.
  - split; [| split]; [split; eauto | done | done].
  - split; [| split]; [split; [by intros [e ?] | done] | done |].
    intros _. eexists _, _. split; [reflexivity |].
    split; [apply lookup_ge_None_2; simpl; lia |].
    split; [apply LRItem_new_lookup |].
    split; [intros k x; apply LRItem_new_old |].
    split; [done |]. split; [done |].
    intros Hlive key Hkey. apply Hlive in Hkey. simpl in Hkey. lia.
Qed.







Lemma advance_spec_witness :
  advance 0 (example_heap 2) =
    Throw (Error "Item for S -> A A is final.") ∧
  ∃ (j : nat) (h' : Heap),
    advance 0 (example_heap 1) = Done (j, h') ∧
    heap_items h' !! j = Some (example_item 2).
Proof.
  split.
  - apply (proj1 (proj2 (advance_spec 0 (example_heap 2) (example_item 2)
                            eq_refl))).
    reflexivity.
  - destruct (proj2 (proj2 (advance_spec 0 (example_heap 1) (example_item 1)
                               eq_refl)) eq_refl)
      as (j & h' & Ha & _ & Hj & _).
    exists j, h'. split; [exact Ha | exact Hj].
Defined.

(** ** Epsilon *)







Lemma filter_none {A} (P : A → Prop) `{∀ x, Decision (P x)} (l : list A) :
  (∀ x, x ∈ l → ¬ P x) → filter P l = [].
Proof.
  induction l as [|a l IH]; intros Hl; [done |].
  rewrite filter_cons_False by (apply Hl; left).
  apply IH. intros x Hx. apply Hl. by right.
Qed.

Lemma isSymbol_true (x : GrammarSymbol) (symbol : option string) :
  isSymbol x symbol = true ↔ getSymbol x = symbol.
Proof. unfold isSymbol. by rewrite bool_decide_eq_true. Qed.

(** C10: an item with [ε] at the dot is to be closed, since [ε] carries
    no quotes; when no production of the grammar has [ε] as its left-hand
    side, [closure()] returns a new closure whose items are the kernel
    item alone, and stores it in the item. *)
Theorem epsilon_closure (fuel i : nat) (h : Heap) (it : LRItem)
    (x : GrammarSymbol) :
  heap_items h !! i = Some it →
  getCurrentSymbol it = Some x →
  isEpsilon x = true →
  (∀ k p, (k, p) ∈ _bnf (_grammar it) → getSymbol (getLHS p) ≠ Some EPSILON) →
  isTerminal x = Done false ∧
  shouldClosure it = Done true ∧
  ∃ (c : nat) (h' : Heap),
    LRItem_closure (S fuel) i h = Done (Some c, h') ∧
    heap_closures h !! c = None ∧
    heap_closures h' !! c =
      Some {| _kernelItem := i; _currentItem := i; _items := [i];
              _grammar_c := _grammar it |} ∧
    h' = set_closure i (Some c) (closure_allocated i (_grammar it) h).
Proof.
  intros Hi Hx Heps Hlhs.
  apply bool_decide_eq_true in Heps.
  assert (isTerminal x = Done false) as Ht.
  { unfold isTerminal. by rewrite Heps. }
  assert (shouldClosure it = Done true) as Hsc.
  { unfold shouldClosure, isNonTerminal.
    by rewrite (getCurrentSymbol_not_final it x), Hx, Ht. }
  split; [done |]. split; [done |].
  exists (length (heap_closures h)),
    (set_closure i (Some (length (heap_closures h)))
       (closure_allocated i (_grammar it) h)).
  assert (current_productions (_grammar it) it = []) as Hnil.
  { unfold current_productions. rewrite Hx.
    apply filter_none. intros [k p] Hkp Hs. apply isSymbol_true in Hs.
    apply (Hlhs k p Hkp). cbn in Hs. by rewrite Hs. }
  split.
  - unfold LRItem_closure, get_item. rewrite Hi. cbn [obind]. rewrite Hsc.
    cbn [obind negb]. unfold Closure_new. cbn [Closure_build].
    unfold get_closure, get_item, closure_allocated.
    cbn [heap_closures heap_items].
    rewrite lookup_app_r, Nat.sub_diag by done. cbn [lookup list_lookup obind].
    cbn. rewrite Hi. cbn [obind]. rewrite Hsc. cbn [obind negb].
    rewrite Hnil. reflexivity.
  - split; [by apply lookup_ge_None_2 |]. split; [| done].
    cbn. by rewrite lookup_app_r, Nat.sub_diag.
Qed.





Lemma epsilon_closure_witness :
  Grammar_new (Lines ["F -> ε"]) = Done epsilon_grammar ∧
  shouldClosure epsilon_item = Done true ∧
  ∃ (c : nat) (h' : Heap),
    LRItem_closure 1 0 (heap_of epsilon_item) = Done (Some c, h') ∧
    heap_closures h' !! c =
      Some {| _kernelItem := 0; _currentItem := 0; _items := [0];
              _grammar_c := epsilon_grammar |}.
Proof.
  split; [reflexivity |].
  assert (∀ k p, (k, p) ∈ _bnf (_grammar epsilon_item) →
                 getSymbol (getLHS p) ≠ Some EPSILON) as Hlhs.
  { intros k p Hkp. cbn in Hkp.
    repeat (apply elem_of_cons in Hkp as [Hkp | Hkp];
            [injection Hkp as -> ->; discriminate |]).
    by apply elem_of_nil in Hkp. }
  destruct (epsilon_closure 0 0 (heap_of epsilon_item) epsilon_item
              (mkSymbol (Some EPSILON)) eq_refl eq_refl eq_refl Hlhs)
    as (_ & Hsc & c & h' & Hc & _ & Hcl & _).
  split; [exact Hsc |]. exists c, h'. split; [exact Hc | exact Hcl].
Defined.

(** ** Sessions *)

Lemma item_evolves_refl (it : LRItem) : item_evolves it it.
Proof. by repeat split. Qed.

Lemma item_evolves_trans (a b c : LRItem) :
  item_evolves a b → item_evolves b c → item_evolves a c.
Proof.
  intros (? & ? & ? & Hab) (? & ? & ? & Hbc).
  repeat split; try congruence. intros x Hx. by apply Hbc, Hab.
Qed.

Lemma heap_ext_refl (h : Heap) : heap_ext h h.
Proof.
  split; [| | done].
  - intros i it Hi. exists it. split; [done | apply item_evolves_refl].
  - intros c cl Hc. exists cl. by split.
Qed.

Lemma heap_ext_trans (h1 h2 h3 : Heap) :
  heap_ext h1 h2 → heap_ext h2 h3 → heap_ext h1 h3.
Proof.
  intros [I1 C1 R1] [I2 C2 R2]. split.
  - intros i it Hi. destruct (I1 i it Hi) as (it2 & Hi2 & E1).
    destruct (I2 i it2 Hi2) as (it3 & Hi3 & E2).
    exists it3. split; [done | by eapply item_evolves_trans].
  - intros c cl Hc. destruct (C1 c cl Hc) as (cl2 & Hc2 & [? ?]).
    destruct (C2 c cl2 Hc2) as (cl3 & Hc3 & [? ?]).
    exists cl3. split; [done |]. split; congruence.
  - by etrans.
Qed.

Lemma LRItem_new_ext (production : Production) (dot : nat) (g : Grammar)
    (h : Heap) :
  heap_ext h (LRItem_new production dot g h).2.
Proof.
  split; [| | done].
  - intros i it Hi. exists it.
    split; [by apply LRItem_new_old | apply item_evolves_refl].
  - intros c cl Hc. exists cl. by split.
Qed.

Lemma registry_set_ext (key : string) (i : nat) (h : Heap) :
  LRItemsRegistry h !! key = None → heap_ext h (registry_set key i h).
Proof.
  intros Hk. split.
  - intros j it Hj. exists it. split; [done | apply item_evolves_refl].
  - intros c cl Hc. exists cl. by split.
  - by apply insert_subseteq.
Qed.

Lemma added_item_ext (production : Production) (g : Grammar) (h : Heap) :
  heap_ext h (added_item production g h).2.
Proof.
  unfold added_item.
  destruct (LRItemsRegistry h !! keyForItem production 0) eqn:Hk.
  - apply heap_ext_refl.
  - eapply heap_ext_trans; [apply (LRItem_new_ext production 0 g) |].
    by apply registry_set_ext.
Qed.

Lemma push_item_ext (c i : nat) (h : Heap) : heap_ext h (push_item c i h).
Proof.
  split; [| | done].
  - intros j it Hj. exists it. split; [done | apply item_evolves_refl].
  - intros c' cl Hc. cbn. rewrite list_lookup_alter.
    destruct (decide (c = c')) as [-> |].
    + rewrite Hc. eexists. by split.
    + exists cl. by split.
Qed.

Lemma closure_allocated_ext (k : nat) (g : Grammar) (h : Heap) :
  heap_ext h (closure_allocated k g h).
Proof.
  split; [| | done].
  - intros j it Hj. exists it. split; [done | apply item_evolves_refl].
  - intros c cl Hc. exists cl. split; [| by split].
    cbn. by apply lookup_app_l_Some.
Qed.

Lemma set_closure_ext (i : nat) (c : option nat) (h : Heap) :
  heap_ext h (set_closure i c h).
Proof.
  split; [| | done].
  - intros j it Hj. cbn. rewrite list_lookup_alter.
    destruct (decide (i = j)) as [-> |].
    + rewrite Hj. eexists. split; [done |]. by repeat split.
    + exists it. split; [done | apply item_evolves_refl].
  - intros c' cl Hc. exists cl. by split.
Qed.

Lemma set_gotoPointer_ext (i c : nat) (h : Heap) (it : LRItem) :
  heap_items h !! i = Some it → isConnected it = false →
  heap_ext h (set_gotoPointer i (Some c) h).
Proof.
  intros Hi Hc. split; [| | done].
  - intros j x Hj. cbn. rewrite list_lookup_alter.
    destruct (decide (i = j)) as [-> |].
    + rewrite Hj. eexists. split; [done |]. repeat split.
      intros c' Hc'. assert (x = it) as -> by congruence.
      unfold isConnected in Hc. by rewrite Hc' in Hc.
    + exists x. split; [done | apply item_evolves_refl].
  - intros c' cl Hcl. exists cl. by split.
Qed.

Lemma advance_inv (i : nat) (h : Heap) (j : nat) (h' : Heap) :
  advance i h = Done (j, h') →
  ∃ it, heap_items h !! i = Some it ∧ isFinal it = false ∧
        (j, h') = LRItem_new (_production it) (_dotPosition it + 1)
                    (_grammar it) h.
Proof.
  unfold advance. intros H. obind_inv H. apply get_item_Done in Ha.
  exists a. destruct (isFinal a); [done |]. by injection H as <- <-.
Qed.

Lemma session_step_ext (h h' : Heap) : session_step h h' → heap_ext h h'.
Proof.
  destruct 1.
  - apply LRItem_new_ext.
  - apply advance_inv in H as (it & _ & _ & E).
    replace h' with (adv, h').2 by done. rewrite E. apply LRItem_new_ext.
  - apply added_item_ext.
  - apply push_item_ext.
  - apply closure_allocated_ext.
  - apply set_closure_ext.
  - by eapply set_gotoPointer_ext.
Qed.

Lemma session_ext (h h' : Heap) : session h h' → heap_ext h h'.
Proof.
  induction 1 as [|h1 h2 h3 Hs _ IH]; [apply heap_ext_refl |].
  eapply heap_ext_trans; [by apply session_step_ext | done].
Qed.

Lemma session_trans (h1 h2 h3 : Heap) :
  session h1 h2 → session h2 h3 → session h1 h3.
Proof. apply rtc_trans. Qed.

Lemma session_one (h h' : Heap) : session_step h h' → session h h'.
Proof. apply rtc_once. Qed.

Lemma advance_session (i : nat) (h : Heap) (j : nat) (h' : Heap) :
  advance i h = Done (j, h') → session h h'.
Proof.
  intros H. by eapply session_one, step_advance.
Qed.

Lemma build_loop_session (rec : nat → Heap → outcome Heap) (c : nat)
    (prods : list (nat * Production)) (h h' : Heap) :
  (∀ c h h', rec c h = Done h' → session h h') →
  build_loop rec c prods h = Done h' → session h h'.
Proof.
  intros Hrec. revert h.
  induction prods as [|[k production] prods IH]; intros h H; simpl in H.
  - injection H as <-. apply rtc_refl.
  - obind_inv H.
    destruct (added_item production (_grammar_c a) h) as [addedItem h1] eqn:E.
    obind_inv H.
    apply (session_trans _ h1);
      [| apply (session_trans _ (push_item c addedItem h1));
         [| apply (session_trans _ a0)]].
    + replace h1 with (added_item production (_grammar_c a) h).2
        by (by rewrite E).
      apply session_one, step_added_item.
    + apply session_one, step_push_item.
    + by eapply Hrec.
    + by apply IH.
Qed.

Lemma Closure_build_session (fuel c : nat) (h h' : Heap) :
  Closure_build fuel c h = Done h' → session h h'.
Proof.
  revert c h h'. induction fuel as [|fuel IH]; intros c h h' H; [done |].
  simpl in H. obind_inv H. obind_inv H. obind_inv H.
  destruct (negb a1).
  - injection H as <-. apply rtc_refl.
  - by eapply build_loop_session.
Qed.

Lemma items_kept_refl (h : Heap) : items_kept h h.
Proof. by intros i it Hi. Qed.

Lemma added_item_kept (production : Production) (g : Grammar) (h : Heap) :
  items_kept h (added_item production g h).2.
Proof.
  unfold added_item. intros i it Hi.
  destruct (LRItemsRegistry h !! keyForItem production 0); [done |].
  cbn. by apply lookup_app_l_Some.
Qed.

Lemma build_loop_kept (rec : nat → Heap → outcome Heap) (c : nat)
    (prods : list (nat * Production)) (h h' : Heap) :
  (∀ c h h', rec c h = Done h' → items_kept h h') →
  build_loop rec c prods h = Done h' → items_kept h h'.
Proof.
  intros Hrec. revert h.
  induction prods as [|[k production] prods IH]; intros h H; simpl in H.
  - injection H as <-. apply items_kept_refl.
  - obind_inv H.
    destruct (added_item production (_grammar_c a) h) as [addedItem h1] eqn:E.
    obind_inv H. intros i it Hi.
    apply (IH _ H), (Hrec _ _ _ Ha0). cbn.
    replace h1 with (added_item production (_grammar_c a) h).2
      by (by rewrite E).
    by apply added_item_kept.
Qed.

Lemma Closure_build_kept (fuel c : nat) (h h' : Heap) :
  Closure_build fuel c h = Done h' → items_kept h h'.
Proof.
  revert c h h'. induction fuel as [|fuel IH]; intros c h h' H; [done |].
  simpl in H. obind_inv H. obind_inv H. obind_inv H.
  destruct (negb a1).
  - injection H as <-. apply items_kept_refl.
  - by eapply build_loop_kept.
Qed.

Lemma Closure_new_kept (fuel k : nat) (g : Grammar) (h : Heap)
    (c : nat) (h' : Heap) :
  Closure_new fuel k g h = Done (c, h') → items_kept h h'.
Proof.
  unfold Closure_new. intros H. obind_inv H. injection H as <- <-.
  intros i it Hi. by apply (Closure_build_kept _ _ _ _ Ha).
Qed.

Lemma advance_kept (i : nat) (h : Heap) (j : nat) (h' : Heap) :
  advance i h = Done (j, h') → items_kept h h'.
Proof.
  unfold advance. intros H. obind_inv H.
  destruct (isFinal a); [done |]. injection H as <- <-.
  intros k it Hk. by apply LRItem_new_old.
Qed.

Lemma Closure_new_session (fuel k : nat) (g : Grammar) (h : Heap)
    (c : nat) (h' : Heap) :
  Closure_new fuel k g h = Done (c, h') → session h h'.
Proof.
  unfold Closure_new. intros H. obind_inv H. injection H as <- <-.
  eapply session_trans;
    [apply session_one, step_closure_allocated
    | by eapply Closure_build_session].
Qed.

Lemma LRItem_closure_session (fuel i : nat) (h : Heap) (r : option nat)
    (h' : Heap) :
  LRItem_closure fuel i h = Done (r, h') → session h h'.
Proof.
  unfold LRItem_closure. intros H. obind_inv H. obind_inv H.
  destruct (negb a0).
  - injection H as <- <-. apply rtc_refl.
  - obind_inv H. destruct a1 as [c h1]. injection H as <- <-.
    eapply session_trans;
      [by eapply Closure_new_session | apply session_one, step_set_closure].
Qed.

Lemma forEach_goto_session (go : nat → Heap → outcome (option nat * Heap))
    (items : list nat) (h h' : Heap) :
  (∀ i h r h', go i h = Done (r, h') → session h h') →
  forEach_goto go items h = Done h' → session h h'.
Proof.
  intros Hgo. revert h.
  induction items as [|item items IH]; intros h H; simpl in H.
  - injection H as <-. apply rtc_refl.
  - obind_inv H. destruct a as [r h1].
    eapply session_trans; [by eapply Hgo | by apply IH].
Qed.

(** The first steps of [goto] on an item that is neither final nor
    connected: the heap [h2] after the new closure is built still holds
    the item as it was. *)
Lemma goto_prefix_kept (fuel i : nat) (h : Heap) (it : LRItem)
    (adv : nat) (h1 : Heap) (c : nat) (h2 : Heap) :
  heap_items h !! i = Some it →
  advance i h = Done (adv, h1) →
  Closure_new fuel adv (_grammar it) h1 = Done (c, h2) →
  heap_items h2 !! i = Some it ∧ session h h2.
Proof.
  intros Hi Ha Hc. split.
  - by eapply Closure_new_kept, advance_kept.
  - eapply session_trans;
      [by eapply advance_session | by eapply Closure_new_session].
Qed.

Lemma LRItem_goto_session (fuel i : nat) (h : Heap) (r : option nat)
    (h' : Heap) :
  LRItem_goto fuel i h = Done (r, h') → session h h'.
Proof.
  revert i h r h'. induction fuel as [|fuel IH]; intros i h r h' H; [done |].
  simpl in H. obind_inv H. apply get_item_Done in Ha.
  destruct (isFinal a) eqn:Hf; cbn [negb andb] in H;
    [injection H as <- <-; apply rtc_refl |].
  destruct (isConnected a) eqn:Hc; cbn [negb] in H;
    [injection H as <- <-; apply rtc_refl |].
  obind_inv H. destruct a0 as [adv h1].
  obind_inv H. destruct a0 as [c h2].
  obind_inv H. obind_inv H. injection H as <- <-.
  destruct (goto_prefix_kept _ _ _ _ _ _ _ _ Ha Ha0 Ha1) as [Hi2 S12].
  eapply session_trans; [exact S12 |].
  eapply session_trans.
  - apply session_one. by apply (step_connect i c h2 a Hi2).
  - unfold Closure_goto_with in Ha2. obind_inv Ha2.
    by eapply forEach_goto_session.
Qed.

Lemma Closure_goto_session (fuel c : nat) (h h' : Heap) :
  Closure_goto fuel c h = Done h' → session h h'.
Proof.
  unfold Closure_goto, Closure_goto_with. intros H. obind_inv H.
  eapply forEach_goto_session; [| done].
  intros. by eapply LRItem_goto_session.
Qed.

(** ** Sharing through the registry *)

Lemma added_item_registered (production : Production) (g : Grammar)
    (h : Heap) (i : nat) (h1 : Heap) :
  added_item production g h = (i, h1) →
  LRItemsRegistry h1 !! keyForItem production 0 = Some i.
Proof.
  unfold added_item.
  destruct (LRItemsRegistry h !! keyForItem production 0) eqn:Hk.
  - by intros [= <- <-].
  - intros [= <- <-]. cbn. by rewrite lookup_insert_eq.
Qed.

Lemma added_item_reuse (production : Production) (g : Grammar)
    (h : Heap) (i : nat) :
  LRItemsRegistry h !! keyForItem production 0 = Some i →
  added_item production g h = (i, h).
Proof. intros Hk. unfold added_item. by rewrite Hk. Qed.

Lemma goto_connected (fuel i : nat) (h : Heap) (it : LRItem) (c : nat) :
  heap_items h !! i = Some it → _gotoPointer it = Some c →
  LRItem_goto (S fuel) i h = Done (Some c, h).
Proof.
  intros Hi Hc. simpl. unfold get_item. rewrite Hi. cbn [obind].
  unfold isConnected. rewrite Hc. by rewrite andb_false_r.
Qed.

Lemma session_connected (h h' : Heap) (i : nat) (it : LRItem) (c : nat) :
  session h h' →
  heap_items h !! i = Some it → _gotoPointer it = Some c →
  ∃ it', heap_items h' !! i = Some it' ∧ _gotoPointer it' = Some c.
Proof.
  intros Hs Hi Hc.
  destruct (ext_items _ _ (session_ext _ _ Hs) i it Hi)
    as (it' & Hi' & _ & _ & _ & Hg).
  exists it'. split; [done | by apply Hg].
Qed.


(** ** goto is memoized *)

Lemma session_step_final_unconnected (h h' : Heap) :
  session_step h h' → final_unconnected h → final_unconnected h'.
Proof.
  intros Hs Hfu. destruct Hs; intros j x Hj Hf.
  - cbn in Hj. apply lookup_app_Some in Hj as [Hj | [_ Hj]]; [by eapply Hfu |].
    apply list_lookup_singleton_Some in Hj as [_ <-]. done.
  - apply advance_inv in H as (it & _ & _ & E). injection E as -> ->.
    cbn in Hj. apply lookup_app_Some in Hj as [Hj | [_ Hj]]; [by eapply Hfu |].
    apply list_lookup_singleton_Some in Hj as [_ <-]. done.
  - unfold added_item in Hj.
    destruct (LRItemsRegistry h !! keyForItem production 0);
      [by eapply Hfu |].
    cbn in Hj. apply lookup_app_Some in Hj as [Hj | [_ Hj]]; [by eapply Hfu |].
    apply list_lookup_singleton_Some in Hj as [_ <-]. done.
  - by eapply Hfu.
  - by eapply Hfu.
  - cbn in Hj. rewrite list_lookup_alter in Hj.
    destruct (decide (i = j)) as [-> |]; [| by eapply Hfu].
    destruct (heap_items h !! j) as [y|] eqn:Hy; [| done].
    injection Hj as <-. cbn. by eapply Hfu.
  - cbn in Hj. rewrite list_lookup_alter in Hj.
    destruct (decide (i = j)) as [-> |]; [| by eapply Hfu].
    rewrite H in Hj. injection Hj as <-.
    unfold isFinal in *. cbn in Hf. congruence.
Qed.

Lemma session_final_unconnected (h h' : Heap) :
  session h h' → final_unconnected h → final_unconnected h'.
Proof.
  induction 1 as [|h1 h2 h3 Hs _ IH]; [done |].
  intros Hfu. by eapply IH, session_step_final_unconnected.
Qed.

Lemma empty_heap_final_unconnected : final_unconnected empty_heap.
Proof. intros i it Hi. done. Qed.


(** ** advance is never called on a final item *)

(** The heap that the driver returns is the end of a session from the
    empty heap. *)
Lemma canonical_collection_session (fuel : nat) (g : Grammar)
    (kernelItem : nat) (h : Heap) :
  canonical_collection fuel g = Done (kernelItem, h) → session empty_heap h.
Proof.
  unfold canonical_collection, root_item. intros H.
  destruct (getAugmentedProduction g) as [production|]; [| done].
  cbn [obind] in H.
  apply (session_trans _ (LRItem_new production 0 g empty_heap).2);
    [apply session_one, step_root |].
  destruct (LRItem_new production 0 g empty_heap) as [k h0].
  obind_inv H. destruct a as [[c|] h1]; [| done].
  obind_inv H. injection H as <- <-.
  eapply session_trans;
    [by eapply LRItem_closure_session | by eapply Closure_goto_session].
Qed.

Lemma no_Error_bind {A B} (m : outcome A) (k : A → outcome B) :
  no_Error m → (∀ a, m = Done a → no_Error (k a)) → no_Error (obind m k).
Proof.
  intros Hm Hk msg. destruct m as [a | e |]; cbn; [by apply Hk | | done].
  intros [= ->]. by eapply Hm.
Qed.

Lemma no_Error_Done {A} (a : A) : no_Error (Done a).
Proof. by intros msg. Qed.

Lemma no_Error_get_item (i : nat) (h : Heap) : no_Error (get_item i h).
Proof. intros msg. unfold get_item. by destruct (heap_items h !! i). Qed.

Lemma no_Error_get_closure (c : nat) (h : Heap) : no_Error (get_closure c h).
Proof. intros msg. unfold get_closure. by destruct (heap_closures h !! c). Qed.

Lemma no_Error_shouldClosure (it : LRItem) : no_Error (shouldClosure it).
Proof.
  intros msg. unfold shouldClosure, isNonTerminal, isTerminal.
  destruct (isFinal it); [done |].
  destruct (getCurrentSymbol it) as [x|]; [| done].
  by destruct (_symbol x).
Qed.

Lemma no_Error_build_loop (rec : nat → Heap → outcome Heap) (c : nat)
    (prods : list (nat * Production)) (h : Heap) :
  (∀ c h, no_Error (rec c h)) → no_Error (build_loop rec c prods h).
Proof.
  intros Hrec. revert h.
  induction prods as [|[k production] prods IH]; intros h; simpl.
  - apply no_Error_Done.
  - apply no_Error_bind; [apply no_Error_get_closure |]. intros cl _.
    destruct (added_item production (_grammar_c cl) h) as [addedItem h1].
    apply no_Error_bind; [apply Hrec |]. intros h3 _. apply IH.
Qed.

Lemma no_Error_Closure_build (fuel c : nat) (h : Heap) :
  no_Error (Closure_build fuel c h).
Proof.
  revert c h. induction fuel as [|fuel IH]; intros c h; [done |]. simpl.
  apply no_Error_bind; [apply no_Error_get_closure |]. intros cl _.
  apply no_Error_bind; [apply no_Error_get_item |]. intros cur _.
  apply no_Error_bind; [apply no_Error_shouldClosure |]. intros sc _.
  destruct (negb sc); [apply no_Error_Done |].
  by apply no_Error_build_loop.
Qed.

Lemma no_Error_Closure_new (fuel k : nat) (g : Grammar) (h : Heap) :
  no_Error (Closure_new fuel k g h).
Proof.
  unfold Closure_new.
  apply no_Error_bind; [apply no_Error_Closure_build |].
  intros h2 _. apply no_Error_Done.
Qed.

(** The guard of [goto] is the guard of [advance]. *)
Lemma advance_guarded (i : nat) (h : Heap) (it : LRItem) :
  get_item i h = Done it → isFinal it = false →
  advance i h =
    Done (LRItem_new (_production it) (_dotPosition it + 1) (_grammar it) h).
Proof. intros Hi Hf. unfold advance. rewrite Hi. cbn. by rewrite Hf. Qed.

Lemma no_Error_forEach_goto (go : nat → Heap → outcome (option nat * Heap))
    (items : list nat) (h : Heap) :
  (∀ i h, no_Error (go i h)) → no_Error (forEach_goto go items h).
Proof.
  intros Hgo. revert h. induction items as [|item items IH]; intros h; simpl.
  - apply no_Error_Done.
  - apply no_Error_bind; [apply Hgo |]. intros [r h1] _. apply IH.
Qed.

Lemma no_Error_LRItem_goto (fuel i : nat) (h : Heap) :
  no_Error (LRItem_goto fuel i h).
Proof.
  revert i h. induction fuel as [|fuel IH]; intros i h; [done |]. simpl.
  apply no_Error_bind; [apply no_Error_get_item |]. intros it Hi.
  destruct (isFinal it) eqn:Hf; cbn [negb andb]; [apply no_Error_Done |].
  destruct (isConnected it); cbn [negb]; [apply no_Error_Done |].
  rewrite (advance_guarded _ _ _ Hi Hf). cbn [obind].
  destruct (LRItem_new _ _ _ h) as [adv h1].
  apply no_Error_bind; [apply no_Error_Closure_new |]. intros [c h2] _.
  apply no_Error_bind.
  - unfold Closure_goto_with.
    apply no_Error_bind; [apply no_Error_get_closure |]. intros cl _.
    by apply no_Error_forEach_goto.
  - intros h4 _.
    apply no_Error_bind; [apply no_Error_get_item |]. intros it' _.
    apply no_Error_Done.
Qed.

Lemma no_Error_Closure_goto (fuel c : nat) (h : Heap) :
  no_Error (Closure_goto fuel c h).
Proof.
  unfold Closure_goto, Closure_goto_with.
  apply no_Error_bind; [apply no_Error_get_closure |]. intros cl _.
  apply no_Error_forEach_goto. intros. apply no_Error_LRItem_goto.
Qed.

Lemma no_Error_LRItem_closure (fuel i : nat) (h : Heap) :
  no_Error (LRItem_closure fuel i h).
Proof.
  unfold LRItem_closure.
  apply no_Error_bind; [apply no_Error_get_item |]. intros it _.
  apply no_Error_bind; [apply no_Error_shouldClosure |]. intros sc _.
  destruct (negb sc); [apply no_Error_Done |].
  apply no_Error_bind; [apply no_Error_Closure_new |]. intros [c h1] _.
  apply no_Error_Done.
Qed.

Lemma session_step_dots (h h' : Heap) :
  session_step h h' → dots_in_range h → dots_in_range h'.
Proof.
  intros Hs Hin. destruct Hs; intros n x Hn.
  - cbn in Hn. apply lookup_app_Some in Hn as [Hn | [_ Hn]]; [by eapply Hin |].
    apply list_lookup_singleton_Some in Hn as [_ <-]. cbn. lia.
  - apply advance_inv in H as (it & Hi & Hf & E). injection E as -> ->.
    cbn in Hn. apply lookup_app_Some in Hn as [Hn | [_ Hn]]; [by eapply Hin |].
    apply list_lookup_singleton_Some in Hn as [_ <-]. cbn.
    pose proof (Hin _ _ Hi). unfold isFinal in Hf. apply Nat.eqb_neq in Hf.
    lia.
  - unfold added_item in Hn.
    destruct (LRItemsRegistry h !! keyForItem production 0);
      [by eapply Hin |].
    cbn in Hn. apply lookup_app_Some in Hn as [Hn | [_ Hn]]; [by eapply Hin |].
    apply list_lookup_singleton_Some in Hn as [_ <-]. cbn. lia.
  - by eapply Hin.
  - by eapply Hin.
  - cbn in Hn. rewrite list_lookup_alter in Hn.
    destruct (decide (i = n)) as [-> |]; [| by eapply Hin].
    destruct (heap_items h !! n) as [y|] eqn:Hy; [| done].
    injection Hn as <-. cbn. by eapply Hin.
  - cbn in Hn. rewrite list_lookup_alter in Hn.
    destruct (decide (i = n)) as [-> |]; [| by eapply Hin].
    rewrite H in Hn. injection Hn as <-. cbn. by eapply Hin.
Qed.

Lemma session_dots (h h' : Heap) :
  session h h' → dots_in_range h → dots_in_range h'.
Proof.
  induction 1 as [|h1 h2 h3 Hs _ IH]; [done |].
  intros Hin. by eapply IH, session_step_dots.
Qed.

(** C9: the only call of [advance] in the construction stands behind
    the test [!this.isFinal()] of [goto], on the same item; so no
    [closure()]/[goto()] sequence, from the root kernel item of any
    grammar or from any item or closure of any heap, with any bound on
    the recursion depth, ends in the exception that [advance] throws on
    a final item.  In a session that starts from the empty heap every
    dot stays within its right-hand side, so the item that passes the
    test has its dot strictly before the end, and [advance] returns. *)
Theorem advance_never_on_final :
  (∀ (fuel : nat) (g : Grammar), no_Error (canonical_collection fuel g)) ∧
  (∀ (fuel i : nat) (h : Heap), no_Error (LRItem_closure fuel i h)) ∧
  (∀ (fuel i : nat) (h : Heap), no_Error (LRItem_goto fuel i h)) ∧
  (∀ (fuel c : nat) (h : Heap), no_Error (Closure_goto fuel c h)) ∧
  (∀ h : Heap, session empty_heap h → dots_in_range h) ∧
  (∀ (i : nat) (h : Heap) (it : LRItem),
      dots_in_range h → heap_items h !! i = Some it → isFinal it = false →
      _dotPosition it < length (getRHS (_production it)) ∧
      ∃ r, advance i h = Done r).
Proof.
  split; [| split; [| split; [| split; [| split]]]].
  - intros fuel g. unfold canonical_collection, root_item.
    destruct (getAugmentedProduction g) as [production|]; [| done].
    cbn [obind]. destruct (LRItem_new production 0 g empty_heap) as [k h0].
    apply no_Error_bind; [apply no_Error_LRItem_closure |].
    intros [[c|] h1] _; [| done].
    apply no_Error_bind; [apply no_Error_Closure_goto |].
    intros h2 _. apply no_Error_Done.
  - apply no_Error_LRItem_closure.
  - apply no_Error_LRItem_goto.
  - apply no_Error_Closure_goto.
  - intros h Hs. eapply session_dots; [exact Hs |]. by intros i it Hi.
  - intros i h it Hin Hi Hf. split.
    + pose proof (Hin _ _ Hi). unfold isFinal in Hf.
      apply Nat.eqb_neq in Hf. lia.
    + rewrite (advance_guarded _ _ _ (proj2 (get_item_Done _ _ _) Hi) Hf).
      eauto.
Qed.

(** ** The table built by [_normalizeBnf] *)

Lemma Production_new_raw (raw : string) (p : Production) :
  Production_new raw = Done p → getRaw p = raw.
Proof.
  unfold Production_new.
  destruct (js_split raw _ !! 0); [| done].
  destruct (js_split raw _ !! 1); [| done].
  by intros [= <-].
Qed.

Lemma normalize_step_first (st : NormState) (raw : string) (st' : NormState) :
  normalize_step st 0 raw = Done st' →
  ∃ p augmented,
    getRaw p = raw ∧
    Production_new (augmented_raw (getSymbol (getLHS p))) = Done augmented ∧
    normalizedBnf st' = normalizedBnf st ++ [(0, augmented); (1, p)] ∧
    norm_startSymbol st' = getSymbol (getLHS p) ∧
    norm_augmented st' = Some augmented ∧
    (truthy (getSymbol (getLHS p)) = true ∨
     getSymbol (getLHS p) = currentNonTerminal st).
Proof.
  unfold normalize_step. intros H. obind_inv H. cbn [Nat.eqb] in H.
  obind_inv H. obind_inv Ha0. injection Ha0 as <-. injection H as <-.
  eexists _, a1. cbn. split; [| split; [exact Ha1 |]].
  - apply Production_new_raw in Ha. by destruct (negb _).
  - split; [by rewrite <- app_assoc |]. split; [done |]. split; [done |].
    destruct (truthy (getSymbol (getLHS a))) eqn:E; [by left | by right].
Qed.

Lemma normalize_step_next (st : NormState) (k : nat) (raw : string)
    (st' : NormState) :
  k ≠ 0 → normalize_step st k raw = Done st' →
  ∃ p,
    getRaw p = raw ∧
    normalizedBnf st' = normalizedBnf st ++ [(k + 1, p)] ∧
    norm_startSymbol st' = norm_startSymbol st ∧
    norm_augmented st' = norm_augmented st.
Proof.
  unfold normalize_step. intros Hk H. obind_inv H.
  apply Nat.eqb_neq in Hk. rewrite Hk in H. cbn [obind] in H.
  injection H as <-. eexists. cbn. split; [| done].
  apply Production_new_raw in Ha. by destruct (negb _).
Qed.

Lemma normalize_from_next (k : nat) (lines : list string)
    (st st' : NormState) :
  k ≠ 0 → normalize_from k lines st = Done st' →
  ∃ ps,
    Forall2 (fun raw p => getRaw p = raw) lines ps ∧
    normalizedBnf st' = normalizedBnf st ++ numbered (k + 1) ps ∧
    norm_startSymbol st' = norm_startSymbol st ∧
    norm_augmented st' = norm_augmented st.
Proof.
  revert k st. induction lines as [|raw lines IH]; intros k st Hk H; simpl in H.
  - injection H as <-. exists []. by rewrite app_nil_r.
  - obind_inv H.
    destruct (normalize_step_next _ _ _ _ Hk Ha) as (p & Hp & Hb & Hs & Hg).
    destruct (IH (S k) a ltac:(done) H) as (ps & Hps & Hb' & Hs' & Hg').
    exists (p :: ps). split; [by constructor |].
    split; [| split; congruence].
    rewrite Hb', Hb, <- app_assoc. cbn. by rewrite Nat.add_1_r.
Qed.

(** The table of a grammar: the augmented production under 0, then the
    productions of the input under 1, 2, ... in source order; the start
    symbol is the left-hand side of the first of them. *)
Lemma Grammar_new_bnf (input : GrammarInput) (g : Grammar) :
  Grammar_new input = Done g →
  ∃ ps,
    Forall2 (fun raw p => getRaw p = raw) (_toArray input) ps ∧
    _bnf g = augmented_entry g ++ numbered 1 ps ∧
    match ps with
    | [] => getAugmentedProduction g = None ∧ _startSymbol g = None
    | p1 :: _ =>
        _startSymbol g = getSymbol (getLHS p1) ∧
        (truthy (_startSymbol g) = true ∨ _startSymbol g = None) ∧
        ∃ augmented,
          getAugmentedProduction g = Some augmented ∧
          Production_new (augmented_raw (_startSymbol g)) = Done augmented
    end.
Proof.
  unfold Grammar_new. intros H. obind_inv H. injection H as <-.
  unfold augmented_entry, getAugmentedProduction. cbn.
  destruct (_toArray input) as [|raw lines]; simpl in Ha.
  - injection Ha as <-. exists []. by repeat split.
  - obind_inv Ha.
    destruct (normalize_step_first _ _ _ Ha0)
      as (p & aug & Hp & Ha1 & Hb & Hs & Hg & Ht).
    destruct (normalize_from_next 1 _ _ _ ltac:(done) Ha)
      as (ps & Hps & Hb' & Hs' & Hg').
    exists (p :: ps). split; [by constructor |].
    rewrite Hg', Hg, Hs', Hs, Hb', Hb. cbn.
    split; [done |]. split; [done |]. split; [done |]. eauto.
Qed.

Lemma elem_of_numbered (k : nat) (ps : list Production) (n : nat)
    (p : Production) :
  (n, p) ∈ numbered k ps ↔ k ≤ n ∧ ps !! (n - k) = Some p.
Proof.
  revert k. induction ps as [|q ps IH]; intros k; simpl.
  - split; [by intros ?%elem_of_nil | by intros [_ ?]].
  - rewrite elem_of_cons, IH. split.
    + intros [[= -> ->] | [Hk Hp]].
      * split; [lia |]. by rewrite Nat.sub_diag.
      * split; [lia |]. by replace (n - k) with (S (n - S k)) by lia.
    + intros [Hk Hp]. destruct (decide (n = k)) as [-> |].
      * left. rewrite Nat.sub_diag in Hp. by injection Hp as ->.
      * right. split; [lia |].
        by replace (n - k) with (S (n - S k)) in Hp by lia.
Qed.

(** C8: for a grammar built from an input, [getProductionsForSymbol]
    returns the productions of the input whose left-hand side is the
    symbol, each under its number (the [k]-th production of the input
    under [k], from 1 on) and in source order, preceded by the augmented
    production under 0 exactly when the symbol asked for is the
    left-hand side of the augmented production; the result is a
    function of the table and the symbol alone (a scan of the table,
    nothing is remembered between calls). *)
Theorem getProductionsForSymbol_spec (input : GrammarInput) (g : Grammar) :
  Grammar_new input = Done g →
  ∃ ps : list Production,
    Forall2 (fun raw p => getRaw p = raw) (_toArray input) ps ∧
    (∀ n p, (n, p) ∈ numbered 1 ps ↔ 1 ≤ n ∧ ps !! (n - 1) = Some p) ∧
    ∀ symbol : option string,
      getProductionsForSymbol g symbol =
        filter (fun kp => isSymbol (getLHS kp.2) symbol = true)
          (augmented_entry g) ++
        filter (fun kp => isSymbol (getLHS kp.2) symbol = true)
          (numbered 1 ps) ∧
      (∀ n p, (n, p) ∈ getProductionsForSymbol g symbol ↔
                (n, p) ∈ _bnf g ∧ getSymbol (getLHS p) = symbol) ∧
      (∀ augmented, getAugmentedProduction g = Some augmented →
         ((0, augmented) ∈ getProductionsForSymbol g symbol ↔
            getSymbol (getLHS augmented) = symbol)) ∧
      (∀ g', _bnf g' = _bnf g →
         getProductionsForSymbol g' symbol = getProductionsForSymbol g symbol).
Proof.
  intros Hg. destruct (Grammar_new_bnf _ _ Hg) as (ps & Hps & Hb & _).
  exists ps. split; [done |]. split; [apply elem_of_numbered |].
  intros symbol. unfold getProductionsForSymbol.
  split; [by rewrite Hb, filter_app |].
  split; [| split].
  - intros n p. rewrite list_elem_of_filter. cbn. rewrite isSymbol_true. tauto.
  - intros aug Haug. rewrite list_elem_of_filter. cbn. rewrite isSymbol_true.
    split; [tauto |]. intros Hs. split; [done |].
    rewrite Hb. apply elem_of_app. left.
    unfold augmented_entry. rewrite Haug. by left.
  - by intros g' ->.
Qed.

(** ** More on strings *)

Lemma indexOf_None_cons (c : ascii) (s sub : string) :
  has_prefix sub (String c s) = false → indexOf s sub = None →
  indexOf (String c s) sub = None.
Proof. intros Hp Hs. cbn [indexOf]. by rewrite Hp, Hs. Qed.

Lemma indexOf_arrow_app (s t : string) (c : ascii) :
  indexOf s "->" = None → indexOf (String c t) "->" = None →
  c ≠ ">"%char →
  indexOf (s +:+ String c t) "->" = None.
Proof.
  intros Hs Ht Hc. induction s as [|a s IH]; [done |].
  apply indexOf_None_tail in Hs as [Hp Hs]. rewrite str_app_cons.
  apply indexOf_None_cons; [| by apply IH].
  cbn [has_prefix] in *. destruct (Ascii.eqb "-" a); [| done].
  destruct s as [|b s].
  - rewrite str_app_nil_l. cbn [has_prefix].
    destruct (Ascii.eqb_spec ">" c); [congruence | done].
  - rewrite str_app_cons. cbn [has_prefix] in *.
    by destruct (Ascii.eqb ">" b).
Qed.

Lemma trimEnd_no_ws (s : string) : no_ws s = true → trimEnd s = s.
Proof.
  induction s as [|c s IH]; [done |]. cbn [no_ws trimEnd].
  intros [Hc Hs]%andb_prop. rewrite IH by done.
  apply negb_true_iff in Hc. rewrite Hc. by destruct s.
Qed.

Lemma trimEnd_app_mark (s : string) :
  trimEnd (s +:+ "' ") = s +:+ "'".
Proof.
  induction s as [|c s IH]; [done |].
  rewrite !str_app_cons. cbn [trimEnd]. rewrite IH.
  destruct (s +:+ "'") eqn:E; [by destruct s | done].
Qed.

Lemma trimStart_token (s : string) :
  truthy (Some s) = true → no_ws s = true → trimStart s = s.
Proof.
  destruct s as [|c s]; [done |]. cbn [no_ws trimStart].
  intros _ [Hc _]%andb_prop. apply negb_true_iff in Hc. by rewrite Hc.
Qed.

Lemma split_ws_go_no_ws (cur s : string) :
  no_ws s = true → split_ws_go cur false s = [cur +:+ s].
Proof.
  revert cur. induction s as [|c s IH]; intros cur; cbn [no_ws split_ws_go].
  - by rewrite str_app_nil_r.
  - intros [Hc Hs]%andb_prop. apply negb_true_iff in Hc. rewrite Hc.
    rewrite IH by done. by rewrite str_app_snoc.
Qed.


(** ** Left-hand sides contain no arrow *)

Lemma has_prefix_app_r (p s t : string) :
  has_prefix p s = true → has_prefix p (s +:+ t) = true.
Proof.
  revert s. induction p as [|a p IH]; intros s; [done |].
  destruct s as [|b s]; [done |]. rewrite str_app_cons. cbn [has_prefix].
  destruct (Ascii.eqb a b); [apply IH | done].
Qed.

Lemma has_prefix_split (p s : string) :
  has_prefix p s = true → ∃ r, s = p +:+ r.
Proof.
  revert s. induction p as [|a p IH]; intros s; [by exists s |].
  destruct s as [|b s]; [done |]. cbn [has_prefix].
  destruct (Ascii.eqb_spec a b) as [-> |]; [| done].
  intros [r ->]%IH. by exists r.
Qed.

Lemma arrow_free_prefix (s t : string) :
  arrow_free (s +:+ t) → arrow_free s.
Proof.
  unfold arrow_free. induction s as [|c s IH]; [done |].
  rewrite str_app_cons. intros [Hp Hs]%indexOf_None_tail.
  apply indexOf_None_cons; [| by apply IH].
  destruct (has_prefix "->" (String c s)) eqn:E; [| done].
  apply (has_prefix_app_r _ _ t) in E. rewrite str_app_cons in E. congruence.
Qed.

Lemma arrow_free_tail (c : ascii) (s : string) :
  arrow_free (String c s) → arrow_free s.
Proof. by intros [_ ?]%indexOf_None_tail. Qed.

Lemma arrow_free_trimStart (s : string) :
  arrow_free s → arrow_free (trimStart s).
Proof.
  induction s as [|c s IH]; [done |]. intros H. cbn [trimStart].
  destruct (is_ws c); [| done]. by eapply IH, arrow_free_tail.
Qed.

Lemma trimEnd_prefix (s : string) : ∃ w, s = trimEnd s +:+ w.
Proof.
  induction s as [|c s [w IH]]; [by exists "" |]. cbn [trimEnd].
  destruct (trimEnd s) as [|a t] eqn:E.
  - destruct (is_ws c); [by exists (String c s) |].
    exists w. by rewrite IH at 1.
  - exists w. by rewrite IH at 1.
Qed.

Lemma arrow_free_trim (s : string) : arrow_free s → arrow_free (trim s).
Proof.
  intros H%arrow_free_trimStart. unfold trim.
  destruct (trimEnd_prefix (trimStart s)) as [w Hw]. rewrite Hw in H.
  by eapply arrow_free_prefix.
Qed.

(** The first piece of a split starts with the piece being read and
    goes on with a prefix of the text. *)
Lemma split_go_head (sep cur s : string) :
  ∃ p q rest, split_go sep 0 cur s = (cur +:+ p) :: rest ∧ s = p +:+ q.
Proof.
  revert cur. induction s as [|c s IH]; intros cur; cbn [split_go].
  - exists "", "", []. by rewrite str_app_nil_r.
  - destruct (has_prefix sep (String c s)).
    + exists "", (String c s). eexists. by rewrite str_app_nil_r.
    + destruct (IH (cur +:+ String c "")) as (p & q & rest & -> & ->).
      exists (String c p), q, rest. by rewrite str_app_snoc.
Qed.

(** A text with an arrow splits at its first arrow. *)
Lemma first_arrow (s : string) (n : nat) :
  indexOf s "->" = Some n →
  ∃ l r, s = l +:+ "->" +:+ r ∧ arrow_free l.
Proof.
  revert n. induction s as [|c s IH]; intros n H; [done |].
  cbn [indexOf] in H.
  destruct (has_prefix "->" (String c s)) eqn:E.
  - apply has_prefix_split in E as [r ->]. by exists "", r.
  - destruct (indexOf s "->") as [m|] eqn:Hm; [| done].
    destruct (IH m eq_refl) as (l & r & -> & Hl).
    exists (String c l), r. split; [done |].
    apply indexOf_None_cons; [| done].
    destruct (has_prefix "->" (String c l)) eqn:E'; [| done].
    apply (has_prefix_app_r _ _ ("->" +:+ r)) in E'.
    rewrite str_app_cons in E'. congruence.
Qed.

Lemma Production_new_lhs (raw : string) (p : Production) :
  Production_new raw = Done p →
  ∃ t, getLHS p = mkSymbol (Some t) ∧ arrow_free t.
Proof.
  unfold Production_new. intros H.
  destruct (indexOf raw "->") as [n|] eqn:Hn.
  - destruct (first_arrow _ _ Hn) as (l & r & -> & Hl).
    unfold js_split in H. rewrite split_arrow_first in H by done.
    cbn [lookup list_lookup] in H.
    destruct (split_go "->" 0 "" r !! 0); [| done].
    injection H as <-. eexists. split; [done |]. by apply arrow_free_trim.
  - unfold js_split in H.
    destruct (split_go_head "|" "" raw) as (q & q' & rest & Hs & ->).
    rewrite Hs in H. cbn [lookup list_lookup] in H.
    destruct (rest !! 0); [| done].
    injection H as <-. eexists. split; [done |].
    apply arrow_free_trim. rewrite str_app_nil_l.
    by eapply arrow_free_prefix.
Qed.

Lemma rhs_symbols_texts (tokens : list string) :
  Forall (fun x => is_Some (getSymbol x)) (rhs_symbols tokens).
Proof.
  induction tokens as [tokens IH] using (induction_ltof1 _ length).
  unfold ltof in IH.
  destruct tokens as [|t [|t' rest]]; cbn [rhs_symbols].
  - constructor.
  - repeat constructor. by eexists.
  - destruct (_ && _).
    + constructor; [by eexists |]. apply IH. simpl. lia.
    + constructor; [by eexists |]. apply (IH (t' :: rest)). simpl. lia.
Qed.

Lemma Production_new_rhs (raw : string) (p : Production) :
  Production_new raw = Done p →
  Forall (fun x => is_Some (getSymbol x)) (getRHS p).
Proof.
  unfold Production_new. intros H.
  destruct (js_split raw _ !! 0); [| done].
  destruct (js_split raw _ !! 1) as [s1|]; [| done].
  injection H as <-. cbn [getRHS _RHS].
  destruct (trim s1).
  - repeat constructor. by eexists.
  - apply rhs_symbols_texts.
Qed.

Lemma Production_new_ok (raw : string) (p : Production) :
  Production_new raw = Done p → production_ok p.
Proof.
  intros H. split; [| by eapply Production_new_rhs].
  destruct (Production_new_lhs _ _ H) as (t & Ht & Hfree).
  unfold lhs_text. by rewrite Ht.
Qed.

Lemma normalize_step_ok (st : NormState) (k : nat) (raw : string)
    (st' : NormState) :
  norm_ok st → normalize_step st k raw = Done st' → norm_ok st'.
Proof.
  intros [Hb Hc]. unfold normalize_step. intros H. obind_inv H.
  apply Production_new_ok in Ha as [Hl Hr].
  set (production := if negb (truthy (getSymbol (getLHS a)))
                     then setLHS a (currentNonTerminal st) else a) in *.
  assert (production_ok production) as Hp.
  { subst production. destruct (negb _); [| done]. by split. }
  obind_split H as st1 Hst1. injection H as <-. cbn.
  destruct (k =? 0).
  - obind_split Hst1 as aug Haug. injection Hst1 as <-. cbn.
    apply Production_new_ok in Haug.
    split; [| apply Hp]. cbn. rewrite !Forall_app, !Forall_singleton. done.
  - injection Hst1 as <-. cbn. split; [| apply Hp].
    cbn. rewrite Forall_app, Forall_singleton. done.
Qed.

Lemma normalize_from_ok (k : nat) (lines : list string) (st st' : NormState) :
  norm_ok st → normalize_from k lines st = Done st' → norm_ok st'.
Proof.
  revert k st. induction lines as [|raw lines IH]; intros k st Hok H;
    simpl in H.
  - by injection H as <-.
  - obind_inv H. eapply IH; [| done]. by eapply normalize_step_ok.
Qed.

(** In a grammar built from an input, left-hand sides print without an
    arrow and the symbols of right-hand sides are texts. *)
Lemma Grammar_new_ok (input : GrammarInput) (g : Grammar) :
  Grammar_new input = Done g → lhs_arrow_free g ∧ rhs_texts g.
Proof.
  unfold Grammar_new. intros H. obind_inv H. injection H as <-.
  assert (norm_ok norm_init) as H0 by (by split; [constructor |]).
  destruct (normalize_from_ok _ _ _ _ H0 Ha) as [Hb _].
  rewrite Forall_forall in Hb.
  split; intros k p Hkp; by destruct (Hb _ Hkp).
Qed.

(** Two keys that agree were printed from the same left-hand side
    text. *)
Lemma arrow_prefix_unique (L L' R R' : string) :
  arrow_free L → arrow_free L' →
  L +:+ " -> " +:+ R = L' +:+ " -> " +:+ R' → L = L'.
Proof.
  assert (∀ l r r', arrow_free l → " -> " +:+ r = l +:+ " -> " +:+ r' →
                    l = "") as Hnil.
  { intros l r r' Hl H. destruct l as [|a [|b [|c l]]]; [done | | |].
    - discriminate H.
    - discriminate H.
    - injection H as <- <- <- _. discriminate Hl. }
  revert L'. induction L as [|a L IH]; intros L' HL HL' H.
  - symmetry. by eapply Hnil.
  - destruct L' as [|a' L'].
    + by eapply Hnil.
    + rewrite !str_app_cons in H. injection H as <- H.
      f_equal. apply IH; [by eapply arrow_free_tail
                         | by eapply arrow_free_tail | done].
Qed.

Lemma keyForItem_lhs (p p' : Production) :
  arrow_free (lhs_text p) → arrow_free (lhs_text p') →
  keyForItem p 0 = keyForItem p' 0 → lhs_text p = lhs_text p'.
Proof. intros Hp Hp' H. by eapply arrow_prefix_unique. Qed.

(** ** The augmented production *)

(** The augmented production of a start symbol that is one token. *)
Lemma Production_new_augmented (S : string) :
  truthy (Some S) = true → no_ws S = true → arrow_free S →
  Production_new (augmented_raw (Some S)) =
    Done {| _raw := augmented_raw (Some S);
            _LHS := mkSymbol (Some (S +:+ "'"));
            _RHS := [mkSymbol (Some S)] |}.
Proof.
  intros Hne Hws HS. unfold arrow_free in HS.
  unfold augmented_raw, to_string.
  assert (S +:+ "' -> " +:+ S = (S +:+ "' ") +:+ "->" +:+ (" " +:+ S)) as Hraw.
  { by rewrite str_app_assoc. }
  unfold Production_new. rewrite Hraw.
  destruct (indexOf_app_sep (S +:+ "' ") "->" (" " +:+ S)) as [n ->].
  unfold js_split.
  rewrite split_arrow_first by (by apply indexOf_arrow_app).
  rewrite split_go_absent by (by apply indexOf_None_cons).
  cbn [lookup list_lookup]. rewrite !str_app_nil_l.
  unfold trim.
  assert (trimStart (S +:+ "' ") = S +:+ "' ") as ->.
  { destruct S as [|c S]; [done |]. rewrite str_app_cons.
    cbn [no_ws trimStart] in *. apply andb_prop in Hws as [Hc _].
    apply negb_true_iff in Hc. by rewrite Hc. }
  rewrite trimEnd_app_mark.
  change (trimStart (" " +:+ S)) with (trimStart S).
  rewrite trimStart_token, trimEnd_no_ws by done.
  rewrite Hne. unfold split_ws. rewrite split_ws_go_no_ws by done.
  by rewrite str_app_nil_l.
Qed.



(** ** Termination of the construction *)

Lemma registered_session (h h' : Heap) (r : nat) :
  session h h' → registered h r → registered h' r.
Proof.
  intros Hs [key Hk]. exists key.
  by eapply lookup_weaken, ext_registry, session_ext.
Qed.

Lemma closure_grows_refl (c : nat) (h : Heap) (cl : Closure) :
  heap_closures h !! c = Some cl → closure_grows c h h.
Proof.
  intros Hc. exists cl, cl, []. by rewrite app_nil_r.
Qed.

Lemma closure_grows_trans (c : nat) (h1 h2 h3 : Heap) :
  closure_grows c h1 h2 → closure_grows c h2 h3 → session h2 h3 →
  closure_grows c h1 h3.
Proof.
  intros (cl1 & cl2 & a1 & H1 & H2 & Hk & Hi & Hr)
         (cl2' & cl3 & a2 & H2' & H3 & Hk' & Hi' & Hr') Hs.
  assert (cl2' = cl2) as -> by congruence.
  exists cl1, cl3, (a1 ++ a2). split; [done |]. split; [done |].
  split; [congruence |]. split; [by rewrite Hi', Hi, app_assoc |].
  apply Forall_app. split; [| done].
  eapply Forall_impl; [exact Hr |]. intros r. by apply registered_session.
Qed.

Lemma length_filter_mono {A} (P Q : A → Prop)
    `{∀ x, Decision (P x)} `{∀ x, Decision (Q x)} (l : list A) :
  (∀ x, x ∈ l → P x → Q x) →
  length (filter P l) ≤ length (filter Q l).
Proof.
  induction l as [|a l IH]; intros HPQ; [done |].
  rewrite !filter_cons.
  assert (length (filter P l) ≤ length (filter Q l)) as Hl.
  { apply IH. intros x Hx. apply HPQ. by right. }
  destruct (decide (P a)) as [Hp|Hp], (decide (Q a)) as [Hq|Hq]; cbn;
    try lia.
  destruct Hq. apply HPQ; [by left | done].
Qed.

Lemma length_filter_strict {A} (P Q : A → Prop)
    `{∀ x, Decision (P x)} `{∀ x, Decision (Q x)} (l : list A) (a : A) :
  (∀ x, x ∈ l → P x → Q x) → a ∈ l → Q a → ¬ P a →
  length (filter P l) < length (filter Q l).
Proof.
  induction l as [|b l IH]; intros HPQ Ha Hq Hp; [by apply elem_of_nil in Ha |].
  rewrite !filter_cons.
  assert (length (filter P l) ≤ length (filter Q l)) as Hl.
  { apply length_filter_mono. intros x Hx. apply HPQ. by right. }
  apply elem_of_cons in Ha as [<- | Ha].
  - rewrite (decide_False (P := P a)), (decide_True (P := Q a)) by done.
    cbn. lia.
  - assert (length (filter P l) < length (filter Q l)) as Hlt.
    { apply IH; [| done | done | done]. intros x Hx. apply HPQ. by right. }
    destruct (decide (P b)) as [Hpb|Hpb], (decide (Q b)) as [Hqb|Hqb]; cbn;
      try lia.
    destruct Hqb. apply HPQ; [by left | done].
Qed.

Section Termination.
Variable g : Grammar.
Variable rank : string → nat.
Hypothesis Hranked : ranked g rank.
Hypothesis Hrhs : rhs_texts g.
Hypothesis Harrow : lhs_arrow_free g.

Lemma wf_LRItem_new (h : Heap) (k : nat) (p : Production) (dot : nat) :
  heap_wf g h → (k, p) ∈ _bnf g → dot ≤ length (getRHS p) →
  heap_wf g (LRItem_new p dot g h).2.
Proof.
  intros [WI WR WC] Hp Hdot. split; cbn.
  - intros i it [Hi | [_ Hi]]%lookup_app_Some; [by eapply WI |].
    apply list_lookup_singleton_Some in Hi as [_ <-]. cbn. eauto.
  - intros key r Hk. destruct (WR key r Hk) as (it & Hi & Hd & Hkey).
    exists it. split; [by apply lookup_app_l_Some | done].
  - intros c cl Hc. destruct (WC c cl Hc) as [Hg [it Hi]].
    split; [done |]. exists it. by apply lookup_app_l_Some.
Qed.

Lemma wf_added_item (h : Heap) (k : nat) (p : Production) (i : nat)
    (h1 : Heap) :
  heap_wf g h → (k, p) ∈ _bnf g → added_item p g h = (i, h1) →
  heap_wf g h1 ∧ registered h1 i ∧
  ∃ it, heap_items h1 !! i = Some it ∧ _dotPosition it = 0 ∧
        lhs_text (_production it) = lhs_text p.
Proof.
  intros Hwf Hp. unfold added_item.
  destruct (LRItemsRegistry h !! keyForItem p 0) as [r|] eqn:Hk.
  - intros [= <- <-]. split; [done |]. split; [by eexists |].
    destruct (wf_registry _ _ Hwf _ _ Hk) as (it & Hi & Hd & Hkey).
    exists it. split; [done |]. split; [done |].
    destruct (wf_items _ _ Hwf _ _ Hi) as (_ & [k' Hk'] & _).
    apply keyForItem_lhs; [by eapply Harrow | by eapply Harrow | done].
  - intros [= <- <-].
    pose proof (wf_LRItem_new h k p 0 Hwf Hp ltac:(lia)) as [WI WR WC].
    split; [| split].
    + split; cbn.
      * exact WI.
      * intros key r [[<- <-] | [_ Hr]]%lookup_insert_Some.
        -- eexists. split; [apply LRItem_new_lookup | done].
        -- by apply WR.
      * exact WC.
    + eexists. cbn. apply lookup_insert_eq.
    + eexists. split; [apply LRItem_new_lookup | done].
Qed.

Lemma wf_push_item (h : Heap) (c i : nat) :
  heap_wf g h → is_Some (heap_items h !! i) → heap_wf g (push_item c i h).
Proof.
  intros [WI WR WC] Hi. split; cbn; [done | done |].
  intros c' cl. rewrite list_lookup_alter.
  destruct (decide (c = c')) as [<- |]; [| apply WC].
  destruct (heap_closures h !! c) as [cl0|] eqn:Hc; [| done].
  intros [= <-]. cbn. split; [| done]. by destruct (WC c cl0 Hc).
Qed.

Lemma wf_closure_allocated (h : Heap) (k : nat) :
  heap_wf g h → is_Some (heap_items h !! k) →
  heap_wf g (closure_allocated k g h).
Proof.
  intros [WI WR WC] Hk. split; cbn; [done | done |].
  intros c cl [Hc | [_ Hc]]%lookup_app_Some; [by eapply WC |].
  apply list_lookup_singleton_Some in Hc as [_ <-]. by split.
Qed.

Lemma wf_alter_item (h : Heap) (i : nat) (f : LRItem → LRItem)
    (items' := alter f i (heap_items h)) :
  (∀ it, _production (f it) = _production it ∧
         _dotPosition (f it) = _dotPosition it ∧
         _grammar (f it) = _grammar it) →
  heap_wf g h →
  heap_wf g {| heap_items := items'; heap_closures := heap_closures h;
               LRItemsRegistry := LRItemsRegistry h |}.
Proof.
  intros Hf [WI WR WC]. subst items'. split; cbn.
  - intros j it. rewrite list_lookup_alter.
    destruct (decide (i = j)) as [<- |]; [| apply WI].
    destruct (heap_items h !! i) as [x|] eqn:Hx; [| done].
    intros [= <-]. destruct (Hf x) as (-> & -> & ->). by eapply WI.
  - intros key r Hk. destruct (WR key r Hk) as (it & Hi & Hd & Hkey).
    rewrite list_lookup_alter.
    destruct (decide (i = r)) as [<- |]; [| eauto].
    rewrite Hi. eexists. split; [done |].
    destruct (Hf it) as (-> & -> & _). done.
  - intros c cl Hc. destruct (WC c cl Hc) as [Hg Hi]. split; [done |].
    apply lookup_lt_is_Some. rewrite length_alter.
    by apply lookup_lt_is_Some.
Qed.

Lemma wf_set_gotoPointer (h : Heap) (i : nat) (c : option nat) :
  heap_wf g h → heap_wf g (set_gotoPointer i c h).
Proof. by apply wf_alter_item. Qed.

Lemma wf_set_closure (h : Heap) (i : nat) (c : option nat) :
  heap_wf g h → heap_wf g (set_closure i c h).
Proof. by apply wf_alter_item. Qed.

(** A dot-0 item of a production for [y] needs less depth than an
    item with [y] at the dot. *)
Lemma sym_need_first (it : LRItem) (k : nat) :
  (k, _production it) ∈ _bnf g → _dotPosition it = 0 →
  sym_need rank it ≤ rank (lhs_text (_production it)) + 1.
Proof.
  intros Hp Hd. unfold sym_need, getCurrentSymbol. rewrite Hd.
  destruct (getRHS (_production it) !! 0) as [[y]|] eqn:Hx; [| lia].
  cbn. destruct y as [y|]; [| lia].
  destruct (isTerminal _) as [[|] | |] eqn:Ht; try lia.
  pose proof (Hranked _ _ _ Hp Hx Ht). lia.
Qed.

Lemma build_loop_total (rec : nat → Heap → outcome Heap) (c : nat)
    (y : string) (prods : list (nat * Production)) (h : Heap) :
  (∀ h cl cur,
      heap_wf g h → heap_closures h !! c = Some cl →
      heap_items h !! _currentItem cl = Some cur →
      sym_need rank cur ≤ rank y + 1 →
      ∃ h', rec c h = Done h' ∧ build_post g c h h') →
  Forall (fun kp => kp ∈ _bnf g ∧ lhs_text kp.2 = y) prods →
  heap_wf g h → is_Some (heap_closures h !! c) →
  ∃ h', build_loop rec c prods h = Done h' ∧ build_post g c h h'.
Proof.
  intros Hrec. revert h.
  induction prods as [|[k p] prods IH]; intros h Hprods Hwf [cl Hc].
  - exists h. split; [done |]. split; [done |].
    split; [apply rtc_refl | by eapply closure_grows_refl].
  - apply Forall_cons in Hprods as [[Hp Hy] Hprods]. cbn in Hy.
    cbn [build_loop]. unfold get_closure. rewrite Hc. cbn [obind].
    destruct (wf_closures _ _ Hwf _ _ Hc) as [-> _].
    destruct (added_item p g h) as [i h1] eqn:Hadd.
    destruct (wf_added_item _ _ _ _ _ Hwf Hp Hadd)
      as (Hwf1 & Hreg & it & Hi & Hd & Hl).
    assert (session h h1) as S1.
    { replace h1 with (added_item p g h).2 by (by rewrite Hadd).
      apply session_one, step_added_item. }
    pose proof (ext_closures _ _ (session_ext _ _ S1) _ _ Hc)
      as (cl1 & Hc1 & _).
    assert (heap_closures h1 = heap_closures h) as Hcl1.
    { unfold added_item in Hadd.
      destruct (LRItemsRegistry h !! keyForItem p 0);
        by injection Hadd as <- <-. }
    set (h2 := push_item c i h1).
    assert (heap_wf g h2) as Hwf2 by (by apply wf_push_item).
    assert (heap_closures h2 !! c =
            Some {| _kernelItem := _kernelItem cl; _currentItem := i;
                    _items := _items cl ++ [i];
                    _grammar_c := _grammar_c cl |}) as Hc2.
    { subst h2. cbn. by rewrite list_lookup_alter_eq, Hcl1, Hc. }
    destruct (wf_items _ _ Hwf1 _ _ Hi) as (_ & [k' Hk'] & _).
    destruct (Hrec h2 _ it Hwf2 Hc2 Hi) as (h3 & Hrec3 & Hwf3 & S3 & G3).
    { rewrite <- Hy, <- Hl. by eapply sym_need_first. }
    rewrite Hrec3. cbn [obind].
    destruct G3 as (cl2 & cl3 & added & Hc2' & Hc3 & Hk3 & Hi3 & Hr3).
    destruct (IH h3 Hprods Hwf3 ltac:(eauto)) as (h4 & H4 & Hwf4 & S4 & G4).
    exists h4. split; [done |]. split; [done |].
    assert (session h h3) as S03.
    { eapply session_trans; [exact S1 |].
      eapply session_trans; [apply session_one, step_push_item | done]. }
    split; [by eapply session_trans |].
    eapply closure_grows_trans; [| exact G4 | exact S4].
    assert (cl2 = {| _kernelItem := _kernelItem cl; _currentItem := i;
                     _items := _items cl ++ [i];
                     _grammar_c := _grammar_c cl |}) as -> by congruence.
    exists cl, cl3, (i :: added). split; [done |]. split; [done |].
    split; [done |]. split; [by rewrite Hi3; cbn; rewrite <- app_assoc |].
    constructor; [| done].
    eapply registered_session; [| exact Hreg].
    eapply session_trans; [apply session_one, step_push_item | done].
Qed.

Lemma Closure_build_total (fuel c : nat) (h : Heap) (cl : Closure)
    (cur : LRItem) :
  heap_wf g h → heap_closures h !! c = Some cl →
  heap_items h !! _currentItem cl = Some cur →
  sym_need rank cur ≤ fuel →
  ∃ h', Closure_build fuel c h = Done h' ∧ build_post g c h h'.
Proof.
  revert c h cl cur.
  induction fuel as [|fuel IH]; intros c h cl cur Hwf Hc Hcur Hneed.
  { unfold sym_need in Hneed.
    destruct (getCurrentSymbol cur) as [x|]; [| lia].
    destruct (getSymbol x), (isTerminal x) as [[|] | |]; lia. }
  assert (∃ h', Done h = Done h' ∧ build_post g c h h') as Hstop.
  { exists h. split; [done |]. split; [done |].
    split; [apply rtc_refl | by eapply closure_grows_refl]. }
  cbn [Closure_build]. unfold get_closure, get_item.
  rewrite Hc. cbn [obind]. rewrite Hcur. cbn [obind].
  destruct (wf_items _ _ Hwf _ _ Hcur) as (_ & [k Hk] & Hdot).
  destruct (wf_closures _ _ Hwf _ _ Hc) as [Hg _].
  unfold shouldClosure. destruct (isFinal cur) eqn:Hf; [exact Hstop |].
  unfold isFinal in Hf. apply Nat.eqb_neq in Hf.
  unfold sym_need in Hneed. unfold current_productions.
  destruct (getCurrentSymbol cur) as [x|] eqn:Hx.
  2:{ unfold getCurrentSymbol in Hx. apply lookup_ge_None in Hx. lia. }
  assert (is_Some (getSymbol x)) as [y Hy].
  { pose proof (Hrhs _ _ Hk) as HF. rewrite Forall_forall in HF.
    apply HF. by eapply list_elem_of_lookup_2. }
  rewrite Hy in Hneed. unfold isNonTerminal. unfold getSymbol in Hy.
  destruct (isTerminal x) as [t | e |] eqn:Ht;
    [| unfold isTerminal in Ht; by rewrite Hy in Ht ..].
  cbn [obind negb]. destruct t; [exact Hstop |]. cbn [negb].
  rewrite Hg. apply (build_loop_total _ _ y); [| | done | eauto].
  - intros h0 cl0 cur0 Hwf0 Hc0 Hcur0 Hn0.
    eapply IH; [done | done | done | lia].
  - unfold getProductionsForGrammarSymbol, getProductionsForSymbol.
    apply Forall_forall. intros [n p] [Hs Hin]%list_elem_of_filter.
    split; [done |]. cbn in *. apply isSymbol_true in Hs.
    unfold lhs_text, getSymbol in *. by rewrite Hs, Hy.
Qed.

Lemma Closure_new_total (fuel k : nat) (h : Heap) (it : LRItem) :
  heap_wf g h → heap_items h !! k = Some it →
  sym_need rank it ≤ fuel →
  ∃ h' cl' added,
    Closure_new fuel k g h = Done (length (heap_closures h), h') ∧
    heap_wf g h' ∧ session h h' ∧
    heap_closures h' !! length (heap_closures h) = Some cl' ∧
    _items cl' = k :: added ∧ Forall (registered h') added.
Proof.
  intros Hwf Hk Hneed. unfold Closure_new.
  set (c := length (heap_closures h)).
  set (h1 := closure_allocated k g h).
  assert (heap_wf g h1) as Hwf1 by (by apply wf_closure_allocated).
  assert (heap_closures h1 !! c =
          Some {| _kernelItem := k; _currentItem := k; _items := [k];
                  _grammar_c := g |}) as Hc1.
  { subst h1 c. cbn. by rewrite lookup_app_r, Nat.sub_diag. }
  destruct (Closure_build_total fuel c h1 _ it Hwf1 Hc1 Hk Hneed)
    as (h' & Hb & Hwf' & S' & cl1 & cl' & added & Hc1' & Hc' & _ & Hi & Hr).
  rewrite Hb. cbn [obind]. exists h', cl', added.
  assert (cl1 = {| _kernelItem := k; _currentItem := k; _items := [k];
                   _grammar_c := g |}) as -> by congruence.
  split; [done |]. split; [done |].
  split; [eapply session_trans;
            [apply session_one, step_closure_allocated | done] |].
  by split.
Qed.

(** *** goto *)

Variable base : nat.
Hypothesis Hbase : ∀ it, sym_need rank it ≤ base.

Lemma sym_need_pos (it : LRItem) : 1 ≤ sym_need rank it.
Proof.
  unfold sym_need. destruct (getCurrentSymbol it) as [x|]; [| lia].
  destruct (getSymbol x), (isTerminal x) as [[|] | |]; lia.
Qed.

Lemma max_rhs_le (k : nat) (p : Production) :
  (k, p) ∈ _bnf g → length (getRHS p) ≤ max_rhs g.
Proof.
  intros Hp. apply max_list_elem_of_le.
  apply (list_elem_of_fmap_2 (fun kp => length (getRHS kp.2)) _ _ Hp).
Qed.

Lemma key_connected_session (h h' : Heap) (key : string) :
  session h h' → key_connected h key = true → key_connected h' key = true.
Proof.
  intros Hs. unfold key_connected.
  destruct (LRItemsRegistry h !! key) as [r|] eqn:Hr; [| done].
  rewrite (lookup_weaken _ _ _ _ Hr (ext_registry _ _ (session_ext _ _ Hs))).
  destruct (heap_items h !! r) as [it|] eqn:Hi; [| done].
  unfold isConnected. destruct (_gotoPointer it) as [c|] eqn:Hc; [| done].
  destruct (session_connected _ _ _ _ _ Hs Hi Hc) as (it' & -> & ->). done.
Qed.

Lemma unconnected_session (h h' : Heap) :
  session h h' → unconnected g h' ≤ unconnected g h.
Proof.
  intros Hs. unfold unconnected. apply length_filter_mono.
  intros kp _ H'. apply not_true_iff_false. intros H.
  apply (key_connected_session _ _ _ Hs) in H. congruence.
Qed.

Lemma unconnected_le (h : Heap) : unconnected g h ≤ length (_bnf g).
Proof. apply length_filter. Qed.

(** Connecting the registered item of a production leaves one
    unconnected production less. *)
Lemma unconnected_connect (h : Heap) (i c : nat) (it : LRItem) (k : nat) :
  heap_items h !! i = Some it → isConnected it = false →
  isFinal it = false →
  (k, _production it) ∈ _bnf g →
  LRItemsRegistry h !! keyForItem (_production it) 0 = Some i →
  unconnected g (set_gotoPointer i (Some c) h) < unconnected g h.
Proof.
  intros Hi Hc Hf Hp Hr.
  assert (session h (set_gotoPointer i (Some c) h)) as Hs.
  { by apply session_one, (step_connect i c h it). }
  assert (key_connected h (keyForItem (_production it) 0) = false) as Hk.
  { unfold key_connected. by rewrite Hr, Hi. }
  assert (key_connected (set_gotoPointer i (Some c) h)
            (keyForItem (_production it) 0) = true) as Hk'.
  { unfold key_connected. cbn. by rewrite Hr, list_lookup_alter_eq, Hi. }
  unfold unconnected.
  apply (length_filter_strict _ _ _ (k, _production it)); [| done | done |].
  - intros kp _ H'. apply not_true_iff_false. intros H.
    apply (key_connected_session _ _ _ Hs) in H. congruence.
  - cbn. congruence.
Qed.

Lemma item_ok_session (U f : nat) (h h' : Heap) (j : nat) :
  session h h' → item_ok g base U f h j → item_ok g base U f h' j.
Proof.
  intros Hs (it & Hi & Hok).
  destruct (ext_items _ _ (session_ext _ _ Hs) _ _ Hi)
    as (it' & Hi' & Hp & Hd & _).
  exists it'. split; [done |]. rewrite Hp, Hd.
  destruct Hok as [[Hr Hb] | Hb]; [left | by right].
  split; [| done].
  by eapply lookup_weaken, ext_registry, session_ext.
Qed.

Lemma item_ok_need (U f : nat) (h : Heap) (j : nat) (it : LRItem) :
  unconnected g h ≤ U → heap_items h !! j = Some it →
  item_ok g base U f h j → goto_need g base h j it ≤ f.
Proof.
  intros HU Hj (it' & Hj' & Hok). assert (it' = it) as -> by congruence.
  unfold goto_need.
  assert (unconnected g h * (max_rhs g + 2) ≤ U * (max_rhs g + 2))
    by (by apply Nat.mul_le_mono_r).
  destruct Hok as [[Hr Hb] | Hb].
  - rewrite bool_decide_eq_true_2 by done. lia.
  - case_bool_decide; lia.
Qed.

Lemma forEach_goto_total (f U : nat) (items : list nat) (h : Heap) :
  (∀ i h it,
      heap_wf g h → heap_items h !! i = Some it →
      goto_need g base h i it ≤ f →
      ∃ r h', LRItem_goto f i h = Done (r, h') ∧ heap_wf g h') →
  heap_wf g h → unconnected g h ≤ U →
  Forall (item_ok g base U f h) items →
  ∃ h', forEach_goto (LRItem_goto f) items h = Done h' ∧ heap_wf g h'.
Proof.
  intros IHf. revert h.
  induction items as [|j items IH]; intros h Hwf HU Hok; [by exists h |].
  apply Forall_cons in Hok as [Hj Hok]. cbn [forEach_goto].
  destruct Hj as (it & Hi & Hj).
  destruct (IHf j h it Hwf Hi) as (r & h1 & Hgo & Hwf1).
  { eapply item_ok_need; [done | done | by exists it]. }
  rewrite Hgo. cbn [obind].
  pose proof (LRItem_goto_session _ _ _ _ _ Hgo) as Hs.
  apply IH; [done | |].
  - pose proof (unconnected_session _ _ Hs). lia.
  - eapply Forall_impl; [exact Hok |]. intros x. by apply item_ok_session.
Qed.

Lemma LRItem_goto_total (fuel i : nat) (h : Heap) (it : LRItem) :
  heap_wf g h → heap_items h !! i = Some it →
  goto_need g base h i it ≤ fuel →
  ∃ r h', LRItem_goto fuel i h = Done (r, h') ∧ heap_wf g h'.
Proof.
  revert i h it. induction fuel as [|fuel IH]; intros i h it Hwf Hi Hneed.
  { pose proof (Hbase it). pose proof (sym_need_pos it).
    unfold goto_need in Hneed. lia. }
  cbn [LRItem_goto]. unfold get_item at 1. rewrite Hi. cbn [obind].
  destruct (isFinal it) eqn:Hf; cbn [negb andb]; [by eauto |].
  destruct (isConnected it) eqn:Hc; cbn [negb]; [by eauto |].
  destruct (wf_items _ _ Hwf _ _ Hi) as (Hg & [k Hk] & Hdot).
  assert (_dotPosition it < length (getRHS (_production it))) as Hlt.
  { unfold isFinal in Hf. apply Nat.eqb_neq in Hf. lia. }
  rewrite (advance_guarded i h it (proj2 (get_item_Done _ _ _) Hi) Hf).
  cbn [obind]. rewrite Hg.
  destruct (LRItem_new (_production it) (_dotPosition it + 1) g h)
    as [adv h1] eqn:Hnew.
  assert (heap_wf g h1) as Hwf1.
  { replace h1 with
      (LRItem_new (_production it) (_dotPosition it + 1) g h).2
      by (by rewrite Hnew).
    eapply wf_LRItem_new; [done | done | lia]. }
  assert (heap_items h1 !! adv =
          Some {| _production := _production it;
                  _dotPosition := _dotPosition it + 1; _grammar := g;
                  _closure := None; _gotoPointer := None |}) as Hadv.
  { pose proof (LRItem_new_lookup (_production it) (_dotPosition it + 1) g h)
      as Hl. by rewrite Hnew in Hl. }
  assert (session h h1) as S1.
  { apply session_one, (step_advance i h adv h1).
    by rewrite (advance_guarded i h it (proj2 (get_item_Done _ _ _) Hi) Hf),
      Hg, Hnew. }
  pose proof (max_rhs_le _ _ Hk) as Hmax.
  (* the unconnected item accounts for at least two levels *)
  assert (base + 1 ≤ fuel ∧
          ∀ U, (LRItemsRegistry h !! keyForItem (_production it) 0 = Some i →
                U < unconnected g h) →
               U ≤ unconnected g h →
               base + U * (max_rhs g + 2) +
                 (length (getRHS (_production it)) - (_dotPosition it + 1))
                 + 1 ≤ fuel) as [Hfuel Hbound].
  { unfold goto_need in Hneed. case_bool_decide as Hreg.
    - destruct (wf_registry _ _ Hwf _ _ Hreg) as (it0 & Hi0 & Hd0 & _).
      assert (it0 = it) as -> by congruence.
      assert (0 < unconnected g h) as Hpos.
      { unfold unconnected.
        assert (key_connected h (keyForItem (_production it) 0) = false)
          as Hkc by (unfold key_connected; by rewrite Hreg, Hi).
        pose proof (list_elem_of_filter
          (fun kp => key_connected h (keyForItem kp.2 0) = false)
          (_bnf g) (k, _production it)) as [_ Hin].
        specialize (Hin (conj Hkc Hk)).
        destruct (filter _ (_bnf g)); [by apply elem_of_nil in Hin |].
        cbn. lia. }
      split; [nia |]. intros U HU _. specialize (HU Hreg). nia.
    - split; [nia |]. intros U _ HU.
      assert (U * (max_rhs g + 2) ≤ unconnected g h * (max_rhs g + 2))
        by (by apply Nat.mul_le_mono_r).
      lia. }
  destruct (Closure_new_total fuel adv h1 _ Hwf1 Hadv)
    as (h2 & cl' & added & Hcn & Hwf2 & S2 & Hc2 & Hitems & Hregd).
  { pose proof (Hbase
      {| _production := _production it;
         _dotPosition := _dotPosition it + 1; _grammar := g;
         _closure := None; _gotoPointer := None |}). lia. }
  rewrite Hcn. cbn [obind].
  set (c := length (heap_closures h1)) in *.
  assert (heap_items h2 !! i = Some it) as Hi2.
  { eapply Closure_new_kept; [exact Hcn |].
    replace h1 with
      (LRItem_new (_production it) (_dotPosition it + 1) g h).2
      by (by rewrite Hnew).
    by apply LRItem_new_old. }
  set (h3 := set_gotoPointer i (Some c) h2).
  assert (heap_wf g h3) as Hwf3 by (by apply wf_set_gotoPointer).
  assert (session h2 h3) as S3.
  { by apply session_one, (step_connect i c h2 it). }
  assert (session h h2) as S02 by (by eapply session_trans).
  unfold Closure_goto_with, get_closure.
  assert (heap_closures h3 !! c = Some cl') as -> by done.
  cbn [obind]. unfold getItems. rewrite Hitems.
  destruct (forEach_goto_total fuel (unconnected g h3) (adv :: added) h3)
    as (h4 & Hfe & Hwf4); [exact IH | done | done | |].
  { assert (unconnected g h3 ≤ unconnected g h) as HU.
    { pose proof (unconnected_session _ _ S02).
      pose proof (unconnected_session _ _ S3). lia. }
    assert (LRItemsRegistry h !! keyForItem (_production it) 0 = Some i →
            unconnected g h3 < unconnected g h) as HUlt.
    { intros Hreg.
      pose proof (unconnected_session _ _ S02).
      pose proof (unconnected_connect h2 i c it k Hi2 Hc Hf Hk
        (lookup_weaken _ _ _ _ Hreg
           (ext_registry _ _ (session_ext _ _ S02)))).
      fold h3 in H0. lia. }
    constructor.
    - destruct (ext_items _ _ (session_ext _ _ (session_trans _ _ _ S2 S3))
                  _ _ Hadv) as (adv' & Hadv' & Hp & Hd & _).
      exists adv'. split; [done |]. right. rewrite Hp, Hd. cbn.
      by apply Hbound.
    - eapply Forall_impl; [exact Hregd |]. intros j [key Hkey].
      destruct (wf_registry _ _ Hwf3 key j) as (itj & Hj & Hdj & Hkj);
        [done |].
      exists itj. split; [done |]. left. split; [by rewrite Hkj |].
      specialize (Hbound (unconnected g h3) HUlt HU). lia. }
  rewrite Hfe. cbn [obind].
  pose proof (forEach_goto_session _ _ _ _
    (fun i h r h' => LRItem_goto_session fuel i h r h') Hfe) as S4.
  assert (is_Some (heap_items h3 !! i)) as [it3 Hi3].
  { apply lookup_lt_is_Some. cbn. rewrite length_alter.
    by eapply lookup_lt_Some. }
  destruct (ext_items _ _ (session_ext _ _ S4) _ _ Hi3) as (it4 & Hi4 & _).
  unfold get_item. rewrite Hi4. cbn [obind]. eauto.
Qed.

End Termination.

Lemma bounded_rank_ranked (g : Grammar) (rank : string → nat) :
  ranked g rank → ranked g (bounded_rank g rank).
Proof.
  intros Hr k p y Hp Hy Ht. unfold bounded_rank.
  assert (Exists (fun kp => lhs_text kp.2 = lhs_text p) (_bnf g)) as HE.
  { apply Exists_exists. by exists (k, p). }
  pose proof (Hr _ _ _ Hp Hy Ht).
  destruct (decide (Exists (fun kp => lhs_text kp.2 = lhs_text p) (_bnf g)));
    [| done].
  destruct (decide _); lia.
Qed.

Lemma bounded_rank_le (g : Grammar) (rank : string → nat) (y : string) :
  bounded_rank g rank y ≤ rank_bound g rank.
Proof.
  unfold bounded_rank, rank_bound.
  destruct (decide _) as [[kp [Hin <-]]%Exists_exists |]; [| lia].
  apply max_list_elem_of_le.
  apply (list_elem_of_fmap_2 (fun kp => rank (lhs_text kp.2)) _ _ Hin).
Qed.

Lemma sym_need_bounded (g : Grammar) (rank : string → nat) (it : LRItem) :
  sym_need (bounded_rank g rank) it ≤ rank_bound g rank + 2.
Proof.
  unfold sym_need. destruct (getCurrentSymbol it) as [x|]; [| lia].
  destruct (getSymbol x) as [y|]; [| lia].
  pose proof (bounded_rank_le g rank y).
  destruct (isTerminal x) as [[|] | |]; lia.
Qed.

Lemma heap_wf_empty (g : Grammar) : heap_wf g empty_heap.
Proof. by split. Qed.

(** With enough recursion depth the driver returns, for a grammar
    without left recursion whose start symbol is a non-terminal. *)
Lemma canonical_collection_total (g : Grammar) (rank : string → nat)
    (fuel : nat) (augmented : Production) (x : GrammarSymbol) :
  ranked g rank → rhs_texts g → lhs_arrow_free g →
  getAugmentedProduction g = Some augmented → (0, augmented) ∈ _bnf g →
  getRHS augmented !! 0 = Some x → isTerminal x = Done false →
  enough_fuel g rank ≤ fuel →
  ∃ kernel h, canonical_collection fuel g = Done (kernel, h) ∧ heap_wf g h.
Proof.
  intros Hr%bounded_rank_ranked Hrhs Harrow Haug Hin Hx Ht Hfuel.
  unfold enough_fuel in Hfuel.
  set (base := rank_bound g rank + 2) in *.
  pose proof (sym_need_bounded g rank) as Hbase. fold base in Hbase.
  unfold canonical_collection, root_item. rewrite Haug. cbn [obind].
  set (root := {| _production := augmented; _dotPosition := 0; _grammar := g;
                  _closure := None; _gotoPointer := None |}).
  set (h0 := {| heap_items := [root]; heap_closures := [];
                LRItemsRegistry := ∅ |}).
  change (LRItem_new augmented 0 g empty_heap) with (0, h0).
  assert (heap_wf g h0) as Hwf0.
  { apply (wf_LRItem_new g empty_heap 0 augmented 0);
      [apply heap_wf_empty | done | lia]. }
  assert (heap_items h0 !! 0 = Some root) as H0 by done.
  cbn [obind]. unfold LRItem_closure, get_item.
  rewrite H0. cbn [obind].
  assert (shouldClosure root = Done true) as ->.
  { assert (getCurrentSymbol root = Some x) as Hcs by exact Hx.
    unfold shouldClosure, isNonTerminal.
    by rewrite (getCurrentSymbol_not_final root x Hcs), Hcs, Ht. }
  cbn [obind negb _grammar root].
  destruct (Closure_new_total g _ Hr Hrhs Harrow fuel 0 h0 root Hwf0 H0)
    as (h1 & cl' & added & Hcn & Hwf1 & S1 & Hc1 & Hitems & Hregd).
  { pose proof (Hbase root). lia. }
  rewrite Hcn. cbn [obind].
  set (c := length (heap_closures h0)) in *.
  set (h2 := set_closure 0 (Some c) h1).
  assert (heap_wf g h2) as Hwf2 by (by apply wf_set_closure).
  assert (session h1 h2) as S2 by apply session_one, step_set_closure.
  unfold Closure_goto, Closure_goto_with, get_closure.
  assert (heap_closures h2 !! c = Some cl') as -> by done.
  cbn [obind]. unfold getItems. rewrite Hitems.
  destruct (forEach_goto_total g base fuel (length (_bnf g)) (0 :: added) h2)
    as (h3 & Hfe & Hwf3); [| done | apply length_filter | |].
  - intros i h it. by apply (LRItem_goto_total g _ Hr Hrhs Harrow base Hbase).
  - constructor.
    + destruct (ext_items _ _ (session_ext _ _ (session_trans _ _ _ S1 S2))
                  _ _ H0) as (root' & Hroot' & Hp & Hd & _).
      exists root'. split; [done |]. right. rewrite Hp, Hd. cbn.
      assert (length (getRHS augmented) ≤ max_rhs g).
      { apply max_list_elem_of_le.
        apply (list_elem_of_fmap_2 (fun kp => length (getRHS kp.2)) _ _ Hin). }
      lia.
    + eapply Forall_impl; [exact Hregd |]. intros j [key Hkey].
      destruct (wf_registry _ _ Hwf2 key j) as (itj & Hj & Hdj & Hkj);
        [done |].
      exists itj. split; [done |]. left. split; [by rewrite Hkj | lia].
  - rewrite Hfe. cbn [obind]. eauto.
Qed.

(** Without a closurable root the driver throws at once. *)
Lemma canonical_collection_no_root (g : Grammar) (fuel : nat) :
  rhs_texts g →
  (∀ augmented, getAugmentedProduction g = Some augmented →
                (0, augmented) ∈ _bnf g) →
  ¬ root_closurable g → canonical_collection fuel g = Throw TypeError.
Proof.
  intros Hrhs Hin Hno. unfold canonical_collection, root_item.
  destruct (getAugmentedProduction g) as [aug|] eqn:Haug; [| done].
  cbn [obind]. unfold LRItem_closure, get_item. cbn.
  unfold shouldClosure, isFinal, getCurrentSymbol. cbn.
  destruct (getRHS aug) as [|x rhs] eqn:HR; [done |]. cbn.
  pose proof (Hrhs _ _ (Hin _ eq_refl)) as HF. rewrite HR in HF.
  apply Forall_cons in HF as [[y Hy] _].
  unfold isNonTerminal, isTerminal. unfold getSymbol in Hy. rewrite Hy. cbn.
  destruct (quoteRe_test (first_char y) && quoteRe_test (last_char y)) eqn:E;
    [done |].
  destruct Hno. exists aug, x. rewrite HR. split; [done |]. split; [done |].
  unfold isTerminal. by rewrite Hy, E.
Qed.


Lemma example_grammar_ranked (g : Grammar) :
  Grammar_new example_input = Done g → ranked g example_rank.
Proof.
  intros Hg. vm_compute in Hg. injection Hg as <-.
  intros k p y Hp Hy Ht. cbn [_bnf] in Hp.
  repeat (apply elem_of_cons in Hp as [Hp | Hp];
          [injection Hp as -> ->; cbn in Hy; injection Hy as <-;
           first [discriminate Ht | vm_compute; lia] |]).
  by apply elem_of_nil in Hp.
Qed.


(** *** Left recursion *)

Lemma left_recursive_grammar_built :
  Grammar_new left_recursive_input = Done left_recursive_grammar.
Proof. reflexivity. Qed.

Lemma build_diverges (fuel c : nat) (h : Heap) :
  diverging c h → Closure_build fuel c h = OutOfFuel.
Proof.
  revert c h. induction fuel as [|fuel IH]; intros c h Hdiv; [done |].
  destruct Hdiv as (cl & cur & Hc & Hg & Hcur & HE & Hreg).
  cbn [Closure_build]. unfold get_closure, get_item.
  rewrite Hc. cbn [obind]. rewrite Hcur. cbn [obind].
  unfold shouldClosure, current_productions.
  rewrite (getCurrentSymbol_not_final cur _ HE), HE, Hg.
  cbn [isNonTerminal isTerminal _symbol obind negb].
  change (getProductionsForGrammarSymbol left_recursive_grammar
            {| _symbol := Some "E" |})
    with [(1, E_plus_n); (2, E_n)].
  cbn [build_loop]. unfold get_closure. rewrite Hc. cbn [obind]. rewrite Hg.
  destruct (added_item E_plus_n left_recursive_grammar h) as [i h1] eqn:Hadd.
  rewrite IH; [done |].
  unfold added_item in Hadd.
  destruct (LRItemsRegistry h !! keyForItem E_plus_n 0) as [r|] eqn:Hr.
  - injection Hadd as <- <-. destruct (Hreg r eq_refl) as (it & Hit & HEit).
    eexists _, it. cbn. rewrite list_lookup_alter_eq, Hc. cbn.
    split; [done |]. split; [done |]. split; [done |]. split; [done |].
    intros r' Hr'. rewrite Hr in Hr'. injection Hr' as <-. eauto.
  - injection Hadd as <- <-.
    eexists _, _. cbn. rewrite list_lookup_alter_eq, Hc. cbn.
    split; [done |]. split; [done |].
    split; [by rewrite lookup_app_r, Nat.sub_diag |]. split; [done |].
    intros r'. rewrite lookup_insert_eq. intros [= <-].
    eexists. split; [by rewrite lookup_app_r, Nat.sub_diag | done].
Qed.


(** ** The source's own test, and instances of the theorems above *)

(** The two texts that the test of the source file prints, as its
    comments announce them. *)
Example source_test_prints :
  source_test 8 = Done ("S' -> S •", "S -> A A •").
Proof. vm_compute. reflexivity. Qed.

(** A start symbol with a run of blanks inside is printed with one blank
    on the right of the arrow: the hypothesis of
    [augmented_kernel_serialize] cannot be dropped. *)
Example augmented_key_joins_tokens :
  (let* g := Grammar_new (Lines ["A  B -> c"]) in
   let* (kernelItem, h) := root_item g empty_heap in
   let* it := get_item kernelItem h in
   Done (_startSymbol g, serialize it)) =
  Done (Some "A  B", "A  B' -> • A B").
Proof. vm_compute. reflexivity. Qed.



Lemma getProductionsForSymbol_spec_witness :
  ∃ (g : Grammar) (augmented : Production),
    Grammar_new example_input = Done g ∧
    getAugmentedProduction g = Some augmented ∧
    (0, augmented) ∈ getProductionsForSymbol g (Some "S'") ∧
    ((0, augmented) ∉ getProductionsForSymbol g (Some "A")) ∧
    map fst (getProductionsForSymbol g (Some "A")) = [2; 3].
Proof.
  destruct (Grammar_new example_input) as [g | |] eqn:Hg;
    [| discriminate Hg | discriminate Hg].
  destruct (getProductionsForSymbol_spec example_input g Hg)
    as (ps & _ & _ & Hspec).
  vm_compute in Hg. injection Hg as <-.
  eexists _, _. split; [reflexivity |]. split; [reflexivity |].
  split; [| split].
  - destruct (Hspec (Some "S'")) as (_ & _ & Haug & _).
    by apply (Haug _ eq_refl).
  - destruct (Hspec (Some "A")) as (_ & _ & Haug & _).
    intros Hin. by apply (Haug _ eq_refl) in Hin.
  - reflexivity.
Defined.

(** * Further properties of the construction *)

(** ** The registry *)

Lemma session_step_registry_sound (h h' : Heap) :
  session_step h h' → registry_sound h → registry_sound h'.
Proof.
  intros Hs Hreg. destruct Hs; intros key r Hk.
  - destruct (Hreg key r Hk) as (it & Hi & Hd & Hser).
    exists it. split; [by apply LRItem_new_old | done].
  - apply advance_inv in H as (x & _ & _ & E). injection E as -> ->.
    destruct (Hreg key r Hk) as (it & Hi & Hd & Hser).
    exists it. split; [by apply LRItem_new_old | done].
  - unfold added_item in *.
    destruct (LRItemsRegistry h !! keyForItem production 0) eqn:E;
      [by apply Hreg |].
    cbn in Hk. apply lookup_insert_Some in Hk as [[<- <-] | [_ Hk]].
    + eexists. split; [apply LRItem_new_lookup | done].
    + destruct (Hreg key r Hk) as (it & Hi & Hd & Hser).
      exists it. split; [by apply LRItem_new_old | done].
  - by apply Hreg.
  - by apply Hreg.
  - destruct (Hreg key r Hk) as (it & Hi & Hd & Hser).
    cbn. rewrite list_lookup_alter.
    destruct (decide (i = r)) as [-> |]; [| eauto].
    rewrite Hi. by eexists.
  - destruct (Hreg key r Hk) as (it' & Hi & Hd & Hser).
    cbn. rewrite list_lookup_alter.
    destruct (decide (i = r)) as [-> |]; [| eauto].
    rewrite Hi. by eexists.
Qed.

(** X1: in every heap of a session that starts from the empty one, the
    registry maps a key to a live item at dot position 0 whose
    serialization is the key; so an item is registered under one key
    only. *)
Theorem registry_keys_serialize (h : Heap) :
  session empty_heap h →
  registry_sound h ∧
  ∀ key1 key2 r,
    LRItemsRegistry h !! key1 = Some r → LRItemsRegistry h !! key2 = Some r →
    key1 = key2.
Proof.
  intros Hs.
  assert (registry_sound h) as Hreg.
  { assert (registry_sound empty_heap) as H0 by (by intros key r Hk).
    revert H0. induction Hs as [|h1 h2 h3 Hstep _ IH]; [done |].
    intros H1. by eapply IH, session_step_registry_sound. }
  split; [done |]. intros key1 key2 r H1 H2.
  destruct (Hreg _ _ H1) as (it1 & Hi1 & _ & <-).
  destruct (Hreg _ _ H2) as (it2 & Hi2 & _ & <-). congruence.
Qed.

Lemma registry_keys_serialize_witness :
  ∃ g kernelItem h,
    Grammar_new example_input = Done g ∧
    canonical_collection 20 g = Done (kernelItem, h) ∧
    registry_sound h.
Proof.
  destruct (Grammar_new example_input) as [g | |] eqn:Hg;
    [| discriminate Hg | discriminate Hg].
  destruct (canonical_collection 20 g) as [[kernelItem h] | |] eqn:Hc;
    try (vm_compute in Hg; injection Hg as <-; vm_compute in Hc;
         discriminate Hc).
  exists g, kernelItem, h. split; [reflexivity |]. split; [exact Hc |].
  exact (proj1 (registry_keys_serialize h
                  (canonical_collection_session 20 g kernelItem h Hc))).
Defined.

(** ** Closures are closed under expansion *)

Lemma expanded_mono (h h' : Heap) (cl cl' : Closure) (j : nat) :
  items_kept h h' → LRItemsRegistry h ⊆ LRItemsRegistry h' →
  _grammar_c cl' = _grammar_c cl →
  (∀ r, r ∈ getItems cl → r ∈ getItems cl') →
  expanded h cl j → expanded h' cl' j.
Proof.
  intros Hk Hr Hg Hin (it & Hi & Hexp).
  exists it. split; [by apply Hk |]. intros Hsc n p Hp. rewrite Hg in Hp.
  destruct (Hexp Hsc n p Hp) as (r & Hreg & Hrin).
  exists r. split; [by eapply lookup_weaken | by apply Hin].
Qed.

Lemma registered_mono (h h' : Heap) (r : nat) :
  LRItemsRegistry h ⊆ LRItemsRegistry h' → registered h r → registered h' r.
Proof. intros Hr [key Hk]. exists key. by eapply lookup_weaken. Qed.

Lemma added_item_facts (production : Production) (g : Grammar) (h : Heap)
    (i : nat) (h1 : Heap) :
  added_item production g h = (i, h1) →
  items_kept h h1 ∧ LRItemsRegistry h ⊆ LRItemsRegistry h1 ∧
  heap_closures h1 = heap_closures h ∧
  LRItemsRegistry h1 !! keyForItem production 0 = Some i.
Proof.
  intros Hadd.
  pose proof (added_item_kept production g h) as Hk.
  pose proof (ext_registry _ _ (added_item_ext production g h)) as Hr.
  pose proof (added_item_registered _ _ _ _ _ Hadd) as Hi.
  rewrite Hadd in Hk, Hr. split; [done |]. split; [done |]. split; [| done].
  unfold added_item in Hadd.
  destruct (LRItemsRegistry h !! keyForItem production 0);
    by injection Hadd as <- <-.
Qed.

Lemma build_loop_expands (rec : nat → Heap → outcome Heap) (c : nat)
    (prods : list (nat * Production)) (h h' : Heap) (cl : Closure) :
  (∀ h h' cl, rec c h = Done h' → heap_closures h !! c = Some cl →
              build_expands c cl h h' ∧
              ∃ cl', heap_closures h' !! c = Some cl' ∧
                     expanded h' cl' (_currentItem cl)) →
  build_loop rec c prods h = Done h' →
  heap_closures h !! c = Some cl →
  build_expands c cl h h' ∧
  ∃ cl', heap_closures h' !! c = Some cl' ∧
    ∀ n p, (n, p) ∈ prods →
      ∃ r, LRItemsRegistry h' !! keyForItem p 0 = Some r ∧ r ∈ getItems cl'.
Proof.
  intros Hrec. revert h cl.
  induction prods as [|[k p] prods IH]; intros h cl H Hc; simpl in H.
  - injection H as <-. split.
    + split; [apply items_kept_refl |]. split; [done |]. split; [done |].
      split; [done |]. exists cl, []. by rewrite app_nil_r.
    + exists cl. split; [done |]. by intros n p ?%elem_of_nil.
  - obind_split H as cl0 Hcl0. apply get_closure_Done in Hcl0.
    assert (cl0 = cl) as -> by congruence.
    destruct (added_item p (_grammar_c cl) h) as [i h1] eqn:Hadd.
    obind_split H as h3 Hrec3.
    destruct (added_item_facts _ _ _ _ _ Hadd) as (K1 & R1 & C1 & Hi).
    set (cl2 := {| _kernelItem := _kernelItem cl; _currentItem := i;
                   _items := _items cl ++ [i];
                   _grammar_c := _grammar_c cl |}).
    assert (heap_closures (push_item c i h1) !! c = Some cl2) as Hc2.
    { cbn. by rewrite list_lookup_alter_eq, C1, Hc. }
    destruct (Hrec _ _ _ Hrec3 Hc2)
      as [(K3 & R3 & L3 & O3 & cl3 & added1 & Hc3 & Hk3 & Hg3 & Hi3 & Hr3 & He3)
          (cl3' & Hc3' & Hexp3)].
    assert (cl3' = cl3) as -> by congruence.
    destruct (IH _ _ H Hc3)
      as [(K4 & R4 & L4 & O4 & cl4 & added2 & Hc4 & Hk4 & Hg4 & Hi4 & Hr4 & He4)
          (cl4' & Hc4' & Hall)].
    assert (cl4' = cl4) as -> by congruence.
    assert (∀ r, r ∈ getItems cl3 → r ∈ getItems cl4) as Hsub.
    { intros r Hr. rewrite Hi4. apply elem_of_app. by left. }
    assert (i ∈ getItems cl3) as Hiin.
    { rewrite Hi3. cbn. rewrite !elem_of_app, list_elem_of_singleton. tauto. }
    split.
    + split; [by intros j it Hj; apply K4, K3, K1 |].
      split; [by etrans; [| etrans] |].
      split; [rewrite L4, L3; cbn; by rewrite length_alter, C1 |].
      split.
      { intros c' Hne. rewrite (O4 c' Hne), (O3 c' Hne). cbn.
        by rewrite list_lookup_alter_ne, C1. }
      exists cl4, (i :: added1 ++ added2).
      split; [done |]. split; [by rewrite Hk4, Hk3 |].
      split; [by rewrite Hg4, Hg3 |].
      split; [rewrite Hi4, Hi3; cbn; by rewrite <- !app_assoc |].
      split.
      * constructor; [| apply Forall_app; split; [| done]].
        -- apply (registered_mono h1); [by etrans | by eexists].
        -- eapply Forall_impl; [exact Hr3 |].
           intros r. by apply registered_mono.
      * constructor; [| apply Forall_app; split; [| done]].
        -- by apply (expanded_mono h3 h' cl3 cl4).
        -- eapply Forall_impl; [exact He3 |].
           intros r. by apply expanded_mono.
    + exists cl4. split; [done |]. intros n q [[= -> ->] | Hq]%elem_of_cons.
      * exists i. split; [| by apply Hsub].
        eapply lookup_weaken; [exact Hi |]. by etrans.
      * by eapply Hall.
Qed.

Lemma Closure_build_expands (fuel c : nat) (h h' : Heap) (cl : Closure) :
  Closure_build fuel c h = Done h' → heap_closures h !! c = Some cl →
  build_expands c cl h h' ∧
  ∃ cl', heap_closures h' !! c = Some cl' ∧
         expanded h' cl' (_currentItem cl).
Proof.
  revert c h h' cl. induction fuel as [|fuel IH]; intros c h h' cl H Hc;
    [done |].
  simpl in H. obind_split H as cl0 Hcl0. apply get_closure_Done in Hcl0.
  assert (cl0 = cl) as -> by congruence.
  obind_split H as cur Hcur. apply get_item_Done in Hcur.
  obind_split H as sc Hsc. destruct sc; cbn [negb] in H.
  - destruct (build_loop_expands _ _ _ _ _ _ (IH c) H Hc)
      as [Hb (cl' & Hc' & Hall)].
    split; [done |]. exists cl'. split; [done |].
    exists cur. split; [by apply Hb |]. intros _ n p Hp.
    destruct Hb as (_ & _ & _ & _ & cl'' & added & Hc'' & _ & Hg & _).
    assert (cl'' = cl') as -> by congruence. rewrite Hg in Hp.
    by eapply Hall.
  - injection H as <-. split.
    + split; [apply items_kept_refl |]. split; [done |]. split; [done |].
      split; [done |]. exists cl, []. by rewrite app_nil_r.
    + exists cl. split; [done |]. exists cur. split; [done |].
      intros Hsc'. congruence.
Qed.

Lemma Closure_new_expands (fuel kernelItem : nat) (g : Grammar) (h : Heap)
    (c : nat) (h' : Heap) :
  Closure_new fuel kernelItem g h = Done (c, h') →
  c = length (heap_closures h) ∧ length (heap_closures h') = S c ∧
  items_kept h h' ∧ closures_kept h h' ∧
  LRItemsRegistry h ⊆ LRItemsRegistry h' ∧
  ∃ cl added,
    heap_closures h' !! c = Some cl ∧
    getKernel cl = kernelItem ∧ _grammar_c cl = g ∧
    getItems cl = kernelItem :: added ∧
    Forall (registered h') added ∧
    Forall (expanded h' cl) (getItems cl).
Proof.
  unfold Closure_new. intros H. obind_split H as h2 Hb.
  injection H as <- <-.
  set (cl0 := {| _kernelItem := kernelItem; _currentItem := kernelItem;
                 _items := [kernelItem]; _grammar_c := g |}).
  assert (heap_closures (closure_allocated kernelItem g h)
            !! length (heap_closures h) = Some cl0) as Hc0.
  { cbn. by rewrite lookup_app_r, Nat.sub_diag. }
  destruct (Closure_build_expands _ _ _ _ _ Hb Hc0)
    as [(K & R & L & O & cl & added & Hc & Hk & Hg & Hi & Hr & He)
        (cl' & Hc' & Hexp)].
  assert (cl' = cl) as -> by congruence.
  split; [done |].
  split; [rewrite L; cbn; rewrite length_app; cbn; lia |].
  split; [exact K |]. split.
  { intros c' x Hx. rewrite O.
    - cbn. by apply lookup_app_l_Some.
    - apply lookup_lt_Some in Hx. lia. }
  split; [exact R |].
  exists cl, added. split; [done |]. split; [done |]. split; [done |].
  split; [done |]. split; [done |].
  rewrite Hi. cbn. by constructor.
Qed.

(** X2: when [new Closure] returns, the new closure has the kernel as
    its first item, every further item is an item of the registry, and
    the items are closed under expansion: for every item of the closure
    that is to be closed, the registered dot-0 item of each production
    for the symbol at its dot is an item of the closure as well.  The
    closures and the items that existed before are unchanged. *)
Theorem closure_closed (fuel kernelItem : nat) (g : Grammar) (h : Heap)
    (c : nat) (h' : Heap) :
  Closure_new fuel kernelItem g h = Done (c, h') →
  heap_closures h !! c = None ∧
  items_kept h h' ∧ closures_kept h h' ∧
  ∃ cl added,
    heap_closures h' !! c = Some cl ∧
    getKernel cl = kernelItem ∧ _grammar_c cl = g ∧
    getItems cl = kernelItem :: added ∧
    Forall (registered h') added ∧
    Forall (expanded h' cl) (getItems cl).
Proof.
  intros H.
  destruct (Closure_new_expands _ _ _ _ _ _ H) as (-> & _ & K & C & _ & Hcl).
  split; [by apply lookup_ge_None_2 |]. by split; [| split].
Qed.

Lemma closure_closed_witness :
  ∃ c h' cl,
    Closure_new 3 0 epsilon_grammar (heap_of epsilon_root) = Done (c, h') ∧
    heap_closures h' !! c = Some cl ∧
    getItems cl = [0; 1] ∧
    Forall (expanded h' cl) (getItems cl).
Proof.
  destruct (Closure_new 3 0 epsilon_grammar (heap_of epsilon_root))
    as [[c h'] | |] eqn:Hc; try (vm_compute in Hc; discriminate Hc).
  destruct (closure_closed 3 0 epsilon_grammar (heap_of epsilon_root) c h'
              Hc) as (_ & _ & _ & cl & added & Hcl & _ & _ & _ & _ & Hall).
  exists c, h', cl. split; [reflexivity |]. split; [exact Hcl |].
  split; [| exact Hall].
  vm_compute in Hc. injection Hc as <- <-.
  vm_compute in Hcl. by injection Hcl as <-.
Defined.

(** ** Closures hold nothing else *)

Lemma justified_mono (h h' : Heap) (cl cl' : Closure) (j : nat) :
  items_kept h h' → LRItemsRegistry h ⊆ LRItemsRegistry h' →
  _grammar_c cl' = _grammar_c cl →
  (∀ r, r ∈ getItems cl → r ∈ getItems cl') →
  justified h cl j → justified h' cl' j.
Proof.
  intros Hk Hr Hg Hin (i & it & n & p & Hi & Hit & Hsc & Hp & Hreg).
  exists i, it, n, p. split; [by apply Hin |]. split; [by apply Hk |].
  split; [done |]. split; [by rewrite Hg |]. by eapply lookup_weaken.
Qed.

Lemma build_loop_justified (fuel c : nat) (prods : list (nat * Production))
    (h h' : Heap) (cl : Closure) (parent : nat) (pit : LRItem) :
  (∀ h h' cl, Closure_build fuel c h = Done h' →
     heap_closures h !! c = Some cl → _currentItem cl ∈ getItems cl →
     ∀ cl' added, heap_closures h' !! c = Some cl' →
       getItems cl' = getItems cl ++ added →
       Forall (justified h' cl') added) →
  build_loop (Closure_build fuel) c prods h = Done h' →
  heap_closures h !! c = Some cl →
  parent ∈ getItems cl → heap_items h !! parent = Some pit →
  shouldClosure pit = Done true →
  (∀ n p, (n, p) ∈ prods → (n, p) ∈ current_productions (_grammar_c cl) pit) →
  ∀ cl' added, heap_closures h' !! c = Some cl' →
    getItems cl' = getItems cl ++ added →
    Forall (justified h' cl') added.
Proof.
  intros Hrec. revert h cl.
  induction prods as [|[k p] prods IH];
    intros h cl H Hc Hpar Hpit Hsc Hsub cl' added Hc' Hitems; simpl in H.
  - injection H as <-. assert (cl' = cl) as -> by congruence.
    rewrite <- (app_nil_r (getItems cl)) in Hitems at 1.
    apply app_inv_head in Hitems as <-. constructor.
  - obind_split H as cl0 Hcl0. apply get_closure_Done in Hcl0.
    assert (cl0 = cl) as -> by congruence.
    destruct (added_item p (_grammar_c cl) h) as [i h1] eqn:Hadd.
    obind_split H as h3 Hrec3.
    destruct (added_item_facts _ _ _ _ _ Hadd) as (K1 & R1 & C1 & Hi).
    set (cl2 := {| _kernelItem := _kernelItem cl; _currentItem := i;
                   _items := _items cl ++ [i];
                   _grammar_c := _grammar_c cl |}).
    assert (heap_closures (push_item c i h1) !! c = Some cl2) as Hc2.
    { cbn. by rewrite list_lookup_alter_eq, C1, Hc. }
    destruct (Closure_build_expands _ _ _ _ _ Hrec3 Hc2)
      as [(K3 & R3 & _ & _ & cl3 & added1 & Hc3 & _ & Hg3 & Hi3 & _) _].
    destruct (build_loop_expands _ _ _ _ _ _
                (fun h h' cl => Closure_build_expands fuel c h h' cl) H Hc3)
      as [(K4 & R4 & _ & _ & cl4 & added2 & Hc4 & _ & Hg4 & Hi4 & _) _].
    assert (cl' = cl4) as -> by congruence.
    assert (added = i :: added1 ++ added2) as ->.
    { apply (app_inv_head (getItems cl)). rewrite <- Hitems, Hi4, Hi3.
      cbn. by rewrite <- !app_assoc. }
    assert (∀ r, r ∈ getItems cl3 → r ∈ getItems cl4) as Hsub34.
    { intros r Hr. rewrite Hi4. apply elem_of_app. by left. }
    assert (∀ r, r ∈ getItems cl → r ∈ getItems cl3) as Hsub3.
    { intros r Hr. rewrite Hi3. cbn. rewrite !elem_of_app. tauto. }
    assert (heap_items h3 !! parent = Some pit) as Hpit3
      by (by apply K3; cbn; apply K1).
    constructor; [| apply Forall_app; split].
    + exists parent, pit, k, p. split; [by apply Hsub34, Hsub3 |].
      split; [by apply K4 |]. split; [done |].
      split; [rewrite Hg4, Hg3; apply Hsub, elem_of_cons; by left |].
      eapply lookup_weaken; [exact Hi |]. by etrans; [| exact R4].
    + eapply Forall_impl.
      * apply (Hrec _ _ cl2 Hrec3 Hc2); [| exact Hc3 | exact Hi3].
        cbn. apply elem_of_app. right. by apply list_elem_of_singleton.
      * intros r. by apply justified_mono.
    + apply (IH h3 cl3 H Hc3); [by apply Hsub3 | done | done | | done | done].
      intros n q Hq. rewrite Hg3. apply Hsub, elem_of_cons. by right.
Qed.

Lemma Closure_build_justified (fuel c : nat) (h h' : Heap) (cl : Closure) :
  Closure_build fuel c h = Done h' →
  heap_closures h !! c = Some cl → _currentItem cl ∈ getItems cl →
  ∀ cl' added, heap_closures h' !! c = Some cl' →
    getItems cl' = getItems cl ++ added →
    Forall (justified h' cl') added.
Proof.
  revert h h' cl. induction fuel as [|fuel IH]; intros h h' cl H Hc Hcur;
    [done |].
  intros cl' added Hc' Hitems.
  simpl in H. obind_split H as cl0 Hcl0. apply get_closure_Done in Hcl0.
  assert (cl0 = cl) as -> by congruence.
  obind_split H as cur Hget. apply get_item_Done in Hget.
  obind_split H as sc Hsc. destruct sc; cbn [negb] in H.
  - by eapply (build_loop_justified fuel c _ h h' cl (_currentItem cl) cur).
  - injection H as <-. assert (cl' = cl) as -> by congruence.
    rewrite <- (app_nil_r (getItems cl)) in Hitems at 1.
    apply app_inv_head in Hitems as <-. constructor.
Qed.

(** X3: a closure holds nothing but what the expansion asks for:
    every item after the kernel is the registered dot-0 item of a
    production for the symbol at the dot of an item of the closure for
    which [shouldClosure()] holds. *)
Theorem closure_is_least (fuel kernelItem : nat) (g : Grammar) (h : Heap)
    (c : nat) (h' : Heap) (cl : Closure) :
  Closure_new fuel kernelItem g h = Done (c, h') →
  heap_closures h' !! c = Some cl →
  Forall (justified h' cl) (tail (getItems cl)).
Proof.
  intros H Hcl.
  destruct (Closure_new_expands _ _ _ _ _ _ H)
    as (Hc & _ & _ & _ & _ & cl' & added & Hcl' & _ & _ & Hitems & _).
  assert (cl' = cl) as -> by congruence.
  unfold Closure_new in H. obind_split H as h2 Hb. injection H as <- <-.
  set (cl0 := {| _kernelItem := kernelItem; _currentItem := kernelItem;
                 _items := [kernelItem]; _grammar_c := g |}).
  assert (heap_closures (closure_allocated kernelItem g h)
            !! length (heap_closures h) = Some cl0) as Hc0.
  { cbn. by rewrite lookup_app_r, Nat.sub_diag. }
  rewrite Hitems. cbn [tail].
  apply (Closure_build_justified _ _ _ _ cl0 Hb Hc0); [| done | done].
  cbn. by apply list_elem_of_singleton.
Qed.

Lemma closure_is_least_witness :
  ∃ c h' cl,
    Closure_new 3 0 epsilon_grammar (heap_of epsilon_root) = Done (c, h') ∧
    heap_closures h' !! c = Some cl ∧
    Forall (justified h' cl) (tail (getItems cl)).
Proof.
  destruct (Closure_new 3 0 epsilon_grammar (heap_of epsilon_root))
    as [[c h'] | |] eqn:Hc; try (vm_compute in Hc; discriminate Hc).
  destruct (heap_closures h' !! c) as [cl|] eqn:Hcl;
    [| vm_compute in Hc; injection Hc as <- <-; vm_compute in Hcl;
       discriminate Hcl].
  exists c, h', cl. split; [reflexivity |]. split; [exact Hcl |].
  exact (closure_is_least 3 0 epsilon_grammar (heap_of epsilon_root) c h' cl
           Hc Hcl).
Defined.

(** ** What goto builds *)

Lemma done_item_session (h h' : Heap) (j : nat) :
  session h h' → done_item h j → done_item h' j.
Proof.
  intros Hs (it & Hi & Hd).
  destruct (ext_items _ _ (session_ext _ _ Hs) _ _ Hi)
    as (it' & Hi' & Hp & Hdot & _ & Hg).
  exists it'. split; [done |]. unfold isFinal, isConnected in *.
  rewrite Hp, Hdot. destruct Hd as [Hd | Hd]; [by left | right].
  destruct (_gotoPointer it) as [c|] eqn:E; [| done]. by rewrite (Hg c).
Qed.

Lemma closure_done_kept (h h' : Heap) (c : nat) :
  is_Some (heap_closures h !! c) → closures_kept h h' → session h h' →
  closure_done h c → closure_done h' c.
Proof.
  intros [cl Hc] Hk Hs Hd cl' Hc'.
  rewrite (Hk _ _ Hc) in Hc'. injection Hc' as <-.
  eapply Forall_impl; [exact (Hd _ Hc) |].
  intros j. by apply done_item_session.
Qed.

(** The first steps of [goto] on an item that is neither final nor
    connected: the advanced item, the closure built on it and the
    pointer to it. *)
Lemma goto_connects (fuel i : nat) (h : Heap) (it : LRItem)
    (adv : nat) (h1 : Heap) (c : nat) (h2 : Heap) :
  heap_items h !! i = Some it → isFinal it = false →
  advance i h = Done (adv, h1) →
  Closure_new fuel adv (_grammar it) h1 = Done (c, h2) →
  let h3 := set_gotoPointer i (Some c) h2 in
  heap_items h !! adv = None ∧ heap_closures h !! c = None ∧
  closures_kept h h3 ∧ length (heap_closures h3) = S c ∧
  c = length (heap_closures h) ∧
  (∃ x, heap_items h3 !! i = Some x ∧ _gotoPointer x = Some c) ∧
  (∃ kit, heap_items h3 !! adv = Some kit ∧
          _production kit = _production it ∧
          _dotPosition kit = _dotPosition it + 1 ∧
          _grammar kit = _grammar it) ∧
  ∃ cl, heap_closures h3 !! c = Some cl ∧ getKernel cl = adv.
Proof.
  intros Hi Hf Ha Hc h3.
  destruct (advance_inv _ _ _ _ Ha) as (it' & Hi' & _ & E).
  assert (it' = it) as -> by congruence. injection E as -> ->.
  destruct (Closure_new_expands _ _ _ _ _ _ Hc)
    as (Hcl & Hlen & K & C & _ & cl & added & Hcl2 & Hker & _).
  cbn in Hcl.
  pose proof (LRItem_new_lookup (_production it) (_dotPosition it + 1)
                (_grammar it) h) as Hadv. cbn [fst snd] in Hadv.
  split; [by apply lookup_ge_None_2 |].
  split; [rewrite Hcl; by apply lookup_ge_None_2 |].
  split; [intros c' x Hx; by apply C |].
  split; [done |]. split; [done |].
  split.
  { subst h3. cbn. rewrite list_lookup_alter_eq.
    rewrite (K i it) by (by apply LRItem_new_old). cbn. eauto. }
  split.
  { apply K in Hadv. subst h3. cbn. rewrite list_lookup_alter_ne.
    - cbn in Hadv. rewrite Hadv. eexists. by split.
    - apply lookup_lt_Some in Hi. cbn. lia. }
  by exists cl.
Qed.

Lemma closure_field_kept_trans (h1 h2 h3 : Heap) :
  closure_field_kept h1 h2 → closure_field_kept h2 h3 →
  closure_field_kept h1 h3.
Proof.
  intros H1 H2 i it Hi. destruct (H1 _ _ Hi) as (it2 & Hi2 & E2).
  destruct (H2 _ _ Hi2) as (it3 & Hi3 & E3). exists it3.
  split; [done | congruence].
Qed.

Lemma goto_prefix_closure_field (fuel i : nat) (h : Heap) (it : LRItem)
    (adv : nat) (h1 : Heap) (c : nat) (h2 : Heap) :
  heap_items h !! i = Some it →
  advance i h = Done (adv, h1) →
  Closure_new fuel adv (_grammar it) h1 = Done (c, h2) →
  closure_field_kept h (set_gotoPointer i (Some c) h2).
Proof.
  intros Hi Ha Hc j x Hj.
  destruct (advance_inv _ _ _ _ Ha) as (it' & Hi' & _ & E).
  injection E as -> ->.
  destruct (Closure_new_expands _ _ _ _ _ _ Hc) as (_ & _ & K & _).
  assert (heap_items h2 !! j = Some x) as Hj2
    by (by apply K, LRItem_new_old).
  cbn. rewrite list_lookup_alter. destruct (decide (i = j)) as [-> | _].
  - rewrite Hj2. cbn. eexists. by split.
  - by exists x.
Qed.

Lemma forEach_goto_completes
    (go : nat → Heap → outcome (option nat * Heap))
    (items : list nat) (h h' : Heap) :
  (∀ i h r h', go i h = Done (r, h') →
     session h h' ∧ closures_kept h h' ∧ closure_field_kept h h' ∧
     done_item h' i ∧
     ∀ c, heap_closures h !! c = None → closure_done h' c) →
  forEach_goto go items h = Done h' →
  session h h' ∧ closures_kept h h' ∧ closure_field_kept h h' ∧
  Forall (done_item h') items ∧
  ∀ c, heap_closures h !! c = None → closure_done h' c.
Proof.
  intros Hgo. revert h.
  induction items as [|j items IH]; intros h H; simpl in H.
  - injection H as <-. split; [apply rtc_refl |]. split; [by intros c cl |].
    split; [intros i it Hi; by exists it |].
    split; [constructor |]. intros c Hc cl Hcl. congruence.
  - obind_split H as rh Hj. destruct rh as [r h1].
    destruct (Hgo _ _ _ _ Hj) as (S1 & K1 & F1 & D1 & N1).
    destruct (IH _ H) as (S2 & K2 & F2 & D2 & N2).
    split; [by eapply session_trans |].
    split; [intros c cl Hc; by apply K2, K1 |].
    split; [by eapply closure_field_kept_trans |].
    split; [constructor; [by eapply done_item_session | done] |].
    intros c Hc. destruct (heap_closures h1 !! c) as [cl|] eqn:E.
    + eapply closure_done_kept; [by eexists | done | done | by apply N1].
    + by apply N2.
Qed.

Lemma LRItem_goto_completes (fuel i : nat) (h : Heap) (r : option nat)
    (h' : Heap) :
  LRItem_goto fuel i h = Done (r, h') →
  session h h' ∧ closures_kept h h' ∧ closure_field_kept h h' ∧
  done_item h' i ∧
  ∀ c, heap_closures h !! c = None → closure_done h' c.
Proof.
  revert i h r h'. induction fuel as [|fuel IH]; intros i h r h' H; [done |].
  pose proof (LRItem_goto_session _ _ _ _ _ H) as Hs.
  split; [done |]. clear Hs.
  simpl in H. obind_split H as it Hi. apply get_item_Done in Hi.
  assert (∀ b, (isFinal it = true ∨ isConnected it = true) →
            Done (_gotoPointer it, h) = Done (r, h') →
            b = true → closures_kept h h' ∧ closure_field_kept h h' ∧
            done_item h' i ∧
            ∀ c, heap_closures h !! c = None → closure_done h' c) as Hstop.
  { intros _ Hd [= <- <-] _. split; [by intros c cl |].
    split; [intros j x Hj; by exists x |].
    split; [by exists it |]. intros c Hc cl Hcl. congruence. }
  destruct (isFinal it) eqn:Hf; cbn [negb andb] in H;
    [by apply (Hstop true); [left | |] |].
  destruct (isConnected it) eqn:Hc; cbn [negb] in H;
    [by apply (Hstop true); [right | |] |].
  clear Hstop.
  obind_split H as ah Ha. destruct ah as [adv h1].
  obind_split H as ch Hcn. destruct ch as [c h2].
  obind_split H as h4 Hfe. obind_split H as it4 Hi4. injection H as <- <-.
  destruct (goto_connects _ _ _ _ _ _ _ _ Hi Hf Ha Hcn)
    as (_ & Hnew & K3 & L3 & Hc0 & (x & Hx & Hxc) & _ & cl & Hcl & _).
  unfold Closure_goto_with in Hfe. obind_split Hfe as cl' Hcl'.
  apply get_closure_Done in Hcl'. assert (cl' = cl) as -> by congruence.
  destruct (forEach_goto_completes _ _ _ _ (IH) Hfe)
    as (S4 & K4 & F4 & D4 & N4).
  split; [intros c' y Hy; by apply K4, K3 |].
  split.
  { eapply closure_field_kept_trans; [| exact F4].
    by eapply goto_prefix_closure_field. }
  split.
  { apply (done_item_session _ _ _ S4). exists x. split; [done |]. right.
    unfold isConnected. by rewrite Hxc. }
  intros c' Hc' y Hy. destruct (decide (c' = c)) as [-> |].
  - rewrite (K4 _ _ Hcl) in Hy. by injection Hy as <-.
  - apply (N4 c'); [| done]. apply lookup_ge_None_2.
    apply lookup_ge_None_1 in Hc'. lia.
Qed.



(** X5: when the driver returns, the whole graph is built: every item
    of every closure of the heap is final (a reduce item) or has its
    goto target, and the root item holds the closure whose kernel it
    is. *)
Theorem collection_is_complete (fuel : nat) (g : Grammar) (kernelItem : nat)
    (h : Heap) :
  canonical_collection fuel g = Done (kernelItem, h) →
  (∀ c, closure_done h c) ∧
  ∃ it c cl,
    heap_items h !! kernelItem = Some it ∧ getClosure it = Some c ∧
    heap_closures h !! c = Some cl ∧ getKernel cl = kernelItem.
Proof.
  unfold canonical_collection, root_item. intros H.
  destruct (getAugmentedProduction g) as [production|]; [| done].
  cbn [obind] in H.
  destruct (LRItem_new production 0 g empty_heap) as [k h0] eqn:Hnew.
  injection Hnew as <- <-.
  obind_split H as ch Hcl. destruct ch as [[c|] h1]; [| done].
  obind_split H as h2 Hgo. injection H as <- <-.
  unfold LRItem_closure in Hcl. obind_split Hcl as it Hit.
  obind_split Hcl as sc Hsc. destruct sc; cbn [negb] in Hcl; [| done].
  obind_split Hcl as ch Hcn. destruct ch as [c' h1'].
  injection Hcl as <- <-.
  destruct (Closure_new_expands _ _ _ _ _ _ Hcn)
    as (Hc0 & Hlen & K & _ & _ & cl & added & Hc & Hker & _).
  cbn in Hc0. subst c'.
  unfold Closure_goto, Closure_goto_with in Hgo.
  obind_split Hgo as cl' Hcl'. apply get_closure_Done in Hcl'.
  assert (cl' = cl) as -> by (cbn in Hcl'; congruence).
  destruct (forEach_goto_completes _ _ _ _ (LRItem_goto_completes fuel) Hgo)
    as (S2 & K2 & F2 & D2 & N2).
  split.
  - intros c' y Hy. destruct (decide (c' = 0)) as [-> |].
    + rewrite (K2 0 cl) in Hy by done. by injection Hy as <-.
    + eapply (N2 c'); [| done]. apply lookup_ge_None_2. cbn. lia.
  - apply get_item_Done in Hit.
    assert (∃ x, heap_items (set_closure 0 (Some 0) h1') !! 0 = Some x ∧
                 getClosure x = Some 0) as (x & Hx & Hxc).
    { cbn. rewrite list_lookup_alter_eq.
      rewrite (K 0 it) by done. cbn. eauto. }
    destruct (F2 _ _ Hx) as (x' & Hx' & Hxc').
    exists x', 0, cl. split; [done |].
    split; [unfold getClosure in *; congruence |].
    split; [by apply K2 | done].
Qed.

Lemma collection_is_complete_witness :
  ∃ g kernelItem h,
    Grammar_new example_input = Done g ∧
    canonical_collection 20 g = Done (kernelItem, h) ∧
    ∀ c, closure_done h c.
Proof.
  destruct (Grammar_new example_input) as [g | |] eqn:Hg;
    [| discriminate Hg | discriminate Hg].
  destruct (canonical_collection 20 g) as [[kernelItem h] | |] eqn:Hc;
    try (vm_compute in Hg; injection Hg as <-; vm_compute in Hc;
         discriminate Hc).
  exists g, kernelItem, h. split; [reflexivity |]. split; [exact Hc |].
  exact (proj1 (collection_is_complete 20 g kernelItem h Hc)).
Defined.

(** ** Goto targets are not shared *)

Lemma pointers_same_refl (h : Heap) : pointers_same h h.
Proof. intros i it Hi _. by exists it. Qed.

Lemma pointers_same_trans (h1 h2 h3 : Heap) :
  pointers_same h1 h2 → pointers_same h2 h3 → pointers_same h1 h3.
Proof.
  intros H12 H23 i it3 Hi Hp.
  destruct (H23 _ _ Hi Hp) as (it2 & Hi2 & E2).
  destruct (H12 _ _ Hi2) as (it1 & Hi1 & E1); [by rewrite E2 |].
  exists it1. split; [done | congruence].
Qed.

Lemma LRItem_new_pointers (production : Production) (dot : nat) (g : Grammar)
    (h : Heap) :
  pointers_same h (LRItem_new production dot g h).2.
Proof.
  intros i it' Hi Hp. cbn in Hi.
  apply lookup_app_Some in Hi as [Hi | [_ Hi]]; [by exists it' |].
  destruct (i - length (heap_items h)) as [|n]; [| done].
  injection Hi as <-. cbn in Hp. by destruct Hp.
Qed.

Lemma added_item_pointers (production : Production) (g : Grammar) (h : Heap) :
  pointers_same h (added_item production g h).2.
Proof.
  unfold added_item.
  destruct (LRItemsRegistry h !! keyForItem production 0);
    [apply pointers_same_refl |].
  apply (LRItem_new_pointers production 0 g h).
Qed.

Lemma build_loop_pointers (rec : nat → Heap → outcome Heap) (c : nat)
    (prods : list (nat * Production)) (h h' : Heap) :
  (∀ c h h', rec c h = Done h' → pointers_same h h') →
  build_loop rec c prods h = Done h' → pointers_same h h'.
Proof.
  intros Hrec. revert h.
  induction prods as [|[k production] prods IH]; intros h H; simpl in H.
  - injection H as <-. apply pointers_same_refl.
  - obind_split H as cl Hcl.
    pose proof (added_item_pointers production (_grammar_c cl) h) as Hadd.
    destruct (added_item production (_grammar_c cl) h) as [addedItem h1].
    obind_split H as h3 Hr.
    apply (pointers_same_trans _ h1); [exact Hadd |].
    apply (pointers_same_trans _ h3); [| by apply IH].
    by apply Hrec in Hr.
Qed.

Lemma Closure_build_pointers (fuel c : nat) (h h' : Heap) :
  Closure_build fuel c h = Done h' → pointers_same h h'.
Proof.
  revert c h h'. induction fuel as [|fuel IH]; intros c h h' H; [done |].
  simpl in H. obind_split H as cl Hcl. obind_split H as cur Hcur.
  obind_split H as sc Hsc. destruct (negb sc).
  - injection H as <-. apply pointers_same_refl.
  - by eapply build_loop_pointers.
Qed.

Lemma Closure_new_pointers (fuel k : nat) (g : Grammar) (h : Heap)
    (c : nat) (h' : Heap) :
  Closure_new fuel k g h = Done (c, h') → pointers_same h h'.
Proof.
  unfold Closure_new. intros H. obind_split H as h2 Hb.
  injection H as <- <-. by apply Closure_build_pointers in Hb.
Qed.

Lemma goto_private_same (h h' : Heap) :
  goto_private h → pointers_same h h' →
  length (heap_closures h) ≤ length (heap_closures h') → goto_private h'.
Proof.
  intros Hinv Hsame Hlen i it c Hi Hc.
  destruct (Hsame _ _ Hi) as (it0 & Hi0 & E0); [by rewrite Hc |].
  destruct (Hinv i it0 c Hi0) as [Hb Hu]; [congruence |].
  split; [lia |]. intros j jt Hj Hjc.
  destruct (Hsame _ _ Hj) as (jt0 & Hj0 & F0); [by rewrite Hjc |].
  apply (Hu j jt0 Hj0). congruence.
Qed.

(** Connecting an item to a closure that no pointer names yet. *)
Lemma goto_private_connect (h0 h : Heap) (i c : nat) :
  goto_private h0 → pointers_same h0 h →
  c = length (heap_closures h0) → length (heap_closures h) = S c →
  goto_private (set_gotoPointer i (Some c) h).
Proof.
  intros Hinv Hsame Hc Hlen.
  assert (∀ a x p, heap_items h !! a = Some x → _gotoPointer x = Some p →
            p < c ∧ ∀ b y, heap_items h !! b = Some y →
                           _gotoPointer y = Some p → b = a) as Hold.
  { intros a x p Ha Hp.
    destruct (Hsame _ _ Ha) as (x0 & Ha0 & E0); [by rewrite Hp |].
    destruct (Hinv a x0 p Ha0) as [Hb Hu]; [congruence |].
    split; [lia |]. intros b y Hb' Hy.
    destruct (Hsame _ _ Hb') as (y0 & Hb0 & F0); [by rewrite Hy |].
    apply (Hu b y0 Hb0). congruence. }
  intros a x p Ha Hp. cbn in Ha |- *.
  rewrite list_lookup_alter in Ha.
  assert (∀ b y, alter (fun it => {| _production := _production it;
                           _dotPosition := _dotPosition it;
                           _grammar := _grammar it;
                           _closure := _closure it;
                           _gotoPointer := Some c |}) i (heap_items h) !! b
                   = Some y →
            (b = i ∧ _gotoPointer y = Some c) ∨
            (b ≠ i ∧ heap_items h !! b = Some y)) as Hlook.
  { intros b y. rewrite list_lookup_alter.
    destruct (decide (i = b)) as [-> |]; [| by right].
    destruct (heap_items h !! b); [| done]. intros [= <-]. by left. }
  destruct (decide (i = a)) as [-> | Hne].
  - destruct (heap_items h !! a) as [x0|]; [| done].
    injection Ha as <-. cbn in Hp. injection Hp as <-.
    split; [lia |]. intros b y Hb Hy.
    destruct (Hlook _ _ Hb) as [[-> _] | [_ Hb0]]; [done |].
    destruct (Hold _ _ _ Hb0 Hy). lia.
  - destruct (Hold _ _ _ Ha Hp) as [Hlt Hu].
    split; [lia |]. intros b y Hb Hy.
    destruct (Hlook _ _ Hb) as [[-> Hyc] | [_ Hb0]].
    + assert (p = c) by congruence. lia.
    + by apply (Hu b y).
Qed.

Lemma forEach_goto_private
    (go : nat → Heap → outcome (option nat * Heap))
    (items : list nat) (h h' : Heap) :
  (∀ i h r h', go i h = Done (r, h') → goto_private h → goto_private h') →
  forEach_goto go items h = Done h' → goto_private h → goto_private h'.
Proof.
  intros Hgo. revert h.
  induction items as [|j items IH]; intros h H Hinv; simpl in H.
  - by injection H as <-.
  - obind_split H as rh Hj. destruct rh as [r h1].
    eapply IH; [done |]. by eapply Hgo.
Qed.

Lemma LRItem_goto_private (fuel i : nat) (h : Heap) (r : option nat)
    (h' : Heap) :
  LRItem_goto fuel i h = Done (r, h') → goto_private h → goto_private h'.
Proof.
  revert i h r h'. induction fuel as [|fuel IH]; intros i h r h' H Hinv;
    [done |].
  simpl in H. obind_split H as it Hi. apply get_item_Done in Hi.
  destruct (negb (isFinal it) && negb (isConnected it)) eqn:Hgo;
    [| by injection H as <- <-].
  apply andb_prop in Hgo as [Hf Hc]. apply negb_true_iff in Hf, Hc.
  obind_split H as ah Ha. destruct ah as [adv h1].
  obind_split H as ch Hcn. destruct ch as [c h2].
  obind_split H as h4 Hfe. obind_split H as it4 Hi4. injection H as <- <-.
  destruct (goto_connects _ _ _ _ _ _ _ _ Hi Hf Ha Hcn)
    as (_ & _ & _ & L3 & Hc0 & _).
  assert (pointers_same h h2) as Hsame.
  { apply (pointers_same_trans _ h1); [| by eapply Closure_new_pointers].
    destruct (advance_inv _ _ _ _ Ha) as (x & _ & _ & E).
    injection E as -> ->. apply LRItem_new_pointers. }
  pose proof (goto_private_connect h h2 i c Hinv Hsame Hc0 L3) as H3.
  unfold Closure_goto_with in Hfe. obind_split Hfe as cl Hcl.
  by eapply (forEach_goto_private _ _ _ _ (IH)).
Qed.

(** X6: the construction never merges states: in the graph that the
    driver builds, every goto pointer names a closure of the heap and no
    two items point to the same closure. *)
Theorem goto_targets_are_not_shared (fuel : nat) (g : Grammar)
    (kernelItem : nat) (h : Heap) :
  canonical_collection fuel g = Done (kernelItem, h) → goto_private h.
Proof.
  unfold canonical_collection, root_item. intros H.
  destruct (getAugmentedProduction g) as [production|]; [| done].
  cbn [obind] in H.
  obind_split H as ch Hcl. destruct ch as [[c|] h1]; [| done].
  obind_split H as h2 Hgo. injection H as <- <-.
  unfold LRItem_closure in Hcl. obind_split Hcl as it Hit.
  obind_split Hcl as sc Hsc. destruct sc; cbn [negb] in Hcl; [| done].
  obind_split Hcl as ch Hcn. destruct ch as [c' h1'].
  injection Hcl as <- <-.
  assert (goto_private (set_closure (length (heap_items empty_heap))
                          (Some c') h1')) as Hinv.
  { intros i x p Hi Hp. exfalso. cbn in Hi.
    rewrite list_lookup_alter in Hi.
    assert (∃ y, heap_items h1' !! i = Some y ∧ _gotoPointer y = Some p)
      as (y & Hy & Hyp).
    { destruct (decide (0 = i)) as [<- |]; [| by exists x].
      destruct (heap_items h1' !! 0) as [y|]; [| done].
      injection Hi as <-. by exists y. }
    pose proof (pointers_same_trans _ _ _
                  (LRItem_new_pointers production 0 g empty_heap)
                  (Closure_new_pointers _ _ _ _ _ _ Hcn)) as Hsame.
    destruct (Hsame _ _ Hy) as (z & Hz & _); [by rewrite Hyp | done]. }
  unfold Closure_goto, Closure_goto_with in Hgo.
  obind_split Hgo as cl Hcl'.
  by eapply (forEach_goto_private _ _ _ _ (LRItem_goto_private fuel)).
Qed.

Lemma goto_targets_are_not_shared_witness :
  ∃ g kernelItem h,
    Grammar_new example_input = Done g ∧
    canonical_collection 20 g = Done (kernelItem, h) ∧
    goto_private h.
Proof.
  destruct (Grammar_new example_input) as [g | |] eqn:Hg;
    [| discriminate Hg | discriminate Hg].
  destruct (canonical_collection 20 g) as [[kernelItem h] | |] eqn:Hc;
    try (vm_compute in Hg; injection Hg as <-; vm_compute in Hc;
         discriminate Hc).
  exists g, kernelItem, h. split; [reflexivity |]. split; [exact Hc |].
  exact (goto_targets_are_not_shared 20 g kernelItem h Hc).
Defined.

(** ** The production table *)

Lemma normalize_step_inherit (st : NormState) (k : nat) (raw : string)
    (st' : NormState) :
  normalize_step st k raw = Done st' →
  ∃ p pre,
    Production_new raw = Done p ∧
    currentNonTerminal st' =
      getSymbol (getLHS (inherit (currentNonTerminal st) p)) ∧
    normalizedBnf st' =
      normalizedBnf st ++ pre ++ [(k + 1, inherit (currentNonTerminal st) p)] ∧
    (k ≠ 0 → pre = [] ∧ norm_augmented st' = norm_augmented st) ∧
    (k = 0 → ∃ augmented, pre = [(0, augmented)] ∧
                          norm_augmented st' = Some augmented).
Proof.
  unfold normalize_step. intros H. obind_split H as p Hp.
  fold (inherit (currentNonTerminal st) p) in H.
  destruct k as [|k]; cbn [Nat.eqb] in H.
  - obind_split H as st1 H1. obind_split H1 as augmented Haug.
    injection H1 as <-. injection H as <-. cbn.
    exists p, [(0, augmented)]. split; [done |]. split; [done |].
    split; [by rewrite <- app_assoc |]. split; [done | eauto].
  - cbn [obind] in H. injection H as <-. cbn.
    exists p, []. by repeat split.
Qed.

Lemma normalize_from_chain (k : nat) (lines : list string)
    (st st' : NormState) :
  k ≠ 0 → normalize_from k lines st = Done st' →
  ∃ ps,
    length ps = length lines ∧
    normalizedBnf st' = normalizedBnf st ++ numbered (k + 1) ps ∧
    norm_augmented st' = norm_augmented st ∧
    lhs_chain (currentNonTerminal st) lines ps.
Proof.
  revert k st. induction lines as [|raw lines IH]; intros k st Hk H;
    simpl in H.
  - injection H as <-. exists []. rewrite app_nil_r.
    repeat split. by intros i p'.
  - obind_split H as st1 H1.
    destruct (normalize_step_inherit _ _ _ _ H1)
      as (p & pre & Hp & Hcur & Hb & Hne & _).
    destruct (Hne Hk) as [-> Haug].
    destruct (IH (S k) st1 ltac:(done) H) as (ps & Hlen & Hb' & Haug' & Hch).
    exists (inherit (currentNonTerminal st) p :: ps).
    split; [simpl; by rewrite Hlen |].
    split; [rewrite Hb', Hb, <- app_assoc; cbn; by rewrite Nat.add_1_r |].
    split; [congruence |].
    intros [|i] p' Hi.
    + injection Hi as <-. by exists raw, p.
    + destruct (Hch i p' Hi) as (raw' & q & Hl & Hq & ->).
      exists raw', q. split; [done |]. split; [done |].
      destruct i as [|i]; [| done]. cbn. by rewrite Hcur.
Qed.

Lemma Grammar_new_chain (input : GrammarInput) (g : Grammar) :
  Grammar_new input = Done g →
  ∃ ps,
    length ps = length (_toArray input) ∧
    _bnf g = augmented_entry g ++ numbered 1 ps ∧
    (ps = [] ↔ getAugmentedProduction g = None) ∧
    lhs_chain None (_toArray input) ps.
Proof.
  unfold Grammar_new. intros H. obind_split H as st Hn. injection H as <-.
  unfold augmented_entry, getAugmentedProduction. cbn.
  destruct (_toArray input) as [|raw lines]; simpl in Hn.
  - injection Hn as <-. exists []. repeat split. by intros i p'.
  - obind_split Hn as st1 H1.
    destruct (normalize_step_inherit _ _ _ _ H1)
      as (p & pre & Hp & Hcur & Hb & _ & H0).
    destruct (H0 eq_refl) as (augmented & -> & Haug).
    destruct (normalize_from_chain 1 _ _ _ ltac:(done) Hn)
      as (ps & Hlen & Hb' & Haug' & Hch).
    exists (inherit None p :: ps).
    split; [simpl; by rewrite Hlen |].
    rewrite Haug', Haug, Hb', Hb. cbn.
    split; [done |]. split; [by split |].
    intros [|i] p' Hi.
    + injection Hi as <-. by exists raw, p.
    + destruct (Hch i p' Hi) as (raw' & q & Hl & Hq & ->).
      exists raw', q. split; [done |]. split; [done |].
      destruct i as [|i]; [| done]. cbn. by rewrite Hcur.
Qed.

Lemma list_find_numbered (k n : nat) (ps : list Production) :
  (fun r : nat * (nat * Production) => r.2.2) <$>
    list_find (fun kp : nat * Production => kp.1 = n) (numbered k ps) =
  if decide (k ≤ n) then ps !! (n - k) else None.
Proof.
  revert k. induction ps as [|p ps IH]; intros k; simpl.
  - by destruct (decide _).
  - destruct (decide (k = n)) as [-> |].
    + rewrite decide_True by lia. by rewrite Nat.sub_diag.
    + rewrite <- option_fmap_compose.
      etrans; [| etrans; [exact (IH (S k)) |]].
      * by destruct (list_find _ _) as [[? [? ?]]|].
      * destruct (decide (S k ≤ n)), (decide (k ≤ n)); try done; try lia.
        by replace (n - k) with (S (n - S k)) by lia.
Qed.

Lemma getProduction_table (g : Grammar) (ps : list Production) :
  _bnf g = augmented_entry g ++ numbered 1 ps →
  getProduction g 0 = getAugmentedProduction g ∧
  ∀ i, getProduction g (S i) = ps !! i.
Proof.
  unfold getProduction, augmented_entry. intros ->.
  destruct (getAugmentedProduction g) as [augmented|]; cbn [app].
  - split; [done |]. intros i. simpl.
    rewrite <- option_fmap_compose.
    etrans; [| etrans; [exact (list_find_numbered 1 (S i) ps) |]].
    + by destruct (list_find _ _) as [[? [? ?]]|].
    + by replace (S i - 1) with i by lia.
  - split.
    + rewrite list_find_numbered. by rewrite decide_False by lia.
    + intros i. rewrite list_find_numbered, decide_True by lia.
      by replace (S i - 1) with i by lia.
Qed.

Lemma inherit_fields (cur : option string) (p : Production) :
  getRaw (inherit cur p) = getRaw p ∧ getRHS (inherit cur p) = getRHS p ∧
  getSymbol (getLHS (inherit cur p)) =
    if truthy (getSymbol (getLHS p)) then getSymbol (getLHS p) else cur.
Proof. unfold inherit. by destruct (truthy _). Qed.

(** X7: the productions of the input are numbered 1, 2, ... in input
    order and number 0 is the augmented production: [getProduction(0)]
    is the augmented production, which exists unless the grammar has no
    production; [getProduction(k + 1)] is the production read from the
    line at index [k]; and for a number past the last line the result is
    [undefined]. *)
Theorem getProduction_numbering (input : GrammarInput) (g : Grammar) :
  Grammar_new input = Done g →
  getProduction g 0 = getAugmentedProduction g ∧
  (getAugmentedProduction g = None ↔ _toArray input = []) ∧
  ∀ k,
    match getProduction g (S k) with
    | Some p => _toArray input !! k = Some (getRaw p)
    | None => length (_toArray input) ≤ k
    end.
Proof.
  intros H. destruct (Grammar_new_chain _ _ H) as (ps & Hlen & Hb & He & Hch).
  destruct (getProduction_table _ _ Hb) as [H0 HS].
  split; [done |]. split.
  - rewrite <- He. split; [intros -> | intros E; rewrite E in Hlen];
      by apply nil_length_inv.
  - intros k. rewrite HS. destruct (ps !! k) as [p'|] eqn:E.
    + destruct (Hch _ _ E) as (raw & p & Hl & Hp & ->).
      rewrite Hl.
      match goal with
      | |- context [inherit ?c p] => destruct (inherit_fields c p) as [-> _]
      end.
      by rewrite (Production_new_raw _ _ Hp).
    + apply lookup_ge_None_1 in E. lia.
Qed.

Lemma getProduction_numbering_witness :
  ∃ g p,
    Grammar_new example_input = Done g ∧
    getProduction g 3 = Some p ∧
    _toArray example_input !! 2 = Some (getRaw p) ∧
    getProduction g 4 = None.
Proof.
  destruct (Grammar_new example_input) as [g | |] eqn:Hg;
    [| discriminate Hg | discriminate Hg].
  destruct (getProduction_numbering example_input g Hg) as (_ & _ & Hk).
  pose proof (Hk 2) as H2.
  destruct (getProduction g 3) as [p|] eqn:Hp;
    [| vm_compute in Hg; injection Hg as <-; vm_compute in Hp;
       discriminate Hp].
  exists g, p. split; [reflexivity |]. split; [exact Hp |].
  split; [exact H2 |].
  vm_compute in Hg. injection Hg as <-. reflexivity.
Defined.

(** X8: a line without a left-hand side of its own (an alternative
    that starts with the bar) is stored under the left-hand side of the
    production stored just before it, and a line with a left-hand side
    keeps it; the right-hand side is the one the line reads as.  For the
    first line there is no production before it, and the left-hand side
    is [undefined]. *)
Theorem continuation_inherits_lhs (input : GrammarInput) (g : Grammar)
    (i : nat) (raw : string) :
  Grammar_new input = Done g →
  _toArray input !! i = Some raw →
  ∃ p p',
    Production_new raw = Done p ∧ getProduction g (S i) = Some p' ∧
    getRHS p' = getRHS p ∧
    getSymbol (getLHS p') =
      if truthy (getSymbol (getLHS p)) then getSymbol (getLHS p)
      else match i with
           | 0 => None
           | S j => getProduction g (S j) ≫= (fun q => getSymbol (getLHS q))
           end.
Proof.
  intros H Hi.
  destruct (Grammar_new_chain _ _ H) as (ps & Hlen & Hb & _ & Hch).
  destruct (getProduction_table _ _ Hb) as [_ HS].
  destruct (ps !! i) as [p'|] eqn:E.
  - destruct (Hch _ _ E) as (raw' & p & Hl & Hp & ->).
    assert (raw' = raw) as -> by congruence.
    eexists p, _. split; [done |]. split; [by rewrite HS |].
    match goal with
    | |- context [inherit ?c p] =>
        destruct (inherit_fields c p) as (_ & -> & ->)
    end.
    split; [done |]. destruct i as [|j]; [done |]. by rewrite HS.
  - apply lookup_ge_None_1 in E. apply lookup_lt_Some in Hi. lia.
Qed.

Lemma continuation_inherits_lhs_witness :
  ∃ g p',
    Grammar_new example_input = Done g ∧
    getProduction g 3 = Some p' ∧
    getSymbol (getLHS p') = Some "A".
Proof.
  destruct (Grammar_new example_input) as [g | |] eqn:Hg;
    [| discriminate Hg | discriminate Hg].
  destruct (continuation_inherits_lhs example_input g 2 "| 'b'" Hg eq_refl)
    as (p & p' & Hp & Hp' & _ & Hl).
  exists g, p'. split; [reflexivity |]. split; [exact Hp' |].
  rewrite Hl. vm_compute in Hp. injection Hp as <-.
  vm_compute in Hg. injection Hg as <-. reflexivity.
Defined.

(** ** The symbols of a right-hand side *)

Lemma trimStart_first (s : string) (c : ascii) (t : string) :
  trimStart s = String c t → is_ws c = false.
Proof.
  induction s as [|a s IH]; [done |]. cbn [trimStart].
  destruct (is_ws a) eqn:E; [done |]. by intros [= <- _].
Qed.

Lemma trimEnd_first (a : ascii) (s : string) (c : ascii) (t : string) :
  trimEnd (String a s) = String c t → c = a.
Proof.
  cbn [trimEnd]. destruct (trimEnd s); [destruct (is_ws a) |]; congruence.
Qed.

Lemma trimEnd_last (s : string) (c : ascii) :
  last_char (trimEnd s) = Some c → is_ws c = false.
Proof.
  induction s as [|a s IH]; [done |]. cbn [trimEnd].
  destruct (trimEnd s) as [|b t] eqn:E.
  - destruct (is_ws a) eqn:Ha; [done |]. by intros [= <-].
  - intros H. apply IH. by rewrite <- H.
Qed.

Lemma trim_ends (s : string) (c : ascii) (t : string) :
  trim s = String c t →
  is_ws c = false ∧ ∀ d, last_char (String c t) = Some d → is_ws d = false.
Proof.
  unfold trim. intros H. split.
  - destruct (trimStart s) as [|a u] eqn:E; [done |].
    apply trimEnd_first in H as ->. by eapply trimStart_first.
  - intros d. rewrite <- H. apply trimEnd_last.
Qed.

Lemma no_ws_snoc (cur : string) (c : ascii) :
  no_ws cur = true → is_ws c = false →
  no_ws (cur +:+ String c EmptyString) = true.
Proof.
  intros Hcur Hc. induction cur as [|a cur IH].
  - rewrite str_app_nil_l. cbn [no_ws]. by rewrite Hc.
  - rewrite str_app_cons. cbn [no_ws] in *.
    apply andb_prop in Hcur as [-> Hcur]. by apply IH.
Qed.

Lemma snoc_not_empty (cur : string) (c : ascii) :
  cur +:+ String c EmptyString ≠ EmptyString.
Proof. destruct cur; [by rewrite str_app_nil_l | by rewrite str_app_cons]. Qed.

Lemma last_char_cons (a b : ascii) (s : string) :
  last_char (String a (String b s)) = last_char (String b s).
Proof. done. Qed.

(** The tokens of a text that neither starts nor ends with white
    space. *)
Lemma split_ws_go_tokens (s cur : string) (inws : bool) :
  no_ws cur = true →
  (∀ d, last_char s = Some d → is_ws d = false) →
  (inws = true → s ≠ EmptyString) →
  (inws = false →
   cur ≠ EmptyString ∨ ∃ c s', s = String c s' ∧ is_ws c = false) →
  Forall (fun t => t ≠ EmptyString ∧ no_ws t = true) (split_ws_go cur inws s).
Proof.
  revert cur inws. induction s as [|c s IH]; intros cur inws Hcur Hlast Hin Hne;
    cbn [split_ws_go].
  - destruct inws; [by destruct Hin |].
    destruct (Hne eq_refl) as [? | (? & ? & ? & _)]; [| done].
    by repeat constructor.
  - assert (is_ws c = true → s ≠ EmptyString) as Hs.
    { intros Hc ->. specialize (Hlast c eq_refl). congruence. }
    assert (∀ d, last_char s = Some d → is_ws d = false) as Hlast'.
    { intros d Hd. apply Hlast. destruct s; [done |]. by rewrite last_char_cons. }
    destruct (is_ws c) eqn:Hc.
    + destruct inws.
      * apply IH; [done | done | by intros _; apply Hs | done].
      * destruct (Hne eq_refl) as [Hcur' | (? & ? & [= <- <-] & ?)];
          [| congruence].
        constructor; [done |].
        apply IH; [done | done | by intros _; apply Hs | done].
    + apply IH; [by apply no_ws_snoc | done | done |].
      intros _. left. apply snoc_not_empty.
Qed.

Lemma split_ws_go_not_nil (cur : string) (inws : bool) (s : string) :
  split_ws_go cur inws s ≠ [].
Proof.
  revert cur inws. induction s as [|c s IH]; intros cur inws;
    cbn [split_ws_go]; [done |].
  destruct (is_ws c); [destruct inws |]; [apply IH | done | apply IH].
Qed.

Lemma rhs_symbols_symbol_text (tokens : list string) :
  Forall (fun t => t ≠ EmptyString ∧ no_ws t = true) tokens →
  Forall symbol_text (rhs_symbols tokens).
Proof.
  induction tokens as [tokens IH] using (induction_ltof1 _ length).
  unfold ltof in IH. intros Hall.
  destruct tokens as [|t [|t' rest]]; cbn [rhs_symbols].
  - constructor.
  - apply Forall_cons_1 in Hall as [[Ht Hw] _].
    repeat constructor. exists t. by repeat split; [| left].
  - apply Forall_cons_1 in Hall as [[Ht Hw] Hall].
    destruct (_ && _).
    + constructor; [exists quoted_space; by repeat split; [| right] |].
      apply IH; [simpl; lia |]. by apply Forall_cons_1 in Hall as [_ Hall].
    + constructor; [exists t; by repeat split; [| left] |].
      apply (IH (t' :: rest)); [simpl; lia | done].
Qed.

Lemma rhs_symbols_not_nil (tokens : list string) :
  tokens ≠ [] → rhs_symbols tokens ≠ [].
Proof.
  destruct tokens as [|t [|t' rest]]; cbn [rhs_symbols]; [done | done |].
  by destruct (_ && _).
Qed.

(** X9: a production always has a right-hand side of at least one
    symbol, and every symbol of it is a text that is not empty and holds
    no white space (or is the quoted blank): an empty right-hand side is
    read as the single symbol ε. *)
Theorem rhs_is_never_empty (raw : string) (p : Production) :
  Production_new raw = Done p →
  getRHS p ≠ [] ∧ Forall symbol_text (getRHS p).
Proof.
  unfold Production_new. intros H.
  destruct (js_split raw _ !! 0); [| done].
  destruct (js_split raw _ !! 1) as [s1|]; [| done].
  injection H as <-. cbn [getRHS _RHS].
  destruct (trim s1) as [|c t] eqn:E; cbn [truthy].
  - split; [done |]. repeat constructor.
    exists EPSILON. by repeat split; [| left].
  - destruct (trim_ends _ _ _ E) as [Hc Hlast].
    split; [apply rhs_symbols_not_nil, split_ws_go_not_nil |].
    apply rhs_symbols_symbol_text, split_ws_go_tokens; [done | done | done |].
    intros _. right. by exists c, t.
Qed.

Lemma rhs_is_never_empty_witness :
  ∃ p, Production_new "A ->" = Done p ∧
       getRHS p = [mkSymbol (Some EPSILON)] ∧ Forall symbol_text (getRHS p).
Proof.
  destruct (Production_new "A ->") as [p | |] eqn:Hp;
    [| discriminate Hp | discriminate Hp].
  exists p. split; [reflexivity |].
  split; [| exact (proj2 (rhs_is_never_empty "A ->" p Hp))].
  vm_compute in Hp. by injection Hp as <-.
Defined.

(** * Tree traversal *)

Section TraversalFacts.
Import Traversal.

Lemma push_left_app (t : tree) (s s2 : list node) :
  push_left t (s ++ s2) = push_left t s ++ s2.
Proof.
  revert s. induction t as [|v l IHl r _]; intros s; [done |].
  cbn [push_left]. by rewrite app_comm_cons, IHl.
Qed.

Lemma pending_push_left (t : tree) (s : list node) :
  pending (push_left t s) = nodes t ++ pending s.
Proof.
  revert s. induction t as [|v l IHl r _]; intros s; [done |].
  cbn [push_left nodes]. rewrite IHl. cbn. by rewrite <- app_assoc.
Qed.

Lemma pending_size_push_left (t : tree) (s : list node) :
  pending_size (push_left t s) = size t + pending_size s.
Proof.
  revert s. induction t as [|v l IHl r _]; intros s; [done |].
  cbn [push_left size]. rewrite IHl. cbn. lia.
Qed.

Lemma map_value_nodes (t : tree) : map value (nodes t) = inOrder t.
Proof.
  induction t as [|v l IHl r IHr]; [done |].
  cbn [nodes inOrder]. rewrite map_app. cbn. by rewrite IHl, IHr.
Qed.

Lemma next_stack (top : node) (rest : list node) :
  next (top :: rest) = (Some (value top), push_left (right top) rest).
Proof. unfold next. by destruct (right top). Qed.

Lemma next_n_pending (n : nat) (s : list node) :
  pending_size s ≤ n →
  next_n n s =
    (map (fun x => Some (value x)) (pending s)
       ++ replicate (n - pending_size s) None, []).
Proof.
  revert s. induction n as [|n IH]; intros s Hn.
  - destruct s; [done | cbn in Hn; lia].
  - destruct s as [|top rest].
    + cbn [next_n next]. rewrite (IH []) by (cbn; lia). cbn.
      by rewrite Nat.sub_0_r.
    + cbn [next_n]. rewrite next_stack. cbn in Hn.
      rewrite IH by (rewrite pending_size_push_left; lia).
      rewrite pending_push_left, pending_size_push_left. cbn.
      by rewrite map_app, <- app_assoc.
Qed.

(** X10: the object that [makeTreeIterator] returns yields the values
    of the tree in the order of the generator [inOrder], one per call of
    [next()], and from then on every call reports that it is done. *)
Theorem iterator_yields_in_order (t : tree) (k : nat) :
  next_n (size t + k) (makeTreeIterator t) =
    (map Some (inOrder t) ++ replicate k None, []).
Proof.
  unfold makeTreeIterator.
  assert (pending_size (push_left t []) = size t) as Hs
    by (rewrite pending_size_push_left; cbn; lia).
  rewrite next_n_pending by lia.
  rewrite Hs, pending_push_left. cbn. rewrite app_nil_r.
  replace (size t + k - size t) with k by lia.
  by rewrite <- map_value_nodes, map_map.
Qed.

Lemma snoc_is_cons (s : list node) (root : node) :
  ∃ m s', s ++ [root] = m :: s'.
Proof. destruct s; cbn; eauto. Qed.

Lemma pushed_values_app (condition : option node → bool) (l1 l2 : list node) :
  pushed_values condition (l1 ++ l2) =
    pushed_values condition l1 ++ pushed_values condition l2.
Proof. unfold pushed_values. by rewrite filter_app, map_app. Qed.

Lemma pushed_values_one (condition : option node → bool) (n : node)
    (result : list Z) :
  (if condition (Some n) then result ++ [value n] else result) =
    result ++ pushed_values condition [n].
Proof.
  unfold pushed_values. rewrite filter_cons, filter_nil.
  destruct (condition (Some n)) eqn:E.
  - by rewrite decide_True by done.
  - rewrite decide_False by done. cbn. by rewrite app_nil_r.
Qed.

(** The rounds of the loops from a stack whose bottom is [root]: the
    pending nodes above it are visited, then [root], and the loops
    end. *)
Lemma traverse_to_root (condition : option node → bool) (root : node)
    (fuel : nat) (s : list node) (t0 : tree) (result : list Z) :
  pending_size s ≤ fuel →
  (let* (t', stack2, result') := pop_loop condition (s ++ [root]) t0 result in
   match stack2 with
   | [] => Done result'
   | _ :: _ => traverse_loop fuel condition t' stack2 result'
   end) = Done (result ++ pushed_values condition (pending s ++ [root])).
Proof.
  revert s t0 result. induction fuel as [|fuel IHf].
  - intros [|n s] t0 result Hn; [| cbn in Hn; lia].
    cbn [app pop_loop pending]. rewrite pushed_values_one.
    by destruct (right root).
  - intros s. induction s as [|n s IHs]; intros t0 result Hn.
    + cbn [app pop_loop pending]. rewrite pushed_values_one.
      by destruct (right root).
    + cbn in Hn. rewrite <- app_comm_cons. cbn [pop_loop pending].
      rewrite pushed_values_one.
      destruct (snoc_is_cons s root) as (m & s' & E).
      replace (result ++ pushed_values condition
                 ((n :: nodes (right n) ++ pending s) ++ [root]))
        with ((result ++ pushed_values condition [n]) ++
              pushed_values condition
                ((nodes (right n) ++ pending s) ++ [root]))
        by (by rewrite <- app_assoc, <- pushed_values_app).
      destruct (right n) as [|rv rl rr] eqn:Hr.
      * rewrite E, <- E. cbn [nodes app]. apply IHs. lia.
      * cbn [obind]. rewrite E, <- E. cbn [traverse_loop].
        rewrite push_left_app.
        rewrite IHf by (rewrite pending_size_push_left; cbn [size] in *; lia).
        by rewrite pending_push_left.
Qed.

(** X11: [inorder_tarverse_nonrecursive] on a tree with a root visits
    the nodes of the left subtree in order, then the root, and returns:
    the nodes of the right subtree of the root are never visited.  On
    the empty tree it throws a TypeError. *)
Theorem nonrecursive_stops_at_root (fuel : nat) (t : tree)
    (condition : option node → bool) (result : list Z) :
  size t < fuel →
  inorder_tarverse_nonrecursive fuel t condition result =
    match t with
    | Empty => Throw TypeError
    | Node v l r =>
        Done (result ++ pushed_values condition (nodes l ++ [(v, l, r)]))
    end.
Proof.
  unfold inorder_tarverse_nonrecursive. intros Hf.
  destruct fuel as [|fuel]; [lia |]. cbn [traverse_loop].
  destruct t as [|v l r]; [done |].
  cbn [push_left]. change [(v, l, r)] with ([] ++ [(v, l, r)]).
  rewrite push_left_app.
  rewrite traverse_to_root
    by (rewrite pending_size_push_left; cbn in *; lia).
  rewrite pending_push_left. cbn. by rewrite app_nil_r.
Qed.

Lemma nonrecursive_stops_at_root_witness :
  inorder_tarverse_nonrecursive 5 source_tree (fun _ => true) [] =
    Done [4; 5]%Z.
Proof.
  exact (nonrecursive_stops_at_root 5 source_tree (fun _ => true) []
           ltac:(cbn; lia)).
Defined.

Lemma inorder_traverse_undefined (t : tree) :
  inorder_traverse t None None =
    (None, match t with Empty => None | Node _ _ _ => Some TypeError end).
Proof.
  induction t as [|v l IHl r _]; [done |].
  cbn [inorder_traverse]. rewrite IHl. by destruct l.
Qed.

(** X12: [inorder_traverse] never collects a node value: the array
    gains at most one element, which is the array itself; and the call
    throws a TypeError whenever the root has a child, because the
    recursive calls pass neither the condition nor the array. *)
Theorem inorder_traverse_never_collects (t : tree) (condition : Z → bool)
    (a : list elem) :
  ∃ k,
    k ≤ 1 ∧
    inorder_traverse t (Some condition) (Some a) =
      (Some (a ++ replicate k Self),
       match t with
       | Empty | Node _ Empty Empty => None
       | Node _ _ _ => Some TypeError
       end).
Proof.
  destruct t as [|v l r].
  - exists 0. split; [lia |]. cbn. by rewrite app_nil_r.
  - cbn [inorder_traverse]. rewrite !inorder_traverse_undefined.
    destruct l as [|lv ll lr].
    + destruct (condition v).
      * exists 1. split; [lia |]. by destruct r.
      * exists 0. split; [lia |]. cbn. rewrite app_nil_r. by destruct r.
    + exists 0. split; [lia |]. cbn. by rewrite app_nil_r.
Qed.

End TraversalFacts.

(** * AST printer *)

Section PrinterFacts.
Import Printer.

Lemma output_push (x : piece) (st : state) :
  output (push x st) = output st ++ [x].
Proof. done. Qed.

Lemma op_piece_plain (op : binop) :
  is_open (Str (" " +:+ op_text op +:+ " ")) = false ∧
  is_close (Str (" " +:+ op_text op +:+ " ")) = false.
Proof. by destruct op. Qed.

Lemma depth_after_app (d : nat) (l1 l2 : list piece) :
  depth_after d (l1 ++ l2) = depth_after d l1 ≫= fun d1 => depth_after d1 l2.
Proof.
  revert d. induction l1 as [|x l1 IH]; intros d; [done |].
  cbn [app depth_after]. destruct (is_open x); [apply IH |].
  destruct (is_close x); [| apply IH]. destruct d; [done | apply IH].
Qed.

(** What [_compile] appends to the buffer. *)
Lemma _compile_appends (node : ast) (st : state) :
  ∃ body,
    output (_compile node st) = output st ++ body ∧
    erase_parens body = flat node ∧
    ∀ d, depth_after d body = Some d.
Proof.
  revert st. induction node as [v | op lhs IHl rhs IHr]; intros st.
  - exists [Num v]. by repeat split.
  - cbn [_compile]. unfold binary.
    set (should := match prevBinaryOp st with
                   | Some prev => (precedence op <? precedence prev)%nat
                   | None => false
                   end).
    set (st1 := if should then push (Str "(") _ else _).
    destruct (IHl st1) as (bl & Hl & El & Dl).
    destruct (IHr (push (Str (" " +:+ op_text op +:+ " ")) (_compile lhs st1)))
      as (br & Hr & Er & Dr).
    destruct (op_piece_plain op) as [Hopen Hclose].
    assert (erase_parens (bl ++ Str (" " +:+ op_text op +:+ " ") :: br)
            = flat (Binary op lhs rhs)) as Hflat.
    { unfold erase_parens in *. rewrite filter_app, filter_cons.
      rewrite decide_True by (unfold is_paren; by rewrite Hopen, Hclose).
      cbn [flat]. by rewrite El, Er. }
    assert (∀ d, depth_after d (bl ++ Str (" " +:+ op_text op +:+ " ") :: br)
                 = Some d) as Hdepth.
    { intros d. rewrite depth_after_app, Dl. cbn [mbind option_bind depth_after].
      by rewrite Hopen, Hclose. }
    subst st1. destruct should.
    + exists (Str "(" :: (bl ++ Str (" " +:+ op_text op +:+ " ") :: br)
                ++ [Str ")"]).
      split; [| split].
      * rewrite output_push, Hr, output_push, Hl, output_push. cbn.
        by rewrite <- !app_assoc.
      * rewrite <- Hflat. unfold erase_parens.
        rewrite filter_cons, filter_app. cbn. by rewrite app_nil_r.
      * intros d. cbn [depth_after is_open String.eqb Ascii.eqb Bool.eqb].
        cbn. rewrite depth_after_app, Hdepth. done.
    + exists (bl ++ Str (" " +:+ op_text op +:+ " ") :: br).
      split; [| done].
      rewrite Hr, output_push, Hl. cbn. by rewrite <- !app_assoc.
Qed.

(** X13: the buffer that [compile] prints is the sequence of the
    values and operators of the tree in order, with parentheses added
    that are balanced: leaving the parentheses out gives exactly the
    in-order sequence, and no parenthesis closes one that is not
    open. *)
Theorem compile_output_shape (a : ast) (st : state) :
  erase_parens (output (compile a st)) = flat a ∧
  ∀ d, depth_after d (output (compile a st)) = Some d.
Proof.
  unfold compile.
  destruct (_compile_appends a {| output := []; prevBinaryOp := prevBinaryOp st |})
    as (body & -> & E & D).
  done.
Qed.

Lemma last_op_cons (prev : option binop) (op : binop) (l : list binop) :
  last_op prev (op :: l) = last_op (Some op) l.
Proof.
  unfold last_op. destruct l as [|x l]; [done |].
  change (last (op :: x :: l)) with (last (x :: l)).
  destruct (last (x :: l)) eqn:E; [done |]. by apply last_None in E.
Qed.

Lemma last_op_app (prev : option binop) (l1 l2 : list binop) :
  last_op prev (l1 ++ l2) = last_op (last_op prev l1) l2.
Proof.
  unfold last_op. rewrite last_app. by destruct (last l2), (last l1).
Qed.

Lemma descents_app (prev : option binop) (l1 l2 : list binop) :
  descents prev (l1 ++ l2) = descents prev l1 + descents (last_op prev l1) l2.
Proof.
  revert prev. induction l1 as [|op l1 IH]; intros prev; [done |].
  cbn [app descents]. rewrite IH, last_op_cons. lia.
Qed.

Lemma count_open_app (l1 l2 : list piece) :
  count_open (l1 ++ l2) = count_open l1 + count_open l2.
Proof. unfold count_open. by rewrite filter_app, length_app. Qed.

(** How [_compile] moves the two globals. *)
Lemma _compile_tracks (node : ast) (st : state) :
  prevBinaryOp (_compile node st) = last_op (prevBinaryOp st) (ops node) ∧
  count_open (output (_compile node st)) =
    count_open (output st) + descents (prevBinaryOp st) (ops node).
Proof.
  revert st. induction node as [v | op lhs IHl rhs IHr]; intros st.
  - split; [done |]. cbn [_compile ops descents].
    rewrite output_push, count_open_app.
    change (count_open [Num v]) with 0. lia.
  - cbn [_compile ops descents]. unfold binary.
    set (should := match prevBinaryOp st with
                   | Some prev => (precedence op <? precedence prev)%nat
                   | None => false
                   end).
    set (st1 := if should then push (Str "(") _ else _).
    assert (prevBinaryOp st1 = Some op) as Hp1 by (subst st1; by destruct should).
    assert (count_open (output st1) =
            count_open (output st) + if should then 1 else 0) as Hc1.
    { subst st1. destruct should.
      - rewrite output_push, count_open_app. cbn [output].
        by change (count_open [Str "("]) with 1.
      - cbn [output]. lia. }
    destruct (IHl st1) as [Pl Cl].
    destruct (IHr (push (Str (" " +:+ op_text op +:+ " ")) (_compile lhs st1)))
      as [Pr Cr].
    cbn [push prevBinaryOp output] in Pr, Cr.
    rewrite count_open_app in Cr.
    assert (count_open [Str (" " +:+ op_text op +:+ " ")] = 0) as Hop
      by (by destruct op).
    rewrite last_op_cons, last_op_app, descents_app.
    assert (prevBinaryOp
              (_compile rhs (push (Str (" " +:+ op_text op +:+ " "))
                               (_compile lhs st1))) =
            last_op (last_op (Some op) (ops lhs)) (ops rhs)) as HP
      by (by rewrite Pr, Pl, Hp1).
    assert (count_open
              (output (_compile rhs (push (Str (" " +:+ op_text op +:+ " "))
                                       (_compile lhs st1)))) =
            count_open (output st) + (if should then 1 else 0)
            + descents (Some op) (ops lhs)
            + descents (last_op (Some op) (ops lhs)) (ops rhs)) as HC
      by (rewrite Cr, Cl, Hc1, Pl, Hp1, Hop; lia).
    assert ((if should then 1 else 0) =
            match prevBinaryOp st with
            | Some p => if (precedence op <? precedence p)%nat then 1 else 0
            | None => 0
            end) as Hs
      by (subst should; by destruct (prevBinaryOp st)).
    destruct should.
    + cbn [push prevBinaryOp output]. split; [done |].
      rewrite count_open_app, HC, <- Hs.
      change (count_open [Str ")"]) with 0. lia.
    + split; [done |]. rewrite HC, <- Hs. lia.
Qed.

(** X14: the printer decides on parentheses from the operator for
    which [binary] was called last, not from the parent of the node: the
    number of opening parentheses that [compile] prints is the number of
    places, in the sequence of the operators in the order of the calls
    and with the operator left by the call before in front, where an
    operator follows one of higher precedence.  The operator that a call
    leaves is the last of that sequence. *)
Theorem parentheses_follow_call_order (a : ast) (st : state) :
  count_open (output (compile a st)) = descents (prevBinaryOp st) (ops a) ∧
  prevBinaryOp (compile a st) = last_op (prevBinaryOp st) (ops a).
Proof.
  unfold compile.
  destruct (_compile_tracks a {| output := []; prevBinaryOp := prevBinaryOp st |})
    as [P C].
  by split.
Qed.

(** X15: what [compile] prints for a tree depends on the call before
    it, which leaves its last operator behind: after the compilation of
    a tree with an operator, a binary operation is printed with one more
    pair of parentheses than from the initial state exactly when that
    operator has a higher precedence than its own. *)
Theorem compile_depends_on_previous_call (a1 : ast) (op : binop)
    (lhs rhs : ast) (st : state) (p : binop) :
  last (ops a1) = Some p →
  count_open (output (compile (Binary op lhs rhs) (compile a1 st))) =
    count_open (output (compile (Binary op lhs rhs) initial)) +
    if (precedence op <? precedence p)%nat then 1 else 0.
Proof.
  intros Hlast. unfold compile at 1 3.
  destruct (_compile_tracks (Binary op lhs rhs)
              {| output := []; prevBinaryOp := prevBinaryOp (compile a1 st) |})
    as [_ ->].
  destruct (_compile_tracks (Binary op lhs rhs)
              {| output := []; prevBinaryOp := prevBinaryOp initial |})
    as [_ ->].
  unfold compile.
  destruct (_compile_tracks a1 {| output := []; prevBinaryOp := prevBinaryOp st |})
    as [-> _].
  cbn [prevBinaryOp output ops descents initial count_open filter length].
  unfold last_op. rewrite Hlast. cbn. lia.
Qed.

Lemma compile_depends_on_previous_call_witness :
  count_open (output (compile (Binary Plus (Value 1) (Value 2))
                        (compile (Binary Times (Value 2) (Value 2)) initial)))
  = count_open (output (compile (Binary Plus (Value 1) (Value 2)) initial)) + 1.
Proof.
  exact (compile_depends_on_previous_call (Binary Times (Value 2) (Value 2))
           Plus (Value 1) (Value 2) initial Times eq_refl).
Defined.

End PrinterFacts.

(** * The recursive-descent parsers *)

Lemma str_length_app (a b : string) :
  String.length (a +:+ b) = String.length a + String.length b.
Proof.
  induction a as [|c a IH]; [by rewrite str_app_nil_l |].
  rewrite str_app_cons. cbn [String.length]. by rewrite IH.
Qed.

Lemma get_after_prefix (pre suf : string) :
  String.get (String.length pre) (pre +:+ suf) =
    match suf with
    | String c _ => Some c
    | EmptyString => None
    end.
Proof.
  induction pre as [|a pre IH].
  - rewrite str_app_nil_l. by destruct suf.
  - rewrite str_app_cons. exact IH.
Qed.

Lemma engine_at_get (e : compilerEngile) (text suf : string) :
  engine_at e text suf →
  String.get (cursor e) (input e) =
    match suf with
    | String c _ => Some c
    | EmptyString => None
    end.
Proof. intros (-> & pre & -> & ->). apply get_after_prefix. Qed.

Lemma engine_at_step (e : compilerEngile) (text : string) (c : ascii)
    (suf : string) :
  engine_at e text (String c suf) →
  engine_at {| input := input e; cursor := cursor e + 1 |} text suf.
Proof.
  intros (Hi & pre & Ht & Hc). split; [done |].
  exists (pre +:+ String c EmptyString). cbn [cursor]. split.
  - by rewrite str_app_assoc, str_app_cons, str_app_nil_l.
  - rewrite str_length_app, Hc. done.
Qed.

Lemma engine_at_start (text : string) :
  engine_at (compilerEngile_new text) text text.
Proof. split; [done |]. exists EmptyString. by rewrite str_app_nil_l. Qed.

(** At the end of a run the whole input is read exactly when nothing is
    left after the cursor. *)
Lemma engine_at_end (e : compilerEngile) (text suf : string) :
  engine_at e text suf →
  (String.length (input e) =? cursor e)%nat = true ↔ suf = EmptyString.
Proof.
  intros (-> & pre & -> & ->). rewrite Nat.eqb_eq, str_length_app. split.
  - intros H. destruct suf; [done | cbn in H; lia].
  - intros ->. cbn. lia.
Qed.

Lemma strip_cases (c : ascii) (s w : string) :
  strip c s = w → s = String c w ∨ s = w.
Proof.
  destruct s as [|c' s']; cbn [strip]; [by right |].
  destruct (Ascii.eqb_spec c c') as [<- |]; intros <-; [by left | by right].
Qed.

Ltac in_list :=
  repeat first [apply list_elem_of_here | apply list_elem_of_further].

Section BacktrackingFacts.
Import Backtracking.

Lemma bt_eat_at (c : ascii) (e : compilerEngile) (text suf : string) :
  engine_at e text suf →
  (eat c e).1 = starts c suf ∧ engine_at (eat c e).2 text (strip c suf).
Proof.
  intros H. unfold eat. rewrite (engine_at_get _ _ _ H).
  destruct suf as [|c' suf]; [done |]. cbn [starts strip].
  destruct (Ascii.eqb c c'); [| done].
  split; [done |]. by eapply engine_at_step.
Qed.

Lemma bt_compilerA_at (e : compilerEngile) (text suf : string) :
  engine_at e text suf → engine_at (compilerA e).2 text (strip_A suf).
Proof.
  intros H. unfold compilerA, compilerA1, compilerA2, strip_A.
  destruct (bt_eat_at "a" e text suf H) as [Ha Hea].
  destruct (eat "a" e) as [r e1]. cbn [fst snd] in Ha, Hea. subst r.
  destruct (starts "a" suf); cbn [andb].
  - destruct (bt_eat_at "b" e1 _ _ Hea) as [Hb Heb].
    destruct (eat "b" e1) as [r e2]. cbn [fst snd] in Hb, Heb. subst r.
    destruct (starts "b" (strip "a" suf)); [done |].
    apply bt_eat_at. split; [by destruct Heb | by destruct H].
  - apply bt_eat_at. split; [by destruct Hea | by destruct H].
Qed.

Lemma bt_compilerS_at (e : compilerEngile) (text suf : string) :
  engine_at e text suf →
  engine_at (compilerS e) text (strip "d" (strip_A (strip "s" suf))).
Proof.
  intros H. unfold compilerS.
  destruct (bt_eat_at "s" e _ _ H) as [_ H1].
  destruct (eat "s" e) as [r1 e1]. cbn [snd] in H1.
  pose proof (bt_compilerA_at e1 _ _ H1) as H2.
  destruct (compilerA e1) as [r2 e2]. cbn [snd] in H2.
  destruct (bt_eat_at "d" e2 _ _ H2) as [_ H3].
  by destruct (eat "d" e2) as [r3 e3].
Qed.

Lemma strip_A_cases (s w : string) :
  strip_A s = w →
  s = String "a" (String "b" w) ∨ s = String "c" w ∨ s = w.
Proof.
  unfold strip_A. destruct (starts "a" s && starts "b" (strip "a" s)) eqn:E.
  - apply andb_prop in E as [Ha Hb]. intros <-.
    destruct s as [|c1 s1]; [done |]. cbn [starts strip] in *.
    apply Ascii.eqb_eq in Ha as <-. rewrite Ascii.eqb_refl in *.
    destruct s1 as [|c2 s2]; [done |]. cbn [starts strip] in *.
    apply Ascii.eqb_eq in Hb as <-. rewrite Ascii.eqb_refl. by left.
  - intros [-> | ->]%strip_cases; [right; by left | right; by right].
Qed.

(** X16: the parser that backtracks accepts more than the language of
    its grammar: [compilerS] drops the results of its calls, so each of
    the three parts of [sAd] may be missing, and [run()] returns [true]
    exactly for the twelve texts made of an optional [s], then [ab],
    [c] or nothing, then an optional [d]; the empty input is one of
    them. *)
Theorem backtracking_parser_accepts (text : string) :
  (run (compilerEngile_new text)).1 = true ↔ text ∈ accepted.
Proof.
  split.
  - unfold run.
    pose proof (bt_compilerS_at _ _ _ (engine_at_start text)) as H.
    destruct (String.length _ =? _)%nat eqn:E; [intros _ | done].
    apply (engine_at_end _ _ _ H) in E.
    apply strip_cases in E as [E | E];
      apply strip_A_cases in E as [E | [E | E]];
      apply strip_cases in E as [-> | ->];
      unfold accepted; in_list.
  - unfold accepted. intros H.
    repeat (apply elem_of_cons in H as [-> | H]; [by vm_compute |]).
    by apply elem_of_nil in H.
Qed.

End BacktrackingFacts.

Section PredictiveFacts.
Import Predictive.

Lemma pd_eat_at (c : ascii) (e e' : compilerEngile) (text suf : string) :
  engine_at e text suf → eat c e = Done e' →
  ∃ suf', suf = String c suf' ∧ engine_at e' text suf'.
Proof.
  intros H. unfold eat. rewrite (engine_at_get _ _ _ H).
  destruct suf as [|c' suf]; [done |].
  destruct (Ascii.eqb_spec c c') as [<- |]; [| done].
  intros [= <-]. exists suf. split; [done |]. by eapply engine_at_step.
Qed.

Lemma pd_compilerS_at (e e' : compilerEngile) (text suf : string) :
  engine_at e text suf → compilerS e = Done e' →
  ∃ rest,
    engine_at e' text rest ∧
    (suf = "sabd" +:+ rest ∨ suf = "scd" +:+ rest ∨ suf = "sd" +:+ rest).
Proof.
  intros H. unfold compilerS. intros HS.
  obind_split HS as e1 H1. obind_split HS as e2 H2.
  destruct (pd_eat_at _ _ _ _ _ H H1) as (s1 & -> & Hat1).
  unfold compilerA in H2. rewrite (engine_at_get _ _ _ Hat1) in H2.
  assert (∀ s2, engine_at e2 text s2 → ∃ rest,
            engine_at e' text rest ∧ s2 = String "d" rest) as Hd.
  { intros s2 Hat2. destruct (pd_eat_at _ _ _ _ _ Hat2 HS) as (rest & -> & Hat3).
    eauto. }
  destruct s1 as [|c s1'].
  - injection H2 as <-. by destruct (Hd _ Hat1) as (rest & _ & ?).
  - destruct (Ascii.eqb_spec c "a") as [-> | Ha].
    + obind_split H2 as e1' H1'.
      destruct (pd_eat_at _ _ _ _ _ Hat1 H1') as (sa & [= <-] & Hat1').
      destruct (pd_eat_at _ _ _ _ _ Hat1' H2) as (sb & -> & Hat2).
      destruct (Hd _ Hat2) as (rest & Hrest & ->).
      exists rest. split; [done |]. by left.
    + destruct (Ascii.eqb_spec c "c") as [-> | Hc].
      * destruct (pd_eat_at _ _ _ _ _ Hat1 H2) as (sc & [= <-] & Hat2).
        destruct (Hd _ Hat2) as (rest & Hrest & ->).
        exists rest. split; [done |]. right. by left.
      * injection H2 as <-.
        destruct (Hd _ Hat1) as (rest & Hrest & [= -> ->]).
        exists rest. split; [done |]. right. by right.
Qed.

(** X17: the parser that looks at the next character returns [true]
    for the two texts of the grammar and for [sd] as well: when the
    character after [s] is neither [a] nor [c], [compilerA] reads
    nothing and does not throw.  For every other input [run()] returns
    [false]. *)
Theorem predictive_parser_accepts (text : string) :
  (∃ err, run (compilerEngile_new text) = Done (true, err)) ↔
  text ∈ accepted.
Proof.
  split.
  - unfold run. intros [err H].
    destruct (compilerS (compilerEngile_new text)) as [e' | |] eqn:HS;
      [| done | done].
    destruct (pd_compilerS_at _ _ _ _ (engine_at_start text) HS)
      as (rest & Hat & Hrest).
    destruct (String.length _ =? _)%nat eqn:E; [| done].
    apply (engine_at_end _ _ _ Hat) in E. subst rest.
    unfold accepted. destruct Hrest as [-> | [-> | ->]]; in_list.
  - unfold accepted. intros H.
    repeat (apply elem_of_cons in H as [-> | H]; [by eexists; vm_compute |]).
    by apply elem_of_nil in H.
Qed.

End PredictiveFacts.
